(** * Video frame deduplication pipeline (src/video-analyzer)

    A shallow embedding of the TypeScript sources

      - [tfidf.ts]                    tokenizer, TF-IDF matrix, cosine similarity
      - [clustering.ts]               K-means and DBSCAN front ends
      - [representativeSelection.ts]  centroid-nearest frame of a group
      - [ocr.ts]                      the OCR worker pool
      - [index.ts]                    cache, timestamps and the orchestrator
                                      [analyzeVideo]

    together with the properties of the pipeline that are stated about it.

    Conventions of the embedding.

    - A JavaScript string is a [string]; its characters stand for UTF-16 code
      units below 256.
    - An insertion-ordered [Map] is an association list whose keys are
      distinct; [Map.set] on a present key replaces the value in place, on an
      absent key it appends the entry.
    - Floating point numbers that carry TF-IDF weights are kept abstract behind
      the class [JsNumber].  The instance [Double.number] is the arithmetic
      of the source, IEEE 754 doubles; statements that need the laws of an
      ordered field are made for the instance on [R].  Frame numbers are
      integers, and the quotients computed from them are exact rationals.
    - An integer that may be NaN is an [option Z], a label that may be
      [undefined] an [option Z] as well.
    - A thrown exception is the [Err] branch of [result]. *)

From Stdlib Require Import List String Ascii Bool Arith ZArith QArith Qround.
From Stdlib Require Import Reals Lia Lra Permutation Sorted DecimalString.
From Stdlib Require DecimalFacts DecimalPos Floats.
Import ListNotations.

Local Open Scope string_scope.
Local Open Scope list_scope.
Local Open Scope nat_scope.

Set Implicit Arguments.

(** ** JavaScript strings *)

Module Js.

(** [WhiteSpace] and [LineTerminator] code units below 256: the characters
    matched by [\s] and removed by [String.prototype.trim]. *)
Definition isSpace (c : ascii) : bool :=
  let n := nat_of_ascii c in
  (9 <=? n) && (n <=? 13) || (n =? 32) || (n =? 160).

Definition isDigit (c : ascii) : bool :=
  let n := nat_of_ascii c in (48 <=? n) && (n <=? 57).

Definition isLowerAlpha (c : ascii) : bool :=
  let n := nat_of_ascii c in (97 <=? n) && (n <=? 122).

(** [toLowerCase] on one code unit: the ASCII capitals and the Latin-1
    capitals (U+00C0 to U+00DE without the multiplication sign). *)
Definition lowerChar (c : ascii) : ascii :=
  let n := nat_of_ascii c in
  if (65 <=? n) && (n <=? 90) then ascii_of_nat (n + 32)
  else if (192 <=? n) && (n <=? 222) && negb (n =? 215) then ascii_of_nat (n + 32)
  else c.

Fixpoint mapChars (f : ascii -> ascii) (s : string) : string :=
  match s with
  | EmptyString => EmptyString
  | String c r => String (f c) (mapChars f r)
  end.

Definition toLowerCase (s : string) : string := mapChars lowerChar s.

Fixpoint trimStart (s : string) : string :=
  match s with
  | String c r => if isSpace c then trimStart r else s
  | EmptyString => EmptyString
  end.

Fixpoint allSpace (s : string) : bool :=
  match s with
  | EmptyString => true
  | String c r => isSpace c && allSpace r
  end.

Fixpoint trimEnd (s : string) : string :=
  match s with
  | EmptyString => EmptyString
  | String c r => if allSpace s then EmptyString else String c (trimEnd r)
  end.

Definition trim (s : string) : string := trimEnd (trimStart s).

(** [s.split(/\s+/)]: the pieces between maximal runs of white space.  A
    string that starts or ends with white space yields an empty first or last
    piece, as in JavaScript. *)
Fixpoint splitSpaces (cur : string) (inRun : bool) (s : string) : list string :=
  match s with
  | EmptyString => [cur]
  | String c r =>
      if isSpace c
      then (if inRun then splitSpaces EmptyString true r
            else cur :: splitSpaces EmptyString true r)
      else splitSpaces (cur ++ String c EmptyString) false r
  end.

Definition splitWhitespace (s : string) : list string :=
  splitSpaces EmptyString false s.

(** [String(n)] for an integer. *)
Definition ofZ (z : Z) : string := NilZero.string_of_int (Z.to_int z).
Definition ofNat (n : nat) : string := NilZero.string_of_uint (Nat.to_uint n).

Fixpoint repeatChar (c : ascii) (n : nat) : string :=
  match n with
  | O => EmptyString
  | S k => String c (repeatChar c k)
  end.

(** [s.padStart(n, "0")]. *)
Definition padStart0 (n : nat) (s : string) : string :=
  repeatChar "0"%char (n - String.length s) ++ s.

Fixpoint startsWith (p s : string) : bool :=
  match p, s with
  | EmptyString, _ => true
  | String a p', String b s' => Ascii.eqb a b && startsWith p' s'
  | String _ _, EmptyString => false
  end.

Fixpoint dropChars (n : nat) (s : string) : string :=
  match n, s with
  | O, _ => s
  | S k, String _ r => dropChars k r
  | S _, EmptyString => EmptyString
  end.

(** [s.replace(p, "")] for a string pattern: the first occurrence of [p] is
    removed. *)
Fixpoint removeFirst (p s : string) : string :=
  if startsWith p s then dropChars (String.length p) s
  else match s with
       | EmptyString => EmptyString
       | String c r => String c (removeFirst p r)
       end.

End Js.

(** ** Insertion-ordered maps and sets

    [Map<K, V>] and [Set<K>] iterate in insertion order; the vocabulary order
    and the order of the cluster entries depend on it. *)

Module JsMap.
Section Assoc.
Variables (K V : Type) (keq : K -> K -> bool).

Fixpoint get (m : list (K * V)) (k : K) : option V :=
  match m with
  | [] => None
  | (k', v) :: r => if keq k' k then Some v else get r k
  end.

Definition has (m : list (K * V)) (k : K) : bool :=
  match get m k with Some _ => true | None => false end.

Fixpoint set (m : list (K * V)) (k : K) (v : V) : list (K * V) :=
  match m with
  | [] => [(k, v)]
  | (k', v') :: r => if keq k' k then (k, v) :: r else (k', v') :: set r k v
  end.

Definition keys (m : list (K * V)) : list K := map fst m.
End Assoc.

Section Sets.
Variables (K : Type) (keq : K -> K -> bool).

Definition member (s : list K) (k : K) : bool := existsb (keq k) s.

(** [Set.prototype.add]. *)
Definition add (s : list K) (k : K) : list K :=
  if member s k then s else s ++ [k].

(** [new Set(xs)]. *)
Definition ofList (xs : list K) : list K := fold_left add xs [].
End Sets.
End JsMap.

(** [m.get(k) ?? 0] on a map of counters. *)
Definition getCount (m : list (string * nat)) (k : string) : nat :=
  match JsMap.get String.eqb m k with Some c => c | None => 0 end.

(** ** tfidf.ts: tokenizer *)

Definition STOP_WORDS : list string :=
  [ "a"; "an"; "and"; "are"; "as"; "at"; "be"; "but"; "by"; "for"; "if"; "in";
    "into"; "is"; "it"; "no"; "not"; "of"; "on"; "or"; "such"; "that"; "the";
    "their"; "then"; "there"; "these"; "they"; "this"; "to"; "was"; "will"; "with";
    "i"; "me"; "my"; "myself"; "we"; "our"; "ours"; "ourselves"; "you"; "your";
    "yours"; "yourself"; "yourselves"; "he"; "him"; "his"; "himself"; "she"; "her";
    "hers"; "herself"; "its"; "itself"; "them"; "theirs"; "themselves";
    "what"; "which"; "who"; "whom"; "when"; "where"; "why"; "how";
    "all"; "each"; "every"; "both"; "few"; "more"; "most"; "other"; "some";
    "am"; "been"; "being"; "do"; "does"; "did"; "doing"; "would"; "should";
    "could"; "ought"; "might"; "shall"; "can"; "need"; "dare"; "had"; "has";
    "have"; "having"; "s"; "t"; "d"; "ll"; "re"; "ve"; "m";
    "about"; "above"; "after"; "again"; "against"; "before"; "below"; "between";
    "during"; "from"; "further"; "here"; "just"; "nor"; "only"; "own"; "same";
    "so"; "than"; "too"; "very"; "now"; "don"; "didn"; "doesn"; "hadn"; "hasn";
    "haven"; "isn"; "wasn"; "weren"; "won"; "wouldn"; "shouldn"; "couldn";
    "down"; "off"; "out"; "over"; "under"; "until"; "up" ].

Definition isStopWord (w : string) : bool := JsMap.member String.eqb STOP_WORDS w.

(** [.replace(/[^a-z0-9\s]/g, " ")]. *)
Definition blankNonAlnum (s : string) : string :=
  Js.mapChars
    (fun c => if Js.isLowerAlpha c || Js.isDigit c || Js.isSpace c then c else " "%char) s.

Definition words (text : string) : list string :=
  filter (fun w => (0 <? String.length w) && negb (isStopWord w))
         (Js.splitWhitespace (blankNonAlnum (Js.toLowerCase text))).

(** The bigram loop: [words[i] + " " + words[i + 1]] for [i < words.length - 1]. *)
Fixpoint bigrams (ws : list string) : list string :=
  match ws with
  | a :: (b :: _) as r => (a ++ " " ++ b)%string :: bigrams r
  | _ => []
  end.

Definition tokenize (text : string) : list string :=
  let ws := words text in ws ++ bigrams ws.

(** ** Numbers

    The arithmetic of the TF-IDF weights is IEEE double arithmetic in the
    source.  The embedding keeps the number type and the operations the
    source uses abstract, so that everything said about the structure of the
    computation holds for any arithmetic. *)

Class JsNumber (num : Type) : Type := {
  nOfNat : nat -> num;              (* an integer count used as a number *)
  nAdd : num -> num -> num;
  nSub : num -> num -> num;
  nMul : num -> num -> num;
  nDiv : num -> num -> num;
  nLog : num -> num;                (* Math.log *)
  nSqrt : num -> num;               (* Math.sqrt *)
  nGtb : num -> num -> bool;        (* x > y *)
  nEqb : num -> num -> bool         (* x === y *)
}.

(** A thrown exception. *)
Inductive jsError : Type :=
| EmptyGroupError    (* Error("Cannot select representative from empty group") *)
| TypeError.         (* a method or a path function applied to undefined *)

Inductive result (A : Type) : Type :=
| Ok (a : A)
| Err (e : jsError).
Arguments Ok {A} a.
Arguments Err {A} e.

Definition bind {A B : Type} (r : result A) (k : A -> result B) : result B :=
  match r with
  | Ok a => k a
  | Err e => Err e
  end.

Notation "x <- r ;; k" := (bind r (fun x => k))
  (at level 61, r at next level, right associativity).

(** [xs.map(f)] for an [f] that may throw. *)
Fixpoint mapM {A B : Type} (f : A -> result B) (xs : list A) : result (list B) :=
  match xs with
  | [] => Ok []
  | x :: r => y <- f x ;; ys <- mapM f r ;; Ok (y :: ys)
  end.

(** [a[i] = v] for an index inside the array. *)
Fixpoint setNth {A : Type} (l : list A) (i : nat) (v : A) : list A :=
  match l, i with
  | [], _ => []
  | _ :: r, O => v :: r
  | x :: r, S k => x :: setNth r k v
  end.

(** ** tfidf.ts: the TF-IDF matrix *)

(** The first loop of [buildTfidfMatrix]: indices and texts of the entries
    whose trimmed text is not empty, from index [i] on. *)
Fixpoint nonEmptyFrom (i : nat) (texts : list string) : list nat * list string :=
  match texts with
  | [] => ([], [])
  | t :: r =>
      let (idx, ts) := nonEmptyFrom (S i) r in
      if 0 <? String.length (Js.trim t) then (i :: idx, t :: ts) else (idx, ts)
  end.

(** One document's contribution to [dfCounts]. *)
Definition countDocument (dfCounts : list (string * nat)) (tokens : list string)
  : list (string * nat) :=
  fold_left (fun m token => JsMap.set String.eqb m token (getCount m token + 1))
            (JsMap.ofList String.eqb tokens) dfCounts.

Definition documentFrequencies (tokenizedDocs : list (list string)) : list (string * nat) :=
  fold_left countDocument tokenizedDocs [].

(** [Math.floor(nDocs * 0.95)].  The double nearest to 0.95 lies below it by
    less than 2^-54, and the product with an integer below 2^53 rounds to
    the same floor as the exact product 19 * nDocs / 20. *)
Definition maxDfOf (nDocs : nat) : nat := (nDocs * 19) / 20.

(** [df >= 1 && (nDocs <= 1 || df <= maxDf)]. *)
Definition keepTerm (nDocs maxDf df : nat) : bool :=
  (1 <=? df) && ((nDocs <=? 1) || (df <=? maxDf)).

(** [vocabIndex.set(term, vocabulary.length); vocabulary.push(term)]. *)
Definition addTerm (acc : list (string * nat) * list string) (term : string)
  : list (string * nat) * list string :=
  let (vocabIndex, vocabulary) := acc in
  (JsMap.set String.eqb vocabIndex term (List.length vocabulary), vocabulary ++ [term]).

(** The two vocabulary loops: the filter, then the fallback over every
    observed term when the filter kept nothing. *)
Definition buildVocabulary (nDocs : nat) (dfCounts : list (string * nat))
  : list (string * nat) * list string :=
  let maxDf := maxDfOf nDocs in
  let filtered :=
    fold_left (fun acc (e : string * nat) =>
                 if keepTerm nDocs maxDf (snd e) then addTerm acc (fst e) else acc)
              dfCounts ([], []) in
  if List.length (snd filtered) =? 0
  then fold_left (fun acc (e : string * nat) => addTerm acc (fst e)) dfCounts filtered
  else filtered.

(** The term frequency map of one document, restricted to the vocabulary. *)
Definition termFrequencies (vocabIndex : list (string * nat)) (tokens : list string)
  : list (string * nat) :=
  fold_left (fun tf token =>
               if JsMap.has String.eqb vocabIndex token
               then JsMap.set String.eqb tf token (getCount tf token + 1)
               else tf)
            tokens [].

Section Tfidf.
Context {num : Type} {N : JsNumber num}.

Record TfidfResult : Type := {
  matrix : list (list num);
  vocabulary : list string;
  originalIndices : list nat
}.

(** [(1 + Math.log(count)) * (Math.log((1 + nDocs) / (1 + df)) + 1)]. *)
Definition tfidfWeight (nDocs count df : nat) : num :=
  nMul (nAdd (nOfNat 1) (nLog (nOfNat count)))
       (nAdd (nLog (nDiv (nOfNat (1 + nDocs)) (nOfNat (1 + df)))) (nOfNat 1)).

(** The row before normalization.  Every term of [tf] is a key of
    [vocabIndex] and of [dfCounts]; the branches for an absent key are not
    reached. *)
Definition rawRow (nDocs : nat) (dfCounts vocabIndex : list (string * nat))
           (vocabSize : nat) (tf : list (string * nat)) : list num :=
  fold_left (fun row (e : string * nat) =>
               match JsMap.get String.eqb vocabIndex (fst e) with
               | Some idx => setNth row idx (tfidfWeight nDocs (snd e) (getCount dfCounts (fst e)))
               | None => row
               end)
            tf (repeat (nOfNat 0) vocabSize).

(** [Math.sqrt(row.reduce((sum, v) => sum + v * v, 0))]. *)
Definition l2norm (row : list num) : num :=
  nSqrt (fold_left (fun sum v => nAdd sum (nMul v v)) row (nOfNat 0)).

Definition normalizeRow (row : list num) : list num :=
  let norm := l2norm row in
  if nGtb norm (nOfNat 0) then map (fun v => nDiv v norm) row else row.

Definition buildTfidfMatrix (texts : list string) : TfidfResult :=
  let (nonEmptyIndices, nonEmptyTexts) := nonEmptyFrom 0 texts in
  if List.length nonEmptyTexts =? 0
  then {| matrix := []; vocabulary := []; originalIndices := [] |}
  else
    let tokenizedDocs := map tokenize nonEmptyTexts in
    let dfCounts := documentFrequencies tokenizedDocs in
    let nDocs := List.length nonEmptyTexts in
    let (vocabIndex, vocab) := buildVocabulary nDocs dfCounts in
    {| matrix :=
         map (fun tokens =>
                normalizeRow
                  (rawRow nDocs dfCounts vocabIndex (List.length vocab)
                          (termFrequencies vocabIndex tokens)))
             tokenizedDocs;
       vocabulary := vocab;
       originalIndices := nonEmptyIndices |}.

(** The loop of [cosineSimilarity]; it runs over the indices of [a], and
    every caller passes a [b] of the same length. *)
Fixpoint cosineSums (a b : list num) (acc : num * num * num) : num * num * num :=
  match a, b with
  | x :: a', y :: b' =>
      let '(dot, normA, normB) := acc in
      cosineSums a' b' (nAdd dot (nMul x y), nAdd normA (nMul x x), nAdd normB (nMul y y))
  | _, _ => acc
  end.

Definition cosineSimilarity (a b : list num) : num :=
  let '(dot, normA, normB) := cosineSums a b (nOfNat 0, nOfNat 0, nOfNat 0) in
  let denom := nMul (nSqrt normA) (nSqrt normB) in
  if nEqb denom (nOfNat 0) then nOfNat 0 else nDiv dot denom.

Definition cosineDistance (a b : list num) : num :=
  nSub (nOfNat 1) (cosineSimilarity a b).
End Tfidf.

Arguments TfidfResult num : clear implicits.

(** ** clustering.ts *)

(** A cluster label as it is read from a label array: [None] is [undefined],
    the value of a hole of an array that was extended by a write past its
    end. *)
Definition label : Type := option Z.

Definition labelEqb (a b : label) : bool :=
  match a, b with
  | Some x, Some y => Z.eqb x y
  | None, None => true
  | _, _ => false
  end.

Definition NOISE : label := Some (-1)%Z.

(** [a[i] = v] on a JavaScript array: a write past the end extends the array
    and leaves holes in between. *)
Fixpoint jsSet (l : list label) (i : nat) (v : label) : list label :=
  match l, i with
  | [], O => [v]
  | [], S k => None :: jsSet [] k v
  | _ :: r, O => v :: r
  | x :: r, S k => x :: jsSet r k v
  end.

(** The two clustering packages the repository imports: [kmeans] of
    ml-kmeans with its fixed options (kmeans++ initialization, at most 100
    iterations, seed 42), giving [result.clusters], and [DBSCAN.run] of
    density-clustering, giving the clusters as arrays of point indices. *)
Class ClusterLib (num : Type) : Type := {
  kmeans : list (list num) -> Z -> list Z;
  dbscanRun : list (list num) -> num -> nat ->
              (list num -> list num -> num) -> list (list nat)
}.

Section Clustering.
Context {num : Type} {N : JsNumber num} {L : ClusterLib num}.

Definition clusterKMeans (tfidfMatrix : list (list num)) (nClusters : Z) : list label :=
  if List.length tfidfMatrix =? 0 then []
  else
    let effectiveClusters := Z.min nClusters (Z.of_nat (List.length tfidfMatrix)) in
    if (effectiveClusters <=? 1)%Z
    then repeat (Some 0%Z) (List.length tfidfMatrix)
    else map Some (kmeans tfidfMatrix effectiveClusters).

(** [for (const pointIdx of clusters[clusterIdx]) labels[pointIdx] = clusterIdx]. *)
Definition assignCluster (labels : list label) (clusterIdx : nat) (cluster : list nat)
  : list label :=
  fold_left (fun ls pointIdx => jsSet ls pointIdx (Some (Z.of_nat clusterIdx)))
            cluster labels.

Fixpoint assignClusters (clusterIdx : nat) (clusters : list (list nat))
         (labels : list label) : list label :=
  match clusters with
  | [] => labels
  | c :: r => assignClusters (S clusterIdx) r (assignCluster labels clusterIdx c)
  end.

Definition clusterDBSCAN (tfidfMatrix : list (list num)) (eps : num) (minSamples : nat)
  : list label :=
  if List.length tfidfMatrix =? 0 then []
  else if List.length tfidfMatrix <? minSamples
  then repeat (Some 0%Z) (List.length tfidfMatrix)
  else
    let clusters := dbscanRun tfidfMatrix eps minSamples cosineDistance in
    assignClusters 0 clusters (repeat NOISE (List.length tfidfMatrix)).
End Clustering.

(** ** representativeSelection.ts *)

Section Representative.
Context {num : Type} {N : JsNumber num}.

(** [centroid[j] += row[j]] for every [j < dim]; the rows of one matrix all
    have the length of the centroid. *)
Fixpoint addRow (centroid row : list num) : list num :=
  match centroid, row with
  | c :: cs, x :: xs => nAdd c x :: addRow cs xs
  | _, _ => centroid
  end.

Definition centroidOf (m : list (list num)) (dim : nat) : list num :=
  map (fun c => nDiv c (nOfNat (List.length m)))
      (fold_left addRow m (repeat (nOfNat 0) dim)).

(** The search loop from row [i] on; [best = None] is the initial
    [-Infinity], below every similarity. *)
Fixpoint bestFrom (i : nat) (rows : list (list num)) (centroid : list num)
         (bestIdx : nat) (best : option num) : nat :=
  match rows with
  | [] => bestIdx
  | row :: r =>
      let sim := cosineSimilarity row centroid in
      if match best with None => true | Some b => nGtb sim b end
      then bestFrom (S i) r centroid i (Some sim)
      else bestFrom (S i) r centroid bestIdx best
  end.

(** [groupFramePaths[i]]; the [undefined] of an index past the end, which
    no call with as many texts as paths produces, is reported as the
    [TypeError] it causes in the caller. *)
Definition pathAt (groupFramePaths : list string) (i : nat) : result string :=
  match nth_error groupFramePaths i with
  | Some p => Ok p
  | None => Err TypeError
  end.

Definition selectRepresentative (groupFramePaths groupTexts : list string)
  : result string :=
  match groupFramePaths with
  | [] => Err EmptyGroupError
  | [p] => Ok p
  | first :: _ =>
      let r := buildTfidfMatrix groupTexts in
      match matrix r with
      | [] => Ok first
      | [_] => pathAt groupFramePaths (nth 0 (originalIndices r) 0)
      | row0 :: _ =>
          let dim := List.length row0 in
          let centroid := centroidOf (matrix r) dim in
          let bestIdx := bestFrom 0 (matrix r) centroid 0 None in
          pathAt groupFramePaths (nth bestIdx (originalIndices r) 0)
      end
  end.
End Representative.

(** ** ocr.ts: the worker pool

    [tesseract framePath lang] is the outcome of the external OCR process for
    one frame: [Some stdout], or [None] when the process fails. *)

Module Ocr.
Section Pool.
Variable tesseract : string -> string -> option string.

(** The [try]/[catch] of [ocrFrame]: a failure becomes the empty text. *)
Definition ocrFrame (framePath lang : string) : string :=
  match tesseract framePath lang with
  | Some stdout => stdout
  | None => ""
  end.

(** A [processNext] call is either suspended at its [await], holding the
    frame it shifted from the queue, or has returned. *)
Inductive worker : Type :=
| Awaiting (framePath : string)
| Returned.

Record pool : Type := {
  queue : list string;
  results : list (string * string);
  completed : nat;
  workerStates : list worker
}.

(** The head of the [while] loop: [queue.shift()] when the queue is not
    empty, return otherwise. *)
Definition enterLoop (q : list string) : worker * list string :=
  match q with
  | [] => (Returned, [])
  | f :: q' => (Awaiting f, q')
  end.

(** [workerPromises.push(processNext())]: the call runs up to its first
    [await]. *)
Definition launch (p : pool) : pool :=
  let (w, q) := enterLoop (queue p) in
  {| queue := q; results := results p; completed := completed p;
     workerStates := workerStates p ++ [w] |}.

(** The state when [Promise.all] starts waiting:
    [Math.min(workers, frames.length)] calls have been launched. *)
Definition start (frames : list string) (workers : Z) : pool :=
  Nat.iter (Z.to_nat (Z.min workers (Z.of_nat (List.length frames)))) launch
           {| queue := frames; results := []; completed := 0; workerStates := [] |}.

(** Worker [i] is resumed when its OCR call settles: it records the text
    and goes round the loop. *)
Definition resume (lang : string) (p : pool) (i : nat) : option pool :=
  match nth_error (workerStates p) i with
  | Some (Awaiting f) =>
      let (w, q) := enterLoop (queue p) in
      Some {| queue := q;
              results := JsMap.set String.eqb (results p) f (ocrFrame f lang);
              completed := S (completed p);
              workerStates := setNth (workerStates p) i w |}
  | _ => None
  end.

(** One scheduling step: any suspended worker may be the next to resume. *)
Definition step (lang : string) (p p' : pool) : Prop :=
  exists i, resume lang p i = Some p'.

Inductive steps (lang : string) : pool -> pool -> Prop :=
| steps_refl p : steps lang p p
| steps_next p p' p'' : step lang p p' -> steps lang p' p'' -> steps lang p p''.

Definition isReturned (w : worker) : bool :=
  match w with Returned => true | Awaiting _ => false end.

(** [Promise.all(workerPromises)] resolves when every call has returned. *)
Definition settled (p : pool) : bool := forallb isReturned (workerStates p).

Fixpoint firstAwaiting (i : nat) (ws : list worker) : option nat :=
  match ws with
  | [] => None
  | Awaiting _ :: _ => Some i
  | Returned :: r => firstAwaiting (S i) r
  end.

(** One schedule: the suspended call of lowest index is always the next to
    resume. *)
Fixpoint run (lang : string) (fuel : nat) (p : pool) : pool :=
  match fuel with
  | O => p
  | S k =>
      match firstAwaiting 0 (workerStates p) with
      | None => p
      | Some i =>
          match resume lang p i with
          | Some p' => run lang k p'
          | None => p
          end
      end
  end.

(** The map [ocrAllFrames] resolves to; every step completes one frame, so
    [frames.length] steps are enough. *)
Definition ocrAllFrames (frames : list string) (lang : string) (workers : Z)
  : list (string * string) :=
  results (run lang (List.length frames) (start frames workers)).
End Pool.
End Ocr.

(** ** node:path, as far as the pipeline uses it (POSIX flavour) *)

Module Path.

Definition isSlash (c : ascii) : bool := Ascii.eqb c "/"%char.

Fixpoint allSlashes (s : string) : bool :=
  match s with
  | EmptyString => true
  | String c r => isSlash c && allSlashes r
  end.

(** The last path segment, trailing slashes dropped. *)
Fixpoint lastSegmentFrom (cur : string) (s : string) : string :=
  match s with
  | EmptyString => cur
  | String c r =>
      if isSlash c
      then (if allSlashes r then cur else lastSegmentFrom EmptyString r)
      else lastSegmentFrom (cur ++ String c EmptyString) r
  end.

Definition lastSegment (p : string) : string := lastSegmentFrom EmptyString p.

(** The suffix that starts at the last dot. *)
Fixpoint fromLastDot (s : string) : option string :=
  match s with
  | EmptyString => None
  | String c r =>
      match fromLastDot r with
      | Some e => Some e
      | None => if Ascii.eqb c "."%char then Some s else None
      end
  end.

(** [path.extname]: from the last dot of the last segment; empty when there
    is no dot, when the only dot starts the segment, and for [".."]. *)
Definition extname (p : string) : string :=
  match lastSegment p with
  | EmptyString => ""
  | String c r =>
      if String.eqb (String c r) ".." then ""
      else match fromLastDot r with Some e => e | None => "" end
  end.

Fixpoint endsWith (s suffix : string) : bool :=
  String.eqb s suffix ||
  match s with
  | EmptyString => false
  | String _ r => endsWith r suffix
  end.

Fixpoint takeChars (n : nat) (s : string) : string :=
  match n, s with
  | S k, String c r => String c (takeChars k r)
  | _, _ => EmptyString
  end.

(** [path.basename(p, ext)]: the last segment, without [ext] when the segment
    ends with it and is longer. *)
Definition basename (p ext : string) : string :=
  let seg := lastSegment p in
  if String.eqb ext "" then seg
  else if String.eqb p ext then ""
  else if endsWith seg ext && negb (String.eqb seg ext)
  then takeChars (String.length seg - String.length ext) seg
  else seg.

(** [path.dirname]. *)
Fixpoint dirnameFrom (s : string) : option string :=
  match s with
  | EmptyString => None
  | String c r =>
      match dirnameFrom r with
      | Some d => Some (String c d)
      | None => if isSlash c && negb (allSlashes r) then Some EmptyString else None
      end
  end.

Fixpoint dropTrailingSlashes (s : string) : string :=
  match s with
  | EmptyString => EmptyString
  | String c r => if allSlashes s then EmptyString else String c (dropTrailingSlashes r)
  end.

Definition dirname (p : string) : string :=
  match dirnameFrom p with
  | Some d =>
      match dropTrailingSlashes d with
      | EmptyString => "/"
      | d' => d'
      end
  | None => if Js.startsWith "/" p then "/" else "."
  end.

(** [path.join(dir, name)] for a normalized directory and a plain name. *)
Definition join (dir name : string) : string := dir ++ "/" ++ name.

End Path.

(** ** index.ts: frame numbers and timestamps *)

(** The decimal digits at the start of [s]; [None] (NaN) when there is none. *)
Fixpoint leadingDigits (s : string) (acc : Z) (seen : bool) : option Z :=
  match s with
  | String c r =>
      if Js.isDigit c
      then leadingDigits r (10 * acc + Z.of_nat (nat_of_ascii c - 48))%Z true
      else if seen then Some acc else None
  | EmptyString => if seen then Some acc else None
  end.

(** [parseInt(s, 10)]; [None] is NaN. *)
Definition parseInt (s : string) : option Z :=
  match Js.trimStart s with
  | String "-"%char r => option_map Z.opp (leadingDigits r 0%Z false)
  | String "+"%char r => leadingDigits r 0%Z false
  | t => leadingDigits t 0%Z false
  end.

Definition getFrameNumber (framePath : string) : option Z :=
  let ext := Path.extname framePath in
  let name := Path.basename framePath ext in
  let numStr := Js.removeFirst "frame_" name in
  parseInt numStr.

Definition SAMPLE_FPS : Z := 15.

(** [x % y] for [x >= 0] and [y > 0].  The quotients of this file are
    multiples of 1/15 counted in integers far below 2^53; on them the double
    operations [/], [%], [Math.floor] and [toFixed(1)] give the results of
    the exact rational ones. *)
Definition qmod (x y : Q) : Q := (x - y * inject_Z (Qfloor (x / y)))%Q.

(** [Math.max(0, x)]. *)
Definition qmax0 (x : Q) : Q := if Qle_bool 0 x then x else 0%Q.

(** [x.toFixed(1)] for [x >= 0]: the nearest multiple of 1/10, the larger one
    on a tie. *)
Definition toFixed1 (x : Q) : string :=
  let n := Qfloor (x * 10 + (1 # 2))%Q in
  (Js.ofZ (n / 10) ++ "." ++ Js.ofZ (n mod 10))%string.

(** [frameNum] is an integer or NaN ([None]); with NaN every field of the
    template renders as ["NaN"] and [hours > 0] is false. *)
Definition frameNumberToTimestamp (frameNum : option Z) : string :=
  match frameNum with
  | None => "NaN:0NaN"
  | Some n =>
      let totalSeconds := qmax0 (inject_Z (n - 1) / inject_Z SAMPLE_FPS)%Q in
      let hours := Qfloor (totalSeconds / 3600)%Q in
      let minutes := Qfloor (qmod totalSeconds 3600 / 60)%Q in
      let secs := qmod totalSeconds 60 in
      if (0 <? hours)%Z
      then (Js.padStart0 2 (Js.ofZ hours) ++ ":" ++ Js.padStart0 2 (Js.ofZ minutes)
            ++ ":" ++ Js.padStart0 4 (toFixed1 secs))%string
      else (Js.padStart0 2 (Js.ofZ minutes) ++ ":" ++ Js.padStart0 4 (toFixed1 secs))%string
  end.

(** ** types.ts *)

Record FrameTimestamp : Type := {
  frameNumber : option Z;
  timestamp : string;
  fileName : string
}.

Record TimeRange : Type := {
  rangeStart : string;     (* start *)
  rangeEnd : string        (* end *)
}.

Record GroupInfo : Type := {
  groupIndex : nat;
  groupName : string;
  representativeFrame : string;
  frameCount : nat;
  timeRange : TimeRange;
  frames : list FrameTimestamp
}.

Record CachedOcr : Type := {
  cachedFrames : list string;     (* frames *)
  cachedTexts : list string       (* texts *)
}.

(** ** Sorting

    [Array.prototype.sort] is stable; with the comparator [a.key - b.key] an
    element moves in front of another exactly when its key is smaller.  A
    NaN key compares as equal to everything. *)

Section Sort.
Variables (A : Type) (lt : A -> A -> bool).

Fixpoint insertBy (x : A) (l : list A) : list A :=
  match l with
  | [] => [x]
  | y :: r => if lt x y then x :: y :: r else y :: insertBy x r
  end.

Definition sortBy (l : list A) : list A :=
  fold_left (fun acc x => insertBy x acc) l [].
End Sort.

Definition optZlt (a b : option Z) : bool :=
  match a, b with
  | Some x, Some y => (x <? y)%Z
  | _, _ => false
  end.

Definition optQlt (a b : option Q) : bool :=
  match a, b with
  | Some x, Some y => negb (Qle_bool y x)
  | _, _ => false
  end.

(** ** index.ts: grouping *)

(** The loop that maps the cluster labels back to the full frame set:
    [labels[originalIndices[i]] = clusterLabels[i]] for every
    [i < clusterLabels.length].  Past the end of [originalIndices] the index
    is [undefined] and the assignment does not touch the array elements. *)
Fixpoint remapFrom (originalIndices : list nat) (clusterLabels labels : list label)
  : list label :=
  match clusterLabels, originalIndices with
  | c :: cl, o :: orig => remapFrom orig cl (jsSet labels o c)
  | _, _ => labels
  end.

Definition remapLabels (nFrames : nat) (originalIndices : list nat)
           (clusterLabels : list label) : list label :=
  remapFrom originalIndices clusterLabels (repeat NOISE nFrames).

(** [Math.round(Math.sqrt(n / 2))], computed on integers. *)
Definition roundSqrtHalf (n : nat) : Z := ((Z.sqrt (2 * Z.of_nat n) + 1) / 2)%Z.

(** [Math.max(1, Math.min(Math.round(Math.sqrt(n / 2)), 50))]. *)
Definition autoK (n : nat) : Z := Z.max 1 (Z.min (roundSqrtHalf n) 50).

(** [clusterMap]: the frame indices of each label, labels in the order of
    their first occurrence. *)
Definition pushIndex (clusterMap : list (label * list nat)) (l : label) (i : nat)
  : list (label * list nat) :=
  let m := if JsMap.has labelEqb clusterMap l then clusterMap
           else JsMap.set labelEqb clusterMap l [] in
  match JsMap.get labelEqb m l with
  | Some indices => JsMap.set labelEqb m l (indices ++ [i])
  | None => m
  end.

Fixpoint groupFrom (i : nat) (labels : list label) (clusterMap : list (label * list nat))
  : list (label * list nat) :=
  match labels with
  | [] => clusterMap
  | l :: r => groupFrom (S i) r (pushIndex clusterMap l i)
  end.

Definition groupByLabel (labels : list label) : list (label * list nat) :=
  groupFrom 0 labels [].

Record Cluster : Type := {
  clusterLabel : label;          (* label *)
  indices : list nat;
  avgFrame : option Q
}.

(** [frames[i]]: the [undefined] of an index past the end makes the path
    function it is passed to throw. *)
Definition frameAt (frames : list string) (i : nat) : result string :=
  match nth_error frames i with
  | Some f => Ok f
  | None => Err TypeError
  end.

(** [sum + getFrameNumber(...)]: NaN absorbs. *)
Definition addNumber (sum n : option Z) : option Z :=
  match sum, n with
  | Some a, Some b => Some (a + b)%Z
  | _, _ => None
  end.

Definition averageFrame (frames : list string) (indices : list nat) : result (option Q) :=
  nums <- mapM (fun i => f <- frameAt frames i ;; Ok (getFrameNumber f)) indices ;;
  Ok (option_map (fun s => (inject_Z s / inject_Z (Z.of_nat (List.length indices)))%Q)
                 (fold_left addNumber nums (Some 0%Z))).

Definition sortClusters (frames : list string) (clusterMap : list (label * list nat))
  : result (list Cluster) :=
  cs <- mapM (fun e : label * list nat =>
                avg <- averageFrame frames (snd e) ;;
                Ok {| clusterLabel := fst e; indices := snd e; avgFrame := avg |})
             clusterMap ;;
  Ok (sortBy (fun a b => optQlt (avgFrame a) (avgFrame b)) cs).

(** ** index.ts: the orchestrator *)

Section Pipeline.
Context {num : Type} {N : JsNumber num} {L : ClusterLib num}.

Record VideoAnalyzerOptions : Type := {
  videoPath : string;
  nClusters : option Z;
  dbscanEps : option num;
  lang : option string;
  workers : option Z
}.

Record VideoAnalyzerResult : Type := {
  resultVideoPath : string;      (* videoPath *)
  outputDir : string;
  fps : num;
  totalFrames : nat;
  groups : list GroupInfo;
  representativeFramePaths : list string
}.

(** What a run observes of its environment.  Each field is the value the
    named call resolves to; a run in which the decoder, the hash or the
    file system fails rejects before it produces anything and is not
    described.  [mkdir], [saveCache] and [copyFile] only write to the file
    system and contribute nothing to the result. *)
Record World : Type := {
  pathResolve : string -> string;
  workspaceRoot : string;                                  (* WORKSPACE_ROOT *)
  getVideoFps : string -> num;
  hashFile : string -> string;
  loadCache : string -> option CachedOcr;
  extractFrames : string -> string -> list string;
  tesseract : string -> string -> option string
}.

Definition getCacheDir (w : World) (videoHash : string) : string :=
  Path.join (Path.join (workspaceRoot w) "video-cache") videoHash.

(** Step 3: one label per frame. *)
Definition computeLabels (options : VideoAnalyzerOptions)
           (frames texts : list string) : list label :=
  let r := buildTfidfMatrix texts in
  if List.length (matrix r) =? 0
  then repeat (Some 0%Z) (List.length frames)
  else
    match dbscanEps options with
    | Some eps =>
        remapLabels (List.length frames) (originalIndices r)
                    (clusterDBSCAN (matrix r) eps 2)
    | None =>
        match nClusters options with
        | Some k =>
            let effectiveClusters := Z.min k (Z.of_nat (List.length (matrix r))) in
            remapLabels (List.length frames) (originalIndices r)
                        (clusterKMeans (matrix r) effectiveClusters)
        | None =>
            remapLabels (List.length frames) (originalIndices r)
                        (clusterKMeans (matrix r) (autoK (List.length (matrix r))))
        end
    end.

(** [indices.map((i) => texts[i])]; [None] when some read is past the end
    of [texts] and yields [undefined]. *)
Fixpoint textsAt (texts : list string) (indices : list nat) : option (list string) :=
  match indices with
  | [] => Some []
  | i :: r =>
      match nth_error texts i, textsAt texts r with
      | Some t, Some ts => Some (t :: ts)
      | _, _ => None
      end
  end.

(** The call of [selectRepresentative] in the group loop.  With an
    [undefined] among the texts a single frame is still returned before the
    texts are looked at, and [undefined.trim()] throws otherwise. *)
Definition selectGroupRepresentative (groupFramePaths : list string)
           (groupTexts : option (list string)) : result string :=
  match groupTexts with
  | Some ts => selectRepresentative groupFramePaths ts
  | None =>
      match groupFramePaths with
      | [] => Err EmptyGroupError
      | [p] => Ok p
      | _ => Err TypeError
      end
  end.

Definition frameTimestampOf (frame : string) : FrameTimestamp :=
  let frameNum := getFrameNumber frame in
  {| frameNumber := frameNum;
     timestamp := frameNumberToTimestamp frameNum;
     fileName := Path.basename frame "" |}.

(** The body of the group loop for the cluster at position [gi]. *)
Definition makeGroup (representativeDir : string) (frames texts : list string)
           (gi : nat) (c : Cluster) : result GroupInfo :=
  let groupIndex := gi + 1 in
  let displayName := ("Group " ++ Js.ofNat groupIndex)%string in
  let groupName := ("group_" ++ Js.padStart0 2 (Js.ofNat groupIndex))%string in
  groupFramePaths <- mapM (frameAt frames) (indices c) ;;
  representative <- selectGroupRepresentative groupFramePaths (textsAt texts (indices c)) ;;
  let ext := Path.extname representative in
  let reprDest := Path.join representativeDir (groupName ++ ext) in
  let frameTimestamps :=
    sortBy (fun a b => optZlt (frameNumber a) (frameNumber b))
           (map frameTimestampOf groupFramePaths) in
  Ok {| groupIndex := groupIndex;
        groupName := displayName;
        representativeFrame := reprDest;
        frameCount := List.length (indices c);
        timeRange :=
          {| rangeStart := match hd_error frameTimestamps with
                           | Some t => timestamp t
                           | None => "00:00"
                           end;
             rangeEnd := match hd_error (rev frameTimestamps) with
                         | Some t => timestamp t
                         | None => "00:00"
                         end |};
        frames := frameTimestamps |}.

Fixpoint makeGroups (representativeDir : string) (frames texts : list string)
         (gi : nat) (sortedClusters : list Cluster) : result (list GroupInfo) :=
  match sortedClusters with
  | [] => Ok []
  | c :: r =>
      g <- makeGroup representativeDir frames texts gi c ;;
      gs <- makeGroups representativeDir frames texts (S gi) r ;;
      Ok (g :: gs)
  end.

(** Steps 3 and 4 of [analyzeVideo], from the frames and their texts on. *)
Definition clusterAndGroup (options : VideoAnalyzerOptions)
           (resolvedVideoPath outDir : string) (videoFps : num)
           (frames texts : list string) : result VideoAnalyzerResult :=
  let labels := computeLabels options frames texts in
  let clusterMap := groupByLabel labels in
  sortedClusters <- sortClusters frames clusterMap ;;
  let representativeDir := Path.join outDir "representative_frames" in
  gs <- makeGroups representativeDir frames texts 0 sortedClusters ;;
  Ok {| resultVideoPath := resolvedVideoPath;
        outputDir := outDir;
        fps := videoFps;
        totalFrames := List.length frames;
        groups := gs;
        representativeFramePaths := map representativeFrame gs |}.

Definition analyzeVideo (w : World) (options : VideoAnalyzerOptions)
  : result VideoAnalyzerResult :=
  let ocrLang := match lang options with Some l => l | None => "eng" end in
  let nWorkers := match workers options with Some n => n | None => 8%Z end in
  let resolvedVideoPath := pathResolve w (videoPath options) in
  let videoName := Path.basename resolvedVideoPath (Path.extname resolvedVideoPath) in
  let outDir := Path.join (Path.dirname resolvedVideoPath) videoName in
  let videoFps := getVideoFps w resolvedVideoPath in
  let videoHash := hashFile w resolvedVideoPath in
  match loadCache w videoHash with
  | Some cached =>
      clusterAndGroup options resolvedVideoPath outDir videoFps
                      (cachedFrames cached) (cachedTexts cached)
  | None =>
      let frames := extractFrames w resolvedVideoPath (getCacheDir w videoHash) in
      if List.length frames =? 0
      then Ok {| resultVideoPath := resolvedVideoPath;
                 outputDir := outDir;
                 fps := videoFps;
                 totalFrames := 0;
                 groups := [];
                 representativeFramePaths := [] |}
      else
        let ocrResults := Ocr.ocrAllFrames (tesseract w) frames ocrLang nWorkers in
        let texts :=
          map (fun f => match JsMap.get String.eqb ocrResults f with
                        | Some t => t
                        | None => ""
                        end) frames in
        clusterAndGroup options resolvedVideoPath outDir videoFps frames texts
  end.
End Pipeline.

Arguments VideoAnalyzerOptions num : clear implicits.
Arguments VideoAnalyzerResult num : clear implicits.
Arguments World num : clear implicits.

(** ** Real arithmetic as an instance of [JsNumber]

    The idealization of double arithmetic in which the laws of an ordered
    field hold exactly. *)

#[export] Instance RNumber : JsNumber R := {|
  nOfNat := INR;
  nAdd := Rplus;
  nSub := Rminus;
  nMul := Rmult;
  nDiv := Rdiv;
  nLog := ln;
  nSqrt := sqrt;
  nGtb := fun x y => if Rlt_dec y x then true else false;
  nEqb := fun x y => if Req_dec_T x y then true else false
|}.

(** ** Double arithmetic as an instance of [JsNumber]

    The numbers of the source are IEEE 754 doubles: the binary64 floats of
    the kernel, with their operations rounded to nearest.  [Math.log] is a
    function of the platform and not of the repository: it is a parameter
    of the instance. *)

Module Double.
Import Floats.

(** An integer count as a double; the conversion is exact below [2^53]. *)
Definition ofNat (n : nat) : float :=
  PrimFloat.of_uint63 (Uint63.of_Z (Z.of_nat n)).

Definition number (mathLog : float -> float) : JsNumber float := {|
  nOfNat := ofNat;
  nAdd := PrimFloat.add;
  nSub := PrimFloat.sub;
  nMul := PrimFloat.mul;
  nDiv := PrimFloat.div;
  nLog := mathLog;
  nSqrt := PrimFloat.sqrt;
  nGtb := fun x y => PrimFloat.ltb y x;
  nEqb := PrimFloat.eqb
|}.

(** The doubles above [-Infinity]: every double but NaN and [-Infinity].
    These are the values [sim] for which the first test
    [sim > bestSimilarity] of the search loop succeeds. *)
Definition ordinary (x : float) : Prop :=
  PrimFloat.ltb PrimFloat.neg_infinity x = true.

(** The place of a double that is not NaN in the order of the doubles:
    the sign class first, then the exponent, then the mantissa. *)
Definition rank (x : spec_float) : Z * Z * Z :=
  match x with
  | S754_nan => (0, 0, 0)
  | S754_infinity true => (-2, 0, 0)
  | S754_infinity false => (2, 0, 0)
  | S754_zero _ => (0, 0, 0)
  | S754_finite true m e => (-1, - e, Z.neg m)
  | S754_finite false m e => (1, e, Z.pos m)
  end%Z.

Definition below (a b : Z * Z * Z) : Prop :=
  let '(a1, a2, a3) := a in
  let '(b1, b2, b3) := b in
  (a1 < b1 \/ (a1 = b1 /\ (a2 < b2 \/ (a2 = b2 /\ a3 < b3))))%Z.

(** [Math.log] at the two arguments that the vectors of the texts
    ["alpha"] and ["beta gamma delta"] ask for: [Math.log(1)] is [+0], and
    [Math.log(1.5)] is [0.4054651081081644], the double nearest to the
    logarithm.  No other argument occurs in that run; [NaN] stands for the
    values that are not listed. *)
Definition logOfTwoTexts (x : float) : float :=
  if PrimFloat.eqb x 1 then 0%float
  else if PrimFloat.eqb x 1.5 then 0x1.9f323ecbf984cp-2%float
  else PrimFloat.nan.
End Double.

(** ** Notions used to state the properties *)

(** Document frequency: the number of documents in which a term occurs. *)
Definition docFreq (docs : list (list string)) (t : string) : nat :=
  List.length (filter (fun d => JsMap.member String.eqb d t) docs).

(** The number of occurrences of a term in one document. *)
Definition termCount (tokens : list string) (t : string) : nat :=
  count_occ string_dec tokens t.

(** The tokenized documents [buildTfidfMatrix] works on. *)
Definition tokenizedDocsOf (texts : list string) : list (list string) :=
  map tokenize (snd (nonEmptyFrom 0 texts)).

(** The retention rule for a term of document frequency [df] among [nDocs]
    documents; [20 * df <= 19 * nDocs] says [df <= floor(0.95 * nDocs)]. *)
Definition retained (nDocs df : nat) : Prop :=
  1 <= df /\ (nDocs <= 1 \/ 20 * df <= 19 * nDocs).

(** [vocabIndex] maps every term of [vocabulary] to its position. *)
Definition indexed (vocabIndex : list (string * nat)) (vocab : list string) : Prop :=
  NoDup vocab /\
  forall t j, JsMap.get String.eqb vocabIndex t = Some j <-> nth_error vocab j = Some t.

(** The row of one tokenized document. *)
Definition rowOf {num : Type} {N : JsNumber num}
           (docs : list (list string)) (tokens : list string) : list num :=
  let nDocs := List.length docs in
  let dfCounts := documentFrequencies docs in
  let vocab := buildVocabulary nDocs dfCounts in
  normalizeRow (rawRow nDocs dfCounts (fst vocab) (List.length (snd vocab))
                       (termFrequencies (fst vocab) tokens)).

(** The weight of term [t] in the document [tokens] among [docs], in the
    arithmetic of [num]:
    [(1 + log count) * (log ((1 + nDocs) / (1 + df)) + 1)] when the term
    occurs in the document, zero otherwise. *)
Definition weightIn {num : Type} {N : JsNumber num}
           (docs : list (list string)) (tokens : list string) (t : string) : num :=
  if termCount tokens t =? 0 then nOfNat 0
  else nMul (nAdd (nOfNat 1) (nLog (nOfNat (termCount tokens t))))
            (nAdd (nLog (nDiv (nOfNat (1 + List.length docs))
                              (nOfNat (1 + docFreq docs t))))
                  (nOfNat 1)).

(** A row divided by the square root of the sum of its squares when that
    root is positive, left as it is otherwise. *)
Definition normalizedIn {num : Type} {N : JsNumber num} (raw : list num) : list num :=
  let norm := nSqrt (fold_left (fun sum v => nAdd sum (nMul v v)) raw (nOfNat 0)) in
  if nGtb norm (nOfNat 0) then map (fun v => nDiv v norm) raw else raw.

(** The mean of the entries at position [j] of the rows of a matrix. *)
Definition columnMean (m : list (list R)) (j : nat) : R :=
  (fold_right (fun row s => nth j row 0 + s) 0 m / INR (List.length m))%R.

(** The sum of the squares of a row and its Euclidean norm. *)
Definition sumSquares (row : list R) : R :=
  fold_right (fun v s => v * v + s)%R 0%R row.

Definition euclideanNorm (row : list R) : R := sqrt (sumSquares row).

(** The weight of term [t] in the document [tokens] among [docs]:
    [(1 + ln count) * (ln ((1 + nDocs) / (1 + df)) + 1)] when the term
    occurs, zero otherwise. *)
Definition expectedWeight (docs : list (list string)) (tokens : list string)
           (t : string) : R :=
  if termCount tokens t =? 0 then 0%R
  else ((1 + ln (INR (termCount tokens t)))
        * (ln (INR (1 + List.length docs) / INR (1 + docFreq docs t)) + 1))%R.


(** [texts[i].trim().length > 0]. *)
Definition hasText (t : string) : bool := 0 <? String.length (Js.trim t).

(** The comparison [>] on numbers that are not NaN: a strict weak order. *)
Class StrictWeakOrder (num : Type) (N : JsNumber num) : Prop := {
  gt_irrefl : forall x, nGtb x x = false;
  gt_trans : forall x y z, nGtb x y = true -> nGtb y z = true -> nGtb x z = true;
  gt_negtrans : forall x y z, nGtb x y = false -> nGtb y z = false -> nGtb x z = false
}.
Arguments StrictWeakOrder num N : clear implicits.

(** The similarity of row [k] of a matrix to the centroid of the matrix. *)
Definition similarityToCentroid {num : Type} {N : JsNumber num}
           (m : list (list num)) (k : nat) : num :=
  cosineSimilarity (nth k m [])
                   (centroidOf m (List.length (nth 0 m []))).

(** The comparison [>] among the numbers that satisfy [ordinary]: a strict
    weak order.  Among doubles the ordinary numbers are those above
    [-Infinity], which leaves out NaN. *)
Class OrderedOn (num : Type) (N : JsNumber num) (ordinary : num -> Prop) : Prop := {
  on_irrefl : forall x, ordinary x -> nGtb x x = false;
  on_trans : forall x y z, ordinary x -> ordinary y -> ordinary z ->
             nGtb x y = true -> nGtb y z = true -> nGtb x z = true;
  on_negtrans : forall x y z, ordinary x -> ordinary y -> ordinary z ->
                nGtb x y = false -> nGtb y z = false -> nGtb x z = false
}.
Arguments OrderedOn num N ordinary : clear implicits.

(** The notions of the specification, in the arithmetic of [num]: sums are
    taken from zero, one entry after the other. *)
Section SpecVectors.
Context {num : Type} {N : JsNumber num}.

Definition sumOf (l : list num) : num := fold_left nAdd l (nOfNat 0).

(** The dot product of two vectors and the Euclidean norm of one. *)
Definition dotOf (a b : list num) : num :=
  sumOf (map (fun p => nMul (fst p) (snd p)) (combine a b)).

Definition normOf (a : list num) : num :=
  nSqrt (sumOf (map (fun x => nMul x x) a)).

(** Cosine similarity: the dot product over the product of the norms,
    and zero where that product is zero. *)
Definition cosineOf (a b : list num) : num :=
  if nEqb (nMul (normOf a) (normOf b)) (nOfNat 0) then nOfNat 0
  else nDiv (dotOf a b) (nMul (normOf a) (normOf b)).

(** The centroid of the rows of a matrix: at every dimension the mean of
    the entries of the rows. *)
Definition meanAt (m : list (list num)) (j : nat) : num :=
  nDiv (sumOf (map (fun row => nth j row (nOfNat 0)) m)) (nOfNat (List.length m)).

Definition meanOfRows (m : list (list num)) : list num :=
  map (meanAt m) (seq 0 (List.length (nth 0 m []))).

(** The cosine similarity of row [k] to the centroid of the rows. *)
Definition similarityToMean (m : list (list num)) (k : nat) : num :=
  cosineOf (nth k m []) (meanOfRows m).
End SpecVectors.

(** The positions of the texts that are not empty, in increasing order: row
    [b] of the matrix is the vector of the text at the [b]-th of them. *)
Definition textIndices (texts : list string) : list nat :=
  map fst (filter (fun p => hasText (snd p))
                  (combine (seq 0 (List.length texts)) texts)).

(** The frames held by the suspended calls of a pool. *)
Definition inFlight (p : Ocr.pool) (f : string) : Prop :=
  In (Ocr.Awaiting f) (Ocr.workerStates p).

(** What holds of a pool at every moment of a run over [frames]: the frames
    are those recorded, in flight or queued; every recorded text is the OCR
    text of its frame; and while the queue is not empty some call is
    suspended. *)
Definition poolInvariant (tesseract : string -> string -> option string)
           (frames : list string) (lang : string) (p : Ocr.pool) : Prop :=
  (forall f, In f frames <->
             In f (JsMap.keys (Ocr.results p)) \/ inFlight p f \/ In f (Ocr.queue p))
  /\ (forall f v, JsMap.get String.eqb (Ocr.results p) f = Some v ->
                  v = Ocr.ocrFrame tesseract f lang)
  /\ NoDup (JsMap.keys (Ocr.results p))
  /\ (Ocr.queue p <> [] -> exists f, inFlight p f).

(** The part of the invariant that holds before any call is launched. *)
Definition recorded (tesseract : string -> string -> option string)
           (frames : list string) (lang : string) (p : Ocr.pool) : Prop :=
  (forall f, In f frames <->
             In f (JsMap.keys (Ocr.results p)) \/ inFlight p f \/ In f (Ocr.queue p))
  /\ (forall f v, JsMap.get String.eqb (Ocr.results p) f = Some v ->
                  v = Ocr.ocrFrame tesseract f lang)
  /\ NoDup (JsMap.keys (Ocr.results p)).

(** The number of frames that are not recorded yet. *)
Definition pending (p : Ocr.pool) : nat :=
  List.length (filter (fun w => negb (Ocr.isReturned w)) (Ocr.workerStates p))
  + List.length (Ocr.queue p).

(** ** The frames and the texts of a run *)

Section RunData.
Context {num : Type} {N : JsNumber num}.

Definition videoHashOf (w : World num) (options : VideoAnalyzerOptions num) : string :=
  hashFile w (pathResolve w (videoPath options)).

(** The frames a run works on: those of the cache record, or those the
    decoder extracted. *)
Definition sampledFrames (w : World num) (options : VideoAnalyzerOptions num)
  : list string :=
  match loadCache w (videoHashOf w options) with
  | Some cached => cachedFrames cached
  | None => extractFrames w (pathResolve w (videoPath options))
                          (getCacheDir w (videoHashOf w options))
  end.

(** Their texts: those of the cache record, or those of the OCR stage. *)
Definition frameTexts (w : World num) (options : VideoAnalyzerOptions num)
  : list string :=
  match loadCache w (videoHashOf w options) with
  | Some cached => cachedTexts cached
  | None =>
      let ocrResults :=
        Ocr.ocrAllFrames (tesseract w) (sampledFrames w options)
                         (match lang options with Some l => l | None => "eng" end)
                         (match workers options with Some n => n | None => 8%Z end) in
      map (fun f => match JsMap.get String.eqb ocrResults f with
                    | Some t => t
                    | None => ""
                    end) (sampledFrames w options)
  end.

(** A cache record is index-aligned when it holds one text per frame, as
    every record written by [saveCache] does. *)
Definition cacheAligned (w : World num) (options : VideoAnalyzerOptions num) : Prop :=
  match loadCache w (videoHashOf w options) with
  | Some cached => List.length (cachedTexts cached) = List.length (cachedFrames cached)
  | None => True
  end.
End RunData.

(** [k] is the integer [Math.round] gives for the real number [x]. *)
Definition roundsTo (x : R) (k : Z) : Prop :=
  (IZR k - 1 / 2 <= x < IZR k + 1 / 2)%R.

(** ** Notions about the groups *)

(** [pushIndex], entry by entry. *)
Fixpoint appendIndex (m : list (label * list nat)) (l : label) (i : nat)
  : list (label * list nat) :=
  match m with
  | [] => [(l, [i])]
  | (l', xs) :: r =>
      if labelEqb l' l then (l, xs ++ [i]) :: r else (l', xs) :: appendIndex r l i
  end.

(** Frame [k] carries the label [l]. *)
Definition labelIs (labels : list label) (l : label) (k : nat) : bool :=
  match nth_error labels k with
  | Some l' => labelEqb l' l
  | None => false
  end.

(** The frame indices that carry the label [l], in increasing order. *)
Definition labelClass (labels : list label) (l : label) : list nat :=
  filter (labelIs labels l) (seq 0 (List.length labels)).

(** The output group [g] lists the frames at the indices [idxs]. *)
Definition groupMembers (fs : list string) (idxs : list nat) (g : GroupInfo) : Prop :=
  frameCount g = List.length idxs
  /\ Permutation (frames g) (map (fun i => frameTimestampOf (nth i fs "")) idxs).

(** The groups are, in their order, the classes of the labels [ls]: one group
    for every label that occurs, and the classes cover the frame indices. *)
Definition groupsByLabel (fs : list string) (labels : list label)
           (gs : list GroupInfo) : Prop :=
  exists ls,
    NoDup ls
    /\ (forall l, In l ls <-> In l labels)
    /\ Forall2 (fun l g => groupMembers fs (labelClass labels l) g) ls gs
    /\ Permutation (flat_map (labelClass labels) ls) (seq 0 (List.length fs)).

(** The labels of the frames of a run. *)
Definition runLabels {num : Type} {N : JsNumber num} {L : ClusterLib num}
           (w : World num) (options : VideoAnalyzerOptions num) : list label :=
  computeLabels options (sampledFrames w options) (frameTexts w options).

(** ** Notions about timestamps *)

Definition digitChar (d : Z) : ascii := ascii_of_nat (48 + Z.to_nat d).

(** A number below 100 written with exactly two decimal digits. *)
Definition twoDigits (z : Z) : string :=
  String (digitChar (z / 10)) (String (digitChar (z mod 10)) EmptyString).

(** [mi] minutes and [t] tenths of a second written as [MM:SS.S]. *)
Definition minutesSeconds (mi t : Z) : string :=
  (twoDigits mi ++ ":" ++ twoDigits (t / 10) ++ "."
   ++ String (digitChar (t mod 10)) EmptyString)%string.

(** ** The statements about noise frames and frames without text, as they
    are made of the pipeline *)

Section Statements.
Context {num : Type} {N : JsNumber num} {L : ClusterLib num}.

(** Group [g] lists the frame [f]. *)
Definition listsFrame (g : GroupInfo) (f : string) : Prop :=
  In (Path.basename f "") (map fileName (frames g)).

(** "Under density clustering no output group contains a frame that the
    clustering labels -1." *)
Definition noiseDiscarded (w : World num) (options : VideoAnalyzerOptions num) : Prop :=
  forall eps r,
    dbscanEps options = Some eps ->
    analyzeVideo w options = Ok r ->
    let tf := buildTfidfMatrix (num := num) (frameTexts w options) in
    forall j i f,
      nth_error (clusterDBSCAN (matrix tf) eps 2) j = Some NOISE ->
      nth_error (originalIndices tf) j = Some i ->
      nth_error (sampledFrames w options) i = Some f ->
      forall g, In g (groups r) -> ~ listsFrame g f.

(** "A frame whose text is empty appears in no output group." *)
Definition emptyTextUngrouped (w : World num) (options : VideoAnalyzerOptions num) : Prop :=
  forall r,
    analyzeVideo w options = Ok r ->
    forall i f t,
      nth_error (sampledFrames w options) i = Some f ->
      nth_error (frameTexts w options) i = Some t ->
      hasText t = false ->
      forall g, In g (groups r) -> ~ listsFrame g f.
End Statements.

(** ** Two runs on two frames

    Both runs find no cache record and extract the two frames
    [frame_000001.jpg] and [frame_000002.jpg].

    In the first, the OCR texts are ["alpha"] and ["beta"] and the caller
    asks for DBSCAN with [eps = 1/2].  The two rows of the matrix have no
    term in common, so their cosine distance is 1: each point has only
    itself within [eps], fewer than [minSamples = 2] points, and
    density-clustering reports no cluster.

    In the second, the OCR text of the first frame is empty, that of the
    second is ["hello world"], and the caller gives no clustering option;
    with a single vector [clusterKMeans] does not call the package. *)

Definition twoFrames : list string :=
  ["/workspace/video-cache/abc/frames/frame_000001.jpg";
   "/workspace/video-cache/abc/frames/frame_000002.jpg"].

(** The outcome of the clustering packages in these runs: DBSCAN finds no
    cluster; K-means, which neither run reaches, is given one cluster. *)
#[export] Instance noClusterFound : ClusterLib R := {|
  kmeans := fun m _ => repeat 0%Z (List.length m);
  dbscanRun := fun _ _ _ _ => []
|}.

Definition twoFrameWorld (text1 text2 : string) : World R := {|
  pathResolve := fun p => p;
  workspaceRoot := "/workspace";
  getVideoFps := fun _ => 30%R;
  hashFile := fun _ => "abc";
  loadCache := fun _ => None;
  extractFrames := fun _ _ => twoFrames;
  tesseract := fun f _ =>
    if String.eqb f "/workspace/video-cache/abc/frames/frame_000001.jpg"
    then Some text1 else Some text2
|}.

Definition dbscanOptions : VideoAnalyzerOptions R := {|
  videoPath := "/videos/talk.mp4";
  nClusters := None;
  dbscanEps := Some (1 / 2)%R;
  lang := None;
  workers := None
|}.

Definition defaultOptions : VideoAnalyzerOptions R := {|
  videoPath := "/videos/talk.mp4";
  nClusters := None;
  dbscanEps := None;
  lang := None;
  workers := None
|}.

(** A run that finds neither a cache record nor a frame. *)
Definition noFrameWorld : World R := {|
  pathResolve := fun p => p;
  workspaceRoot := "/workspace";
  getVideoFps := fun _ => 30%R;
  hashFile := fun _ => "abc";
  loadCache := fun _ => None;
  extractFrames := fun _ _ => [];
  tesseract := fun _ _ => None
|}.

(** ** Notions about tokens *)

(** Every character of [s] satisfies [p]. *)
Fixpoint allChars (p : ascii -> bool) (s : string) : bool :=
  match s with
  | EmptyString => true
  | String c r => p c && allChars p r
  end.

(** The characters the tokenizer keeps: [a-z] and [0-9]. *)
Definition isAlnum (c : ascii) : bool := Js.isLowerAlpha c || Js.isDigit c.

(** A word: a non-empty string over [a-z0-9] that is no stop word. *)
Definition isWord (w : string) : Prop :=
  w <> "" /\ allChars isAlnum w = true /\ isStopWord w = false.

(** ** Notions about vectors *)

(** The dot product of [a] with the entries of [b] at the positions of [a]. *)
Fixpoint dotProduct (a b : list R) : R :=
  match a, b with
  | x :: a', y :: b' => (x * y + dotProduct a' b')%R
  | _, _ => 0%R
  end.

(** ** Notions about cluster labels *)

(** The label the conversion loop of [clusterDBSCAN] leaves for point [j]:
    the index of the last cluster that lists it, counted from [clusterIdx],
    and [dflt] when no cluster lists it. *)
Fixpoint lastClusterOf (clusterIdx : nat) (clusters : list (list nat)) (j : nat)
         (dflt : label) : label :=
  match clusters with
  | [] => dflt
  | c :: r =>
      lastClusterOf (S clusterIdx) r j
                    (if existsb (Nat.eqb j) c then Some (Z.of_nat clusterIdx) else dflt)
  end.

(** ** Notions about the worker pool *)

(** The number of [processNext] calls that are suspended at their [await]:
    the OCR processes that run at that moment. *)
Definition inFlightCount (p : Ocr.pool) : nat :=
  List.length (filter (fun w => negb (Ocr.isReturned w)) (Ocr.workerStates p)).

(** ** frameExtractor.ts: the frame files *)

Module FrameExtractor.

(** [f.startsWith("frame_") && f.endsWith(".jpg")]. *)
Definition isFrameFile (f : string) : bool :=
  Js.startsWith "frame_" f && Path.endsWith f ".jpg".

(** [extractFrames] once ffmpeg has written the frame files: [readdir] is the
    listing of a directory.  [files.sort()] without a comparator orders the
    names by their code units. *)
Definition extractFrames (readdir : string -> list string)
           (videoPath outputDir : string) : list string :=
  let framesDir := Path.join outputDir "frames" in
  let files := readdir framesDir in
  map (fun f => Path.join framesDir f)
      (sortBy String.ltb (filter isFrameFile files)).

End FrameExtractor.

(** The name of frame [n] under the pattern [frame_%06d.jpg] that
    [extractFrames] hands to ffmpeg: at least six digits, zeros in front. *)
Definition frameFileName (n : Z) : string :=
  ("frame_" ++ Js.padStart0 6 (Js.ofZ n) ++ ".jpg")%string.

(** The number a string of decimal digits denotes, by Horner's rule. *)
Fixpoint decimalValue (s : string) (acc : Z) : Z :=
  match s with
  | EmptyString => acc
  | String c r => decimalValue r (10 * acc + Z.of_nat (nat_of_ascii c - 48))%Z
  end.

(** No character of [s] is a slash. *)
Definition noSlash (s : string) : bool :=
  allChars (fun c => negb (Path.isSlash c)) s.

(** ** Notions about the output groups *)

(** Frame [a] has a number, frame [b] has one, and the first is not above
    the second. *)
Definition frameNumberLe (a b : FrameTimestamp) : Prop :=
  match frameNumber a, frameNumber b with
  | Some x, Some y => (x <= y)%Z
  | _, _ => False
  end.




(** ** A run on a cache record that has lost its texts *)

Definition staleCacheWorld : World R := {|
  pathResolve := fun p => p;
  workspaceRoot := "/workspace";
  getVideoFps := fun _ => 30%R;
  hashFile := fun _ => "abc";
  loadCache := fun _ => Some {| cachedFrames := twoFrames; cachedTexts := [] |};
  extractFrames := fun _ _ => [];
  tesseract := fun _ _ => None
|}.

(** ** routes/videoAnalyzer.ts: the stored result and the lookup of a group *)

Module VideoRoute.

(** An entry of [videoResult.groups], as the upload route stores it. *)
Record GroupSummary : Type := {
  summaryGroupIndex : nat;                  (* groupIndex *)
  summaryFrameCount : nat;                  (* frameCount *)
  summaryRepresentativeFrame : string;      (* representativeFrame *)
  summaryTimeRange : TimeRange;             (* timeRange *)
  frameNumbers : list (option Z)
}.

(** The body of [result.groups.map((g) => ({ ... }))]. *)
Definition summarize (g : GroupInfo) : GroupSummary := {|
  summaryGroupIndex := groupIndex g;
  summaryFrameCount := frameCount g;
  summaryRepresentativeFrame := representativeFrame g;
  summaryTimeRange := timeRange g;
  frameNumbers := map frameNumber (frames g)
|}.

(** [groups.find((g) => g.groupIndex === idx)] for
    [idx = parseInt(groupIndex, 10)]; a NaN equals no index. *)
Definition findGroup (stored : list GroupSummary) (groupIndexParam : string)
  : option GroupSummary :=
  let idx := parseInt groupIndexParam in
  find (fun g => match idx with
                 | Some z => (Z.of_nat (summaryGroupIndex g) =? z)%Z
                 | None => false
                 end) stored.

End VideoRoute.

(** ** Runs and inputs on which the properties are instantiated *)

(** A listing of the frames directory: two frame files, out of order, and a
    file that is none. *)
Definition sampleListing (dir : string) : list string :=
  ["frame_000002.jpg"; "notes.txt"; "frame_000001.jpg"].

(** DBSCAN finds one cluster that holds both points, as it does for two
    equal rows, which are at distance zero. *)
Definition oneClusterFound : ClusterLib R := {|
  kmeans := fun m _ => repeat 0%Z (List.length m);
  dbscanRun := fun _ _ _ _ => [[0; 1]]
|}.

(* ================================================================== *)
(** * Properties *)
(* ================================================================== *)

(** ** Maps and sets *)

Section MapFacts.
Variables (K V : Type) (keq : K -> K -> bool).
Hypothesis keq_eq : forall a b, keq a b = true <-> a = b.

Lemma keq_refl a : keq a a = true.
Proof. now apply keq_eq. Qed.

Lemma keq_false a b : a <> b -> keq a b = false.
Proof.
  intro Hab. destruct (keq a b) eqn:E; [|reflexivity].
  apply keq_eq in E. contradiction.
Qed.

Lemma get_set_same (m : list (K * V)) k v :
  JsMap.get keq (JsMap.set keq m k v) k = Some v.
Proof.
  induction m as [|[k' v'] m IH]; simpl.
  - now rewrite keq_refl.
  - destruct (keq k' k) eqn:E; simpl.
    + now rewrite keq_refl.
    + now rewrite E.
Qed.

Lemma get_set_other (m : list (K * V)) k k' v :
  k <> k' -> JsMap.get keq (JsMap.set keq m k v) k' = JsMap.get keq m k'.
Proof.
  intro Hne. induction m as [|[k0 v0] m IH]; simpl.
  - now rewrite keq_false.
  - destruct (keq k0 k) eqn:E; simpl.
    + apply keq_eq in E. subst k0. now rewrite keq_false.
    + destruct (keq k0 k'); auto.
Qed.

Lemma get_none_iff (m : list (K * V)) k :
  JsMap.get keq m k = None <-> ~ In k (JsMap.keys m).
Proof.
  induction m as [|[k' v'] m IH]; simpl.
  - tauto.
  - destruct (keq k' k) eqn:E.
    + apply keq_eq in E. subst. split; [discriminate | intros H; exfalso; auto].
    + rewrite IH. split.
      * intros H [H1|H1]; [|auto]. subst. rewrite keq_refl in E. discriminate.
      * tauto.
Qed.

Lemma has_iff (m : list (K * V)) k :
  JsMap.has keq m k = true <-> In k (JsMap.keys m).
Proof.
  unfold JsMap.has. destruct (JsMap.get keq m k) eqn:E.
  - split; [intros _|reflexivity].
    destruct (in_dec (fun a b => match bool_dec (keq a b) true with
                                 | left H => left (proj1 (keq_eq a b) H)
                                 | right H => right (fun e => H (proj2 (keq_eq a b) e))
                                 end) k (JsMap.keys m)) as [Hin|Hnin]; [assumption|].
    apply get_none_iff in Hnin. congruence.
  - split; [discriminate|]. intro Hin. apply get_none_iff in E. contradiction.
Qed.

Lemma keys_set (m : list (K * V)) k v :
  JsMap.keys (JsMap.set keq m k v) =
  if JsMap.has keq m k then JsMap.keys m else JsMap.keys m ++ [k].
Proof.
  unfold JsMap.has. induction m as [|[k' v'] m IH]; simpl.
  - reflexivity.
  - destruct (keq k' k) eqn:E; simpl.
    + apply keq_eq in E. now subst.
    + rewrite IH. now destruct (JsMap.get keq m k).
Qed.

Lemma get_in (m : list (K * V)) k v :
  JsMap.get keq m k = Some v -> In (k, v) m.
Proof.
  induction m as [|[k' v'] m IH]; simpl; [discriminate|].
  destruct (keq k' k) eqn:E.
  - apply keq_eq in E. intros [= ->]. subst. now left.
  - intro H. right. auto.
Qed.

Lemma in_get (m : list (K * V)) k v :
  NoDup (JsMap.keys m) -> In (k, v) m -> JsMap.get keq m k = Some v.
Proof.
  induction m as [|[k' v'] m IH]; simpl; [tauto|].
  intros Hnd [H|H].
  - injection H as -> ->. now rewrite keq_refl.
  - inversion Hnd as [|? ? Hnin Hnd']; subst.
    destruct (keq k' k) eqn:E.
    + apply keq_eq in E. subst. exfalso. apply Hnin.
      change k with (fst (k, v)). now apply in_map.
    + auto.
Qed.

Lemma member_iff (s : list K) k : JsMap.member keq s k = true <-> In k s.
Proof.
  unfold JsMap.member. rewrite existsb_exists. split.
  - intros [x [Hin Hx]]. apply keq_eq in Hx. now subst.
  - intro Hin. exists k. split; [assumption|apply keq_refl].
Qed.

Lemma NoDup_snoc (l : list K) k : NoDup l -> ~ In k l -> NoDup (l ++ [k]).
Proof.
  intros Hnd Hnin. induction Hnd as [|x l Hx Hnd IH]; simpl.
  - repeat constructor. simpl. tauto.
  - constructor.
    + rewrite in_app_iff. simpl. intros [H|[H|[]]]; [auto|].
      subst. apply Hnin. now left.
    + apply IH. intro H. apply Hnin. now right.
Qed.

Lemma NoDup_keys_set (m : list (K * V)) k v :
  NoDup (JsMap.keys m) -> NoDup (JsMap.keys (JsMap.set keq m k v)).
Proof.
  intro Hnd. rewrite keys_set. destruct (JsMap.has keq m k) eqn:E; [assumption|].
  apply NoDup_snoc; [assumption|].
  intro Hin. apply has_iff in Hin. congruence.
Qed.

Lemma add_spec (s : list K) k x : In x (JsMap.add keq s k) <-> In x s \/ x = k.
Proof.
  unfold JsMap.add. destruct (JsMap.member keq s k) eqn:E.
  - apply member_iff in E. split; [tauto|]. intros [H| ->]; assumption.
  - rewrite in_app_iff. simpl. intuition.
Qed.

Lemma NoDup_add (s : list K) k : NoDup s -> NoDup (JsMap.add keq s k).
Proof.
  intro Hnd. unfold JsMap.add. destruct (JsMap.member keq s k) eqn:E; [assumption|].
  apply NoDup_snoc; [assumption|].
  intro Hin. apply member_iff in Hin. congruence.
Qed.

Lemma ofList_from_spec (xs s : list K) x :
  In x (fold_left (JsMap.add keq) xs s) <-> In x s \/ In x xs.
Proof.
  revert s. induction xs as [|y xs IH]; simpl; intro s.
  - tauto.
  - rewrite IH, add_spec. intuition.
Qed.

Lemma NoDup_ofList_from (xs s : list K) :
  NoDup s -> NoDup (fold_left (JsMap.add keq) xs s).
Proof.
  revert s. induction xs as [|y xs IH]; simpl; intros s Hnd; [assumption|].
  apply IH. now apply NoDup_add.
Qed.

Lemma ofList_spec (xs : list K) x : In x (JsMap.ofList keq xs) <-> In x xs.
Proof. unfold JsMap.ofList. rewrite ofList_from_spec. simpl. tauto. Qed.

Lemma NoDup_ofList (xs : list K) : NoDup (JsMap.ofList keq xs).
Proof. apply NoDup_ofList_from. constructor. Qed.
End MapFacts.

Arguments keq_refl {K keq} keq_eq a.
Arguments keq_false {K keq} keq_eq [a b] _.
Arguments NoDup_snoc {K} l k _ _.
Arguments get_set_same {K V keq} keq_eq m k v.
Arguments get_set_other {K V keq} keq_eq m [k k'] v _.
Arguments get_none_iff {K V keq} keq_eq m k.
Arguments has_iff {K V keq} keq_eq m k.
Arguments keys_set {K V keq} keq_eq m k v.
Arguments get_in {K V keq} keq_eq m k v _.
Arguments in_get {K V keq} keq_eq m k v _ _.
Arguments member_iff {K keq} keq_eq s k.
Arguments NoDup_keys_set {K V keq} keq_eq m k v _.
Arguments add_spec {K keq} keq_eq s k x.
Arguments NoDup_add {K keq} keq_eq s k _.
Arguments ofList_spec {K keq} keq_eq xs x.
Arguments NoDup_ofList {K keq} keq_eq xs.

Unset Implicit Arguments.

(** ** Document frequencies and the vocabulary *)

Lemma string_eqb_iff (a b : string) : String.eqb a b = true <-> a = b.
Proof. apply String.eqb_eq. Qed.

Lemma getCount_set_same m k v : getCount (JsMap.set String.eqb m k v) k = v.
Proof. unfold getCount. now rewrite (get_set_same string_eqb_iff). Qed.

Lemma getCount_set_other m k k' v :
  k <> k' -> getCount (JsMap.set String.eqb m k v) k' = getCount m k'.
Proof. intro H. unfold getCount. now rewrite (get_set_other string_eqb_iff). Qed.

Lemma getCount_pos_iff m k : 1 <= getCount m k -> In k (JsMap.keys m).
Proof.
  unfold getCount. intro H.
  destruct (JsMap.get String.eqb m k) eqn:E; [|lia].
  apply (has_iff string_eqb_iff). unfold JsMap.has. now rewrite E.
Qed.

(** Counting the distinct tokens of one document. *)
Lemma count_distinct_get (S : list string) m t :
  NoDup S ->
  getCount (fold_left (fun m token => JsMap.set String.eqb m token (getCount m token + 1)) S m) t
  = getCount m t + (if in_dec string_dec t S then 1 else 0).
Proof.
  revert m. induction S as [|s S IH]; simpl; intros m Hnd.
  - lia.
  - inversion Hnd as [|? ? Hs Hnd']; subst. rewrite IH by assumption.
    destruct (string_dec s t) as [->|Hne].
    + rewrite getCount_set_same.
      destruct (in_dec string_dec t S); [contradiction|]. lia.
    + rewrite getCount_set_other by assumption.
      destruct (in_dec string_dec t S); lia.
Qed.

Lemma count_distinct_keys (S : list string) m t :
  In t (JsMap.keys (fold_left (fun m token => JsMap.set String.eqb m token (getCount m token + 1)) S m))
  <-> In t (JsMap.keys m) \/ In t S.
Proof.
  revert m. induction S as [|s S IH]; simpl; intro m.
  - tauto.
  - rewrite IH, (keys_set string_eqb_iff).
    destruct (JsMap.has String.eqb m s) eqn:E.
    + apply (has_iff string_eqb_iff) in E. intuition (subst; auto).
    + rewrite in_app_iff. simpl. intuition.
Qed.

Lemma count_distinct_NoDup (S : list string) m :
  NoDup (JsMap.keys m) ->
  NoDup (JsMap.keys (fold_left (fun m token => JsMap.set String.eqb m token (getCount m token + 1)) S m)).
Proof.
  revert m. induction S as [|s S IH]; simpl; intros m Hnd; [assumption|].
  apply IH. now apply (NoDup_keys_set string_eqb_iff).
Qed.

Lemma countDocument_get m tokens t :
  getCount (countDocument m tokens) t
  = getCount m t + (if JsMap.member String.eqb tokens t then 1 else 0).
Proof.
  unfold countDocument. rewrite count_distinct_get by apply (NoDup_ofList string_eqb_iff).
  destruct (in_dec string_dec t (JsMap.ofList String.eqb tokens)) as [H|H];
    rewrite (ofList_spec string_eqb_iff) in H;
    destruct (JsMap.member String.eqb tokens t) eqn:E; try reflexivity.
  - apply (member_iff string_eqb_iff) in H. congruence.
  - apply (member_iff string_eqb_iff) in E. contradiction.
Qed.

Lemma documentFrequencies_from_get docs m t :
  getCount (fold_left countDocument docs m) t = getCount m t + docFreq docs t.
Proof.
  revert m. induction docs as [|d docs IH]; simpl; intro m.
  - unfold docFreq. simpl. lia.
  - rewrite IH, countDocument_get. unfold docFreq. simpl.
    destruct (JsMap.member String.eqb d t); simpl; lia.
Qed.

Lemma documentFrequencies_get docs t :
  getCount (documentFrequencies docs) t = docFreq docs t.
Proof. unfold documentFrequencies. now rewrite documentFrequencies_from_get. Qed.

Lemma documentFrequencies_from_NoDup docs m :
  NoDup (JsMap.keys m) -> NoDup (JsMap.keys (fold_left countDocument docs m)).
Proof.
  revert m. induction docs as [|d docs IH]; simpl; intros m Hnd; [assumption|].
  apply IH. unfold countDocument. now apply count_distinct_NoDup.
Qed.

Lemma documentFrequencies_NoDup docs : NoDup (JsMap.keys (documentFrequencies docs)).
Proof. apply documentFrequencies_from_NoDup. constructor. Qed.

Lemma documentFrequencies_from_keys docs m t :
  In t (JsMap.keys (fold_left countDocument docs m))
  <-> In t (JsMap.keys m) \/ exists d, In d docs /\ In t d.
Proof.
  revert m. induction docs as [|d docs IH]; simpl; intro m.
  - split; [tauto|]. intros [H|[d [[] _]]]. assumption.
  - rewrite IH. unfold countDocument. rewrite count_distinct_keys.
    rewrite (ofList_spec string_eqb_iff). split.
    + intros [[H|H]|[d' [H1 H2]]]; eauto.
    + intros [H|[d' [[->|H1] H2]]]; eauto.
Qed.

Lemma docFreq_pos_iff docs t : 1 <= docFreq docs t <-> exists d, In d docs /\ In t d.
Proof.
  unfold docFreq. induction docs as [|d docs IH]; simpl.
  - split; [lia|]. intros [d [[] _]].
  - destruct (JsMap.member String.eqb d t) eqn:E; simpl.
    + apply (member_iff string_eqb_iff) in E. split; [eauto|lia].
    + rewrite IH. split.
      * intros [d' [H1 H2]]. eauto.
      * intros [d' [[->|H1] H2]]; [|eauto].
        apply (member_iff string_eqb_iff) in H2. congruence.
Qed.

(** A key of [dfCounts] is an observed term, and its count is its document
    frequency. *)
Lemma documentFrequencies_entry docs t df :
  In (t, df) (documentFrequencies docs) <-> df = docFreq docs t /\ 1 <= df.
Proof.
  split.
  - intro Hin.
    pose proof (in_get string_eqb_iff _ _ _ (documentFrequencies_NoDup docs) Hin) as Hget.
    assert (Hc : getCount (documentFrequencies docs) t = df)
      by (unfold getCount; now rewrite Hget).
    rewrite documentFrequencies_get in Hc. split; [congruence|].
    subst df. apply docFreq_pos_iff.
    assert (Hk : In t (JsMap.keys (documentFrequencies docs)))
      by (change t with (fst (t, docFreq docs t)); now apply in_map).
    apply documentFrequencies_from_keys in Hk. destruct Hk as [[]|Hk]. assumption.
  - intros [-> Hpos].
    assert (Hk : In t (JsMap.keys (documentFrequencies docs))).
    { apply documentFrequencies_from_keys. right. now apply docFreq_pos_iff. }
    apply (has_iff string_eqb_iff) in Hk. unfold JsMap.has in Hk.
    destruct (JsMap.get String.eqb (documentFrequencies docs) t) as [c|] eqn:E; [|discriminate].
    assert (Hc : getCount (documentFrequencies docs) t = c)
      by (unfold getCount; now rewrite E).
    rewrite documentFrequencies_get in Hc. subst c.
    now apply (get_in string_eqb_iff).
Qed.

Lemma indexed_nil : indexed [] [].
Proof.
  split; [constructor|]. intros t j. simpl. split; [discriminate|].
  destruct j; discriminate.
Qed.

Lemma nth_error_snoc (A : Type) (l : list A) (x y : A) j :
  nth_error (l ++ [x]) j = Some y <->
  nth_error l j = Some y \/ (j = List.length l /\ y = x).
Proof.
  destruct (Nat.lt_ge_cases j (List.length l)) as [Hlt|Hge].
  - rewrite nth_error_app1 by assumption. split; [tauto|].
    intros [H|[H _]]; [assumption|lia].
  - rewrite nth_error_app2 by assumption.
    assert (Hnone : nth_error l j = None) by now apply nth_error_None.
    rewrite Hnone. destruct (j - List.length l) as [|d] eqn:E; simpl.
    + split.
      * intros [= ->]. right. split; [lia|reflexivity].
      * intros [H|[_ ->]]; [discriminate|reflexivity].
    + split.
      * destruct d; discriminate.
      * intros [H|[H _]]; [discriminate|lia].
Qed.

Lemma indexed_addTerm vi v t :
  indexed vi v -> ~ In t v ->
  indexed (fst (addTerm (vi, v) t)) (snd (addTerm (vi, v) t)).
Proof.
  intros [Hnd Hidx] Hnin. simpl. split.
  - now apply NoDup_snoc.
  - intros t' j. rewrite nth_error_snoc. destruct (string_dec t t') as [->|Hne].
    + rewrite (get_set_same string_eqb_iff). split.
      * intros [= <-]. right. auto.
      * intros [H|[-> _]]; [|reflexivity].
        exfalso. apply Hnin. eapply nth_error_In; eassumption.
    + rewrite (get_set_other string_eqb_iff) by assumption. rewrite Hidx.
      split; [tauto|]. intros [H|[_ H]]; [assumption|congruence].
Qed.

Lemma addTerm_fold (p : string * nat -> bool) (l : list (string * nat)) vi v :
  indexed vi v ->
  NoDup (JsMap.keys l) ->
  (forall t, In t (JsMap.keys l) -> ~ In t v) ->
  let acc := fold_left (fun acc e => if p e then addTerm acc (fst e) else acc) l (vi, v) in
  snd acc = v ++ map fst (filter p l) /\ indexed (fst acc) (snd acc).
Proof.
  revert vi v. induction l as [|[t df] l IH]; intros vi v Hi Hnd Hdisj; simpl.
  - rewrite app_nil_r. auto.
  - inversion Hnd as [|? ? Ht Hnd']; subst.
    destruct (p (t, df)) eqn:Ep; simpl.
    + assert (Hnin : ~ In t v) by (apply Hdisj; now left).
      destruct (IH (JsMap.set String.eqb vi t (List.length v)) (v ++ [t])) as [H1 H2].
      * apply (indexed_addTerm vi v t Hi Hnin).
      * assumption.
      * intros t' Hin. rewrite in_app_iff. simpl. intros [H|[H|[]]].
        -- apply (Hdisj t'); [now right|assumption].
        -- subst. contradiction.
      * split; [|assumption]. rewrite H1, <- app_assoc. reflexivity.
    + apply IH; auto. intros t' Hin. apply Hdisj. now right.
Qed.

(** The vocabulary is the sub-list of the observed terms that pass the
    filter, or every observed term when none passes. *)
Lemma buildVocabulary_spec nDocs dfCounts :
  NoDup (JsMap.keys dfCounts) ->
  let kept := filter (fun e => keepTerm nDocs (maxDfOf nDocs) (snd e)) dfCounts in
  snd (buildVocabulary nDocs dfCounts)
  = (match kept with [] => JsMap.keys dfCounts | _ => JsMap.keys kept end)
  /\ indexed (fst (buildVocabulary nDocs dfCounts)) (snd (buildVocabulary nDocs dfCounts)).
Proof.
  intros Hnd kept. unfold buildVocabulary.
  destruct (addTerm_fold (fun e => keepTerm nDocs (maxDfOf nDocs) (snd e)) dfCounts
                         [] [] indexed_nil Hnd) as [H1 H2]; [auto|].
  simpl in H1. fold kept in H1.
  set (filtered := fold_left _ dfCounts ([], [])) in *.
  destruct kept as [|e kept'] eqn:Ek.
  - rewrite H1. cbn [map List.length Nat.eqb].
    destruct filtered as [vi v]. simpl in H1. subst v.
    destruct (addTerm_fold (fun _ => true) dfCounts vi [] H2 Hnd) as [H3 H4]; [auto|].
    simpl in H3.
    replace (filter (fun _ => true) dfCounts) with dfCounts in H3.
    2:{ clear. induction dfCounts as [|x l IH]; simpl; congruence. }
    split; [exact H3 | exact H4].
  - assert (Hlen : (List.length (snd filtered) =? 0) = false) by (now rewrite H1).
    rewrite Hlen. split; [exact H1 | exact H2].
Qed.

Lemma keepTerm_iff nDocs df : keepTerm nDocs (maxDfOf nDocs) df = true <-> retained nDocs df.
Proof.
  unfold keepTerm, retained, maxDfOf.
  rewrite andb_true_iff, orb_true_iff, !Nat.leb_le.
  assert (H : df <= nDocs * 19 / 20 <-> 20 * df <= 19 * nDocs).
  { split; intro H.
    - pose proof (Nat.div_mod_eq (nDocs * 19) 20).
      pose proof (Nat.mod_upper_bound (nDocs * 19) 20). lia.
    - apply Nat.div_le_lower_bound; lia. }
  tauto.
Qed.

(** ** The shape of [buildTfidfMatrix] *)

Lemma nonEmptyFrom_length i texts :
  List.length (fst (nonEmptyFrom i texts)) = List.length (snd (nonEmptyFrom i texts)).
Proof.
  revert i. induction texts as [|t r IH]; intro i; simpl; [reflexivity|].
  specialize (IH (S i)). destruct (nonEmptyFrom (S i) r) as [idx ts].
  destruct (0 <? String.length (Js.trim t)); simpl in *; lia.
Qed.

Section TfidfFacts.
Context {num : Type} {N : JsNumber num}.

Lemma buildTfidfMatrix_unfold texts :
  let docs := tokenizedDocsOf texts in
  buildTfidfMatrix texts =
  {| matrix := map (rowOf docs) docs;
     vocabulary := snd (buildVocabulary (List.length docs) (documentFrequencies docs));
     originalIndices := fst (nonEmptyFrom 0 texts) |}.
Proof.
  unfold buildTfidfMatrix, tokenizedDocsOf, rowOf.
  pose proof (nonEmptyFrom_length 0 texts) as Hlen.
  destruct (nonEmptyFrom 0 texts) as [idx ts]. simpl in *.
  destruct ts as [|t ts]; simpl.
  - destruct idx; [reflexivity|discriminate].
  - rewrite !length_map.
    destruct (buildVocabulary _ _) as [vi v]. reflexivity.
Qed.

Lemma matrix_length texts :
  List.length (matrix (buildTfidfMatrix texts)) = List.length (tokenizedDocsOf texts).
Proof. rewrite buildTfidfMatrix_unfold. simpl. apply length_map. Qed.

Lemma originalIndices_length texts :
  List.length (originalIndices (buildTfidfMatrix texts))
  = List.length (matrix (buildTfidfMatrix texts)).
Proof.
  rewrite buildTfidfMatrix_unfold. simpl. rewrite length_map.
  unfold tokenizedDocsOf. rewrite length_map. apply nonEmptyFrom_length.
Qed.
End TfidfFacts.

(** *** C4: vocabulary retention *)

(** C4.  Let [docs] be the tokenized documents of the texts that are not
    empty, [nDocs] their number and [df t] the number of documents in which
    the term [t] occurs.  The vocabulary holds distinct terms.  When some
    term has [df >= 1] and ([nDocs <= 1] or [df <= floor(0.95 * nDocs)]), a
    term is in the vocabulary if and only if it satisfies this rule; when no
    term does, the vocabulary holds every observed term.  (The statement
    covers the empty document set as well, where the vocabulary is empty.) *)
Theorem vocabulary_retention {num : Type} {N : JsNumber num} (texts : list string) :
  let docs := tokenizedDocsOf texts in
  let nDocs := List.length docs in
  let vocab := vocabulary (buildTfidfMatrix texts) in
  NoDup vocab /\
  ((exists t, retained nDocs (docFreq docs t)) ->
   forall t, In t vocab <-> retained nDocs (docFreq docs t)) /\
  (~ (exists t, retained nDocs (docFreq docs t)) ->
   forall t, In t vocab <-> 1 <= docFreq docs t).
Proof.
  intros docs nDocs vocab. subst vocab.
  rewrite buildTfidfMatrix_unfold. cbn [vocabulary]. fold docs. fold nDocs.
  destruct (buildVocabulary_spec nDocs (documentFrequencies docs)
                                 (documentFrequencies_NoDup docs)) as [Hv [Hnd _]].
  split; [exact Hnd|]. rewrite Hv. clear Hv Hnd.
  set (kept := filter _ (documentFrequencies docs)).
  assert (Hkept : forall t df, In (t, df) kept <->
                               df = docFreq docs t /\ retained nDocs df).
  { intros t df. unfold kept. rewrite filter_In. cbn [snd].
    rewrite keepTerm_iff, documentFrequencies_entry. unfold retained. tauto. }
  assert (Hkeys : forall (l : list (string * nat)) t,
             In t (JsMap.keys l) <-> exists df, In (t, df) l).
  { intros l t. unfold JsMap.keys. rewrite in_map_iff. split.
    - intros [[t' df] [He Hin]]. simpl in He. subst. eauto.
    - intros [df Hin]. exists (t, df). auto. }
  split.
  - intros [t0 Ht0] t.
    destruct kept as [|e kept'] eqn:Ek.
    + exfalso. apply (proj2 (Hkept t0 (docFreq docs t0))). auto.
    + rewrite Hkeys. split.
      * intros [df Hin]. apply Hkept in Hin. destruct Hin as [-> H]. exact H.
      * intro H. exists (docFreq docs t). apply Hkept. auto.
  - intros Hnone t.
    destruct kept as [|[t0 df0] kept'] eqn:Ek.
    + rewrite Hkeys. split.
      * intros [df Hin]. apply documentFrequencies_entry in Hin.
        destruct Hin as [-> H]. exact H.
      * intro H. exists (docFreq docs t). apply documentFrequencies_entry. auto.
    + exfalso. apply Hnone. exists t0.
      destruct (proj1 (Hkept t0 df0)) as [-> H]; [now left|exact H].
Qed.

(** ** Term frequencies and the rows before normalization *)

Lemma termFrequencies_from (vi : list (string * nat)) tokens (tf : list (string * nat)) t :
  let tf' := fold_left (fun tf token =>
                          if JsMap.has String.eqb vi token
                          then JsMap.set String.eqb tf token (getCount tf token + 1)
                          else tf) tokens tf in
  getCount tf' t
  = getCount tf t + (if JsMap.has String.eqb vi t then termCount tokens t else 0)
  /\ (In t (JsMap.keys tf') <->
      In t (JsMap.keys tf) \/ (In t tokens /\ JsMap.has String.eqb vi t = true))
  /\ (NoDup (JsMap.keys tf) -> NoDup (JsMap.keys tf')).
Proof.
  revert tf. induction tokens as [|tok tokens IH]; intro tf; cbn [fold_left].
  - simpl. split; [destruct (JsMap.has String.eqb vi t); lia|]. split; tauto.
  - destruct (IH (if JsMap.has String.eqb vi tok
                  then JsMap.set String.eqb tf tok (getCount tf tok + 1) else tf))
      as [H1 [H2 H3]].
    split; [|split].
    + rewrite H1. unfold termCount. cbn [count_occ].
      destruct (JsMap.has String.eqb vi tok) eqn:Ev.
      * destruct (string_dec tok t) as [->|Hne].
        -- rewrite getCount_set_same, Ev. lia.
        -- rewrite getCount_set_other by assumption.
           destruct (JsMap.has String.eqb vi t); lia.
      * destruct (string_dec tok t) as [->|Hne]; [rewrite Ev|]; lia.
    + rewrite H2. destruct (JsMap.has String.eqb vi tok) eqn:Ev.
      * rewrite (keys_set string_eqb_iff).
        destruct (JsMap.has String.eqb tf tok) eqn:Et.
        -- apply (has_iff string_eqb_iff) in Et. simpl.
           intuition (subst; auto).
        -- rewrite in_app_iff. simpl. intuition (subst; auto).
      * simpl. intuition (subst; auto). congruence.
    + intro Hnd. apply H3. destruct (JsMap.has String.eqb vi tok); [|assumption].
      now apply (NoDup_keys_set string_eqb_iff).
Qed.

Lemma termFrequencies_NoDup (vi : list (string * nat)) tokens : NoDup (JsMap.keys (termFrequencies vi tokens)).
Proof.
  unfold termFrequencies.
  apply (proj2 (proj2 (termFrequencies_from vi tokens [] ""))). constructor.
Qed.

(** For a term of the vocabulary, [tf] holds its number of occurrences when
    it occurs in the document and has no entry otherwise. *)
Lemma termFrequencies_get (vi : list (string * nat)) tokens t :
  JsMap.has String.eqb vi t = true ->
  JsMap.get String.eqb (termFrequencies vi tokens) t
  = if termCount tokens t =? 0 then None else Some (termCount tokens t).
Proof.
  intro Hv. unfold termFrequencies.
  destruct (termFrequencies_from vi tokens [] t) as [H1 [H2 _]].
  cbv zeta in H1, H2. rewrite Hv in H1. simpl in H1, H2.
  set (tf := fold_left _ tokens []) in *.
  assert (Hc : termCount tokens t = 0 <-> ~ In t tokens).
  { unfold termCount. symmetry. apply count_occ_not_In. }
  destruct (termCount tokens t =? 0) eqn:E.
  - apply Nat.eqb_eq in E. apply (get_none_iff string_eqb_iff).
    rewrite H2. rewrite Hc in E. tauto.
  - apply Nat.eqb_neq in E.
    destruct (JsMap.get String.eqb tf t) as [c|] eqn:Eg.
    + unfold getCount in H1. rewrite Eg in H1. congruence.
    + unfold getCount in H1. rewrite Eg in H1. congruence.
Qed.

Lemma termFrequencies_keys_vocab (vi : list (string * nat)) tokens t :
  In t (JsMap.keys (termFrequencies vi tokens)) -> JsMap.has String.eqb vi t = true.
Proof.
  intro H. apply (proj1 (proj2 (termFrequencies_from vi tokens [] t))) in H.
  destruct H as [[]|[_ H]]. exact H.
Qed.

Lemma setNth_map_update (A : Type) (h : string -> A) (vocab : list string) idx t v :
  NoDup vocab -> nth_error vocab idx = Some t ->
  setNth (map h vocab) idx v
  = map (fun t' => if string_dec t' t then v else h t') vocab.
Proof.
  revert idx. induction vocab as [|x vocab IH]; intros idx Hnd Hn.
  - destruct idx; discriminate.
  - inversion Hnd as [|? ? Hx Hnd']; subst. destruct idx as [|idx]; simpl in *.
    + injection Hn as ->. destruct (string_dec t t); [|congruence]. f_equal.
      apply map_ext_in. intros a Ha. destruct (string_dec a t); [|reflexivity].
      subst. contradiction.
    + rewrite (IH idx Hnd' Hn). f_equal.
      destruct (string_dec x t); [|reflexivity].
      subst. exfalso. apply Hx. eapply nth_error_In; eassumption.
Qed.

Section RowFacts.
Context {num : Type} {N : JsNumber num}.

Lemma rawRow_from nDocs dfCounts (vi : list (string * nat)) vocab
      (tf : list (string * nat)) (h : string -> num) :
  indexed vi vocab -> NoDup (JsMap.keys tf) ->
  fold_left (fun row (e : string * nat) =>
               match JsMap.get String.eqb vi (fst e) with
               | Some idx => setNth row idx (tfidfWeight nDocs (snd e) (getCount dfCounts (fst e)))
               | None => row
               end) tf (map h vocab)
  = map (fun t => match JsMap.get String.eqb tf t with
                  | Some c => tfidfWeight nDocs c (getCount dfCounts t)
                  | None => h t
                  end) vocab.
Proof.
  intros [Hnd Hidx]. revert h. induction tf as [|[t c] tf IH]; intros h Hk; simpl.
  - reflexivity.
  - inversion Hk as [|? ? Ht Hk']; subst.
    set (v := tfidfWeight nDocs c (getCount dfCounts t)).
    assert (Hstep : match JsMap.get String.eqb vi t with
                    | Some idx => setNth (map h vocab) idx v
                    | None => map h vocab
                    end = map (fun t' => if string_dec t' t then v else h t') vocab).
    { destruct (JsMap.get String.eqb vi t) as [idx|] eqn:E.
      - apply Hidx in E. now apply setNth_map_update.
      - apply map_ext_in. intros a Ha. destruct (string_dec a t); [|reflexivity].
        subst. exfalso. destruct (In_nth_error _ _ Ha) as [j Hj].
        apply Hidx in Hj. congruence. }
    rewrite Hstep, (IH _ Hk'). apply map_ext. intro a.
    destruct (String.eqb t a) eqn:E.
    + apply String.eqb_eq in E. subst a.
      assert (Hn : JsMap.get String.eqb tf t = None)
        by now apply (get_none_iff string_eqb_iff).
      rewrite Hn. destruct (string_dec t t); [reflexivity|congruence].
    + apply String.eqb_neq in E.
      destruct (JsMap.get String.eqb tf a); [reflexivity|].
      destruct (string_dec a t); [congruence|reflexivity].
Qed.

(** The row before normalization, position by position of the vocabulary. *)
Lemma rawRow_spec docs tokens :
  let nDocs := List.length docs in
  let dfCounts := documentFrequencies docs in
  let vocab := buildVocabulary nDocs dfCounts in
  rawRow nDocs dfCounts (fst vocab) (List.length (snd vocab))
         (termFrequencies (fst vocab) tokens)
  = map (fun t => if termCount tokens t =? 0 then nOfNat 0
                  else tfidfWeight nDocs (termCount tokens t) (docFreq docs t))
        (snd vocab).
Proof.
  intros nDocs dfCounts vocab. unfold rawRow.
  destruct (buildVocabulary_spec nDocs dfCounts (documentFrequencies_NoDup docs))
    as [_ Hidx]. fold vocab in Hidx.
  replace (repeat (nOfNat 0) (List.length (snd vocab)))
    with (map (fun _ : string => nOfNat 0) (snd vocab)).
  2:{ clear. induction (snd vocab); simpl; congruence. }
  rewrite (rawRow_from nDocs dfCounts (fst vocab) (snd vocab) _ _ Hidx
                       (termFrequencies_NoDup _ _)).
  apply map_ext_in. intros t Ht.
  assert (Hhas : JsMap.has String.eqb (fst vocab) t = true).
  { destruct Hidx as [_ Hidx]. destruct (In_nth_error _ _ Ht) as [j Hj].
    apply Hidx in Hj. unfold JsMap.has. now rewrite Hj. }
  rewrite (termFrequencies_get _ _ _ Hhas).
  destruct (termCount tokens t =? 0); [reflexivity|].
  unfold dfCounts. now rewrite documentFrequencies_get.
Qed.
End RowFacts.

(** *** C3: the weights and the normalization, in real arithmetic *)

Lemma fold_left_sumSquares (row : list R) (a : R) :
  fold_left (fun sum v => nAdd sum (nMul v v)) row a = (a + sumSquares row)%R.
Proof.
  revert a. induction row as [|x row IH]; intro a; simpl.
  - lra.
  - rewrite IH. lra.
Qed.

Lemma l2norm_real (row : list R) : l2norm row = euclideanNorm row.
Proof.
  unfold l2norm, euclideanNorm. cbn [nSqrt nOfNat RNumber].
  rewrite fold_left_sumSquares. simpl. f_equal. lra.
Qed.

Lemma sumSquares_nonneg (row : list R) : (0 <= sumSquares row)%R.
Proof.
  induction row as [|x row IH]; simpl; [lra|].
  pose proof (Rle_0_sqr x) as H. unfold Rsqr in H. lra.
Qed.

Lemma sumSquares_zero (row : list R) :
  sumSquares row = 0%R -> Forall (eq 0%R) row.
Proof.
  induction row as [|x row IH]; simpl; intro H; [constructor|].
  pose proof (Rle_0_sqr x) as Hx. unfold Rsqr in Hx.
  pose proof (sumSquares_nonneg row) as Hr.
  assert (Hx0 : (x * x = 0)%R) by lra.
  constructor.
  - apply Rmult_integral in Hx0. destruct Hx0; congruence.
  - apply IH. lra.
Qed.

Lemma sumSquares_scale (row : list R) (n : R) :
  n <> 0%R ->
  sumSquares (map (fun v => v / n)%R row) = (sumSquares row / (n * n))%R.
Proof.
  intro Hn. induction row as [|x row IH]; simpl.
  - unfold Rdiv. lra.
  - rewrite IH. field. assumption.
Qed.

Lemma normalizeRow_real (raw : list R) :
  (Forall (eq 0%R) raw /\ normalizeRow raw = raw) \/
  ((0 < euclideanNorm raw)%R
   /\ normalizeRow raw = map (fun v => v / euclideanNorm raw)%R raw
   /\ euclideanNorm (normalizeRow raw) = 1%R).
Proof.
  unfold normalizeRow. rewrite l2norm_real. cbn [nGtb nOfNat nDiv RNumber INR].
  destruct (Rlt_dec 0 (euclideanNorm raw)) as [Hpos|Hnpos].
  - right. split; [assumption|]. split; [reflexivity|].
    unfold euclideanNorm at 1. rewrite sumSquares_scale by lra.
    unfold euclideanNorm. rewrite sqrt_sqrt by apply sumSquares_nonneg.
    unfold euclideanNorm in Hpos.
    assert (Hs : (0 < sumSquares raw)%R).
    { destruct (Rle_lt_or_eq_dec _ _ (sumSquares_nonneg raw)) as [H|H]; [assumption|].
      rewrite <- H, sqrt_0 in Hpos. lra. }
    replace (sumSquares raw / sumSquares raw)%R with 1%R by (field; lra).
    apply sqrt_1.
  - left. split; [|reflexivity]. apply sumSquares_zero.
    pose proof (sqrt_pos (sumSquares raw)) as H0.
    apply sqrt_eq_0; [apply sumSquares_nonneg|].
    unfold euclideanNorm in Hnpos. lra.
Qed.

Lemma tfidfWeight_real nDocs count df :
  tfidfWeight (num := R) nDocs count df
  = ((1 + ln (INR count)) * (ln (INR (1 + nDocs) / INR (1 + df)) + 1))%R.
Proof. reflexivity. Qed.

Lemma Forall2_map_self (A B : Type) (P : A -> B -> Prop) (f : A -> B) (l : list A) :
  (forall x, In x l -> P x (f x)) -> Forall2 P l (map f l).
Proof.
  induction l as [|x l IH]; intro H; simpl; constructor.
  - apply H. now left.
  - apply IH. intros y Hy. apply H. now right.
Qed.

(** C3.  In any arithmetic, the matrix has one row per document, and the row
    of a document is the normalization of the row [raw] that holds, at the
    position of each vocabulary term,
    [(1 + log count) * (log ((1 + nDocs) / (1 + df)) + 1)] when the term
    occurs in the document and zero otherwise; the normalization divides
    [raw] by the square root of the sum of its squares when that root is
    positive and leaves it unchanged otherwise.  In real arithmetic this
    means: an all-zero [raw] is left as it is, and any other [raw] is divided
    by its Euclidean norm, which gives a row of Euclidean norm 1. *)
Theorem tfidf_rows :
  (forall (num : Type) (N : JsNumber num) (texts : list string),
      let docs := tokenizedDocsOf texts in
      let r := buildTfidfMatrix (num := num) texts in
      Forall2 (fun tokens row =>
                 row = normalizedIn (map (weightIn docs tokens) (vocabulary r)))
              docs (matrix r))
  /\ (forall texts : list string,
        let docs := tokenizedDocsOf texts in
        let r := buildTfidfMatrix (num := R) texts in
        Forall2
          (fun tokens row =>
             let raw := map (expectedWeight docs tokens) (vocabulary r) in
             (Forall (eq 0%R) raw /\ row = raw) \/
             ((0 < euclideanNorm raw)%R
              /\ row = map (fun v => v / euclideanNorm raw)%R raw
              /\ euclideanNorm row = 1%R))
          docs (matrix r)).
Proof.
  split.
  - intros num N texts docs r. subst r. rewrite buildTfidfMatrix_unfold. fold docs.
    cbn [matrix vocabulary]. apply Forall2_map_self. intros tokens _.
    unfold rowOf. rewrite rawRow_spec. reflexivity.
  - intros texts docs r. subst r. rewrite buildTfidfMatrix_unfold. fold docs.
    cbn [matrix vocabulary]. apply Forall2_map_self. intros tokens _.
    unfold rowOf. rewrite rawRow_spec.
    set (vocab := snd (buildVocabulary (List.length docs) (documentFrequencies docs))).
    replace (map _ vocab) with (map (expectedWeight docs tokens) vocab).
    + apply normalizeRow_real.
    + apply map_ext. intro t. unfold expectedWeight.
      destruct (termCount tokens t =? 0); reflexivity.
Qed.

(** In real arithmetic the weight of a term that occurs in a document of the
    collection is positive: the row of a document is the zero vector exactly
    when no vocabulary term occurs in it. *)
Lemma docFreq_le docs t : docFreq docs t <= List.length docs.
Proof. unfold docFreq. apply filter_length_le. Qed.

Lemma expectedWeight_pos docs tokens t :
  1 <= termCount tokens t -> (0 < expectedWeight docs tokens t)%R.
Proof.
  intro Hc. unfold expectedWeight.
  destruct (termCount tokens t =? 0) eqn:E; [apply Nat.eqb_eq in E; lia|].
  assert (H1 : (0 <= ln (INR (termCount tokens t)))%R).
  { rewrite <- ln_1. destruct (Nat.eq_dec (termCount tokens t) 1) as [->|Hne].
    - simpl. lra.
    - left. apply ln_increasing; [lra|]. change 1%R with (INR 1). apply lt_INR. lia. }
  assert (H2 : (0 <= ln (INR (1 + List.length docs) / INR (1 + docFreq docs t)))%R).
  { pose proof (docFreq_le docs t) as Hle.
    assert (Hd : (0 < INR (1 + docFreq docs t))%R) by (apply lt_0_INR; lia).
    assert (Hn : (INR (1 + docFreq docs t) <= INR (1 + List.length docs))%R)
      by (apply le_INR; lia).
    assert (Hq : (1 <= INR (1 + List.length docs) / INR (1 + docFreq docs t))%R).
    { apply (Rmult_le_reg_r (INR (1 + docFreq docs t))); [assumption|].
      unfold Rdiv. rewrite Rmult_assoc, Rinv_l by lra. lra. }
    rewrite <- ln_1. destruct (Rle_lt_or_eq_dec _ _ Hq) as [Hlt|Heq].
    - left. apply ln_increasing; lra.
    - rewrite <- Heq. lra. }
  apply Rmult_lt_0_compat; lra.
Qed.

(** ** The centroid, in real arithmetic *)

Lemma addRow_length (c row : list R) : List.length (addRow c row) = List.length c.
Proof.
  revert row. induction c as [|x c IH]; intros [|y row]; simpl; auto.
Qed.

Lemma addRow_nth (c row : list R) j :
  List.length row = List.length c ->
  nth j (addRow c row) 0%R = (nth j c 0 + nth j row 0)%R.
Proof.
  revert row j. induction c as [|x c IH]; intros [|y row] j Hlen; simpl in Hlen;
    try discriminate.
  - destruct j; simpl; lra.
  - destruct j; simpl; [reflexivity|]. apply IH. lia.
Qed.

Lemma sum_rows_nth (m : list (list R)) (c : list R) j :
  (forall row, In row m -> List.length row = List.length c) ->
  nth j (fold_left addRow m c) 0%R
  = (nth j c 0 + fold_right (fun row s => nth j row 0 + s) 0 m)%R.
Proof.
  revert c. induction m as [|row m IH]; intros c Hlen; simpl.
  - lra.
  - rewrite IH.
    + rewrite addRow_nth by (apply Hlen; now left). lra.
    + intros row' Hrow'. rewrite addRow_length. apply Hlen. now right.
Qed.

(** Every entry of the centroid is the mean of the entries of the rows at
    its position. *)
Lemma centroid_is_mean (m : list (list R)) (dim j : nat) :
  (forall row, In row m -> List.length row = dim) -> j < dim ->
  nth j (centroidOf m dim) 0%R = columnMean m j.
Proof.
  intros Hlen Hj. unfold centroidOf, columnMean. cbn [nDiv nOfNat RNumber].
  assert (Hrows : forall row, In row m ->
            List.length row = List.length (repeat (INR 0) dim)).
  { intros row Hrow. rewrite repeat_length. now apply Hlen. }
  assert (Ht : List.length (fold_left addRow m (repeat (INR 0) dim)) = dim).
  { clear Hrows Hlen Hj. rewrite <- (repeat_length (INR 0) dim) at 2.
    generalize (repeat (INR 0) dim) as c.
    induction m as [|r rows IH]; intro c; simpl; [reflexivity|].
    now rewrite IH, addRow_length. }
  rewrite (nth_indep _ 0%R ((fun c => c / INR (List.length m)) 0)%R)
    by (rewrite length_map, Ht; exact Hj).
  rewrite (map_nth (fun c => (c / INR (List.length m))%R)).
  rewrite (sum_rows_nth m _ j Hrows).
  rewrite nth_repeat. simpl INR. f_equal. lra.
Qed.

(** ** The texts that are vectorized *)

Lemma nonEmptyFrom_snd i texts : snd (nonEmptyFrom i texts) = filter hasText texts.
Proof.
  revert i. induction texts as [|t r IH]; intro i; simpl; [reflexivity|].
  specialize (IH (S i)). destruct (nonEmptyFrom (S i) r) as [idx ts]. simpl in IH.
  unfold hasText at 1. destruct (0 <? String.length (Js.trim t)); simpl; congruence.
Qed.

(** The indices of the vectorized texts, in increasing order. *)
Lemma nonEmptyFrom_fst i texts :
  fst (nonEmptyFrom i texts)
  = map fst (filter (fun p => hasText (snd p)) (combine (seq i (List.length texts)) texts)).
Proof.
  revert i. induction texts as [|t r IH]; intro i; simpl; [reflexivity|].
  specialize (IH (S i)). destruct (nonEmptyFrom (S i) r) as [idx ts]. simpl in IH.
  unfold hasText at 1. destruct (0 <? String.length (Js.trim t)); simpl; congruence.
Qed.

Lemma in_combine_seq (A : Type) (l : list A) i k (x : A) :
  In (k, x) (combine (seq i (List.length l)) l) <-> i <= k /\ nth_error l (k - i) = Some x.
Proof.
  revert i. induction l as [|y l IH]; intro i; simpl.
  - split; [tauto|]. intros [_ H]. destruct (k - i); discriminate.
  - rewrite IH. split.
    + intros [H|[H1 H2]].
      * injection H as -> ->. rewrite Nat.sub_diag. auto.
      * split; [lia|]. replace (k - i) with (S (k - S i)) by lia. exact H2.
    + intros [H1 H2]. destruct (Nat.eq_dec i k) as [->|Hne].
      * rewrite Nat.sub_diag in H2. injection H2 as ->. now left.
      * right. split; [lia|]. replace (k - i) with (S (k - S i)) in H2 by lia. exact H2.
Qed.

Lemma in_originalIndices texts k :
  In k (fst (nonEmptyFrom 0 texts)) <-> exists t, nth_error texts k = Some t /\ hasText t = true.
Proof.
  rewrite nonEmptyFrom_fst, in_map_iff. split.
  - intros [[k' t] [Hk Hin]]. simpl in Hk. subst k'.
    apply filter_In in Hin. destruct Hin as [Hin Ht].
    apply in_combine_seq in Hin. rewrite Nat.sub_0_r in Hin. exists t. tauto.
  - intros [t [Hn Ht]]. exists (k, t). split; [reflexivity|].
    apply filter_In. split; [|exact Ht].
    apply in_combine_seq. rewrite Nat.sub_0_r. split; [lia|exact Hn].
Qed.

Lemma nonEmptyFrom_none i texts :
  (forall t, In t texts -> hasText t = false) -> nonEmptyFrom i texts = ([], []).
Proof.
  revert i. induction texts as [|t r IH]; intros i H; simpl; [reflexivity|].
  rewrite IH by (intros t' Ht'; apply H; now right).
  assert (Ht : hasText t = false) by (apply H; now left).
  unfold hasText in Ht. now rewrite Ht.
Qed.

(** When exactly one text is not empty, it is the only vectorized one. *)
Lemma nonEmptyFrom_single s texts i t :
  nth_error texts i = Some t -> hasText t = true ->
  (forall k t', nth_error texts k = Some t' -> hasText t' = true -> k = i) ->
  nonEmptyFrom s texts = ([s + i], [t]).
Proof.
  revert s i. induction texts as [|x r IH]; intros s i Hn Ht Huniq.
  - destruct i; discriminate.
  - destruct i as [|i]; simpl in Hn.
    + injection Hn as ->. simpl.
      rewrite nonEmptyFrom_none.
      * unfold hasText in Ht. rewrite Ht. now rewrite Nat.add_0_r.
      * intros t' Hin. destruct (hasText t') eqn:E; [|reflexivity].
        destruct (In_nth_error _ _ Hin) as [k Hk].
        specialize (Huniq (S k) t' Hk E). discriminate.
    + simpl. rewrite (IH (S s) i Hn Ht).
      * assert (Hx : hasText x = false).
        { destruct (hasText x) eqn:E; [|reflexivity].
          specialize (Huniq 0 x eq_refl E). discriminate. }
        unfold hasText in Hx. rewrite Hx. f_equal. f_equal. lia.
      * intros k t' Hk Ht'. specialize (Huniq (S k) t' Hk Ht'). lia.
Qed.

(** ** The search for the most similar row *)

Section BestFacts.
Context {num : Type} {N : JsNumber num} {O : StrictWeakOrder num N}.

Lemma bestFrom_spec (c : list num) (rows pre : list (list num)) bestIdx best :
  let all := pre ++ rows in
  let sim k := cosineSimilarity (nth k all []) c in
  match best with
  | None => pre = []
  | Some s =>
      s = sim bestIdx /\ bestIdx < List.length pre
      /\ (forall k, k < List.length pre -> nGtb (sim k) (sim bestIdx) = false)
      /\ (forall k, k < bestIdx -> nGtb (sim bestIdx) (sim k) = true)
  end ->
  all <> [] ->
  let b := bestFrom (List.length pre) rows c bestIdx best in
  b < List.length all
  /\ (forall k, k < List.length all -> nGtb (sim k) (sim b) = false)
  /\ (forall k, k < b -> nGtb (sim b) (sim k) = true).
Proof.
  revert pre bestIdx best.
  induction rows as [|row rows IH]; intros pre bestIdx best all sim Hinv Hne.
  - subst all. rewrite app_nil_r in *. simpl.
    destruct best as [s|]; [|contradiction].
    destruct Hinv as [_ [H1 [H2 H3]]]. auto.
  - simpl.
    assert (Hall : all = (pre ++ [row]) ++ rows)
      by (subst all; now rewrite <- app_assoc).
    assert (Hlen : List.length (pre ++ [row]) = S (List.length pre))
      by (rewrite length_app; simpl; lia).
    assert (Hrow : cosineSimilarity row c = sim (List.length pre)).
    { subst sim all. cbv beta. rewrite app_nth2 by lia.
      now rewrite Nat.sub_diag. }
    rewrite Hrow.
    specialize (IH (pre ++ [row])). rewrite Hlen in IH. cbv zeta in IH.
    rewrite <- Hall in IH. fold sim in IH.
    destruct best as [s|].
    + destruct Hinv as [-> [H1 [H2 H3]]].
      destruct (nGtb (sim (List.length pre)) (sim bestIdx)) eqn:E.
      * apply IH; [|assumption].
        split; [reflexivity|]. split; [lia|]. split.
        -- intros k Hk. destruct (Nat.eq_dec k (List.length pre)) as [->|Hk'].
           ++ apply gt_irrefl.
           ++ destruct (nGtb (sim k) (sim (List.length pre))) eqn:E2; [|exact E2].
              assert (Hc : nGtb (sim k) (sim bestIdx) = true)
                by (eapply gt_trans; eassumption).
              rewrite H2 in Hc by lia. discriminate.
        -- intros k Hk.
           destruct (nGtb (sim (List.length pre)) (sim k)) eqn:E2; [exact E2|].
           assert (Hc : nGtb (sim (List.length pre)) (sim bestIdx) = false).
           { eapply gt_negtrans; [exact E2|]. apply H2. exact Hk. }
           congruence.
      * apply IH; [|assumption].
        split; [reflexivity|]. split; [lia|]. split; [|assumption].
        intros k Hk. destruct (Nat.eq_dec k (List.length pre)) as [->|Hk'].
        -- exact E.
        -- apply H2. lia.
    + subst pre. simpl in *. apply IH; [|assumption].
      split; [reflexivity|]. split; [lia|]. split.
      * intros k Hk. assert (k = 0) by lia. subst k. apply gt_irrefl.
      * intros k Hk. lia.
Qed.

(** The index found by the loop of [selectRepresentative]: no row is more
    similar to the centroid, and every earlier row is less similar. *)
Lemma bestFrom_first_max (m : list (list num)) :
  m <> [] ->
  let c := centroidOf m (List.length (nth 0 m [])) in
  let b := bestFrom 0 m c 0 None in
  b < List.length m
  /\ (forall k, k < List.length m ->
                nGtb (similarityToCentroid m k) (similarityToCentroid m b) = false)
  /\ (forall k, k < b ->
                nGtb (similarityToCentroid m b) (similarityToCentroid m k) = true).
Proof.
  intros Hne c b.
  exact (bestFrom_spec c m [] 0 None eq_refl Hne).
Qed.
End BestFacts.

(** ** C5: the representative of a group *)

Section RepresentativeFacts.
Context {num : Type} {N : JsNumber num}.

Lemma originalIndices_textIndices texts :
  originalIndices (buildTfidfMatrix texts) = textIndices texts.
Proof.
  rewrite buildTfidfMatrix_unfold. cbn [originalIndices]. apply nonEmptyFrom_fst.
Qed.

Lemma matrix_length_hasText texts :
  List.length (matrix (buildTfidfMatrix texts)) = List.length (filter hasText texts).
Proof.
  rewrite matrix_length. unfold tokenizedDocsOf.
  now rewrite length_map, nonEmptyFrom_snd.
Qed.

Lemma textIndices_bound texts b i :
  nth_error (textIndices texts) b = Some i -> i < List.length texts.
Proof.
  intro H. apply nth_error_In in H. unfold textIndices in H.
  rewrite <- nonEmptyFrom_fst in H. apply in_originalIndices in H.
  destruct H as [t [H _]]. apply nth_error_Some. congruence.
Qed.

Lemma select_single p texts : selectRepresentative [p] texts = Ok p.
Proof. reflexivity. Qed.

Lemma select_no_text p paths texts :
  (forall t, In t texts -> hasText t = false) ->
  selectRepresentative (p :: paths) texts = Ok p.
Proof.
  intro H. unfold selectRepresentative. destruct paths as [|q paths]; [reflexivity|].
  assert (Hm : matrix (buildTfidfMatrix texts) = []).
  { apply length_zero_iff_nil. rewrite matrix_length_hasText.
    replace (filter hasText texts) with (@nil string); [reflexivity|].
    symmetry. clear - H. induction texts as [|t r IH]; simpl; [reflexivity|].
    rewrite (H t) by now left. apply IH. intros t' Ht'. apply H. now right. }
  now rewrite Hm.
Qed.

Lemma select_one_text paths texts i t p :
  nth_error texts i = Some t -> hasText t = true ->
  (forall k t', nth_error texts k = Some t' -> hasText t' = true -> k = i) ->
  nth_error paths i = Some p ->
  selectRepresentative paths texts = Ok p.
Proof.
  intros Hn Ht Huniq Hp. unfold selectRepresentative.
  destruct paths as [|p0 [|p1 paths]].
  - destruct i; discriminate.
  - destruct i as [|[|i]]; simpl in Hp; congruence.
  - pose proof (nonEmptyFrom_single 0 texts i t Hn Ht Huniq) as Hsingle.
    rewrite buildTfidfMatrix_unfold. cbn [matrix originalIndices].
    unfold tokenizedDocsOf. rewrite Hsingle. cbn [snd fst map nth Nat.add].
    unfold pathAt. now rewrite Hp.
Qed.

Context {O : StrictWeakOrder num N}.

Lemma select_most_similar paths texts :
  List.length texts = List.length paths ->
  2 <= List.length (filter hasText texts) ->
  let m := matrix (buildTfidfMatrix texts) in
  exists b i p,
    nth_error (textIndices texts) b = Some i
    /\ nth_error paths i = Some p
    /\ selectRepresentative paths texts = Ok p
    /\ (forall k, k < List.length m ->
                  nGtb (similarityToCentroid m k) (similarityToCentroid m b) = false)
    /\ (forall k, k < b ->
                  nGtb (similarityToCentroid m b) (similarityToCentroid m k) = true).
Proof.
  intros Hlen H2 m.
  assert (Hm : List.length m = List.length (filter hasText texts))
    by apply matrix_length_hasText.
  assert (Hne : m <> []) by (intro E; rewrite E in Hm; simpl in Hm; lia).
  destruct (bestFrom_first_max m Hne) as [Hb [Hmax Hfirst]].
  set (b := bestFrom 0 m (centroidOf m (List.length (nth 0 m []))) 0 None) in *.
  assert (Hidx : List.length (textIndices texts) = List.length m).
  { rewrite <- originalIndices_textIndices. apply originalIndices_length. }
  destruct (nth_error (textIndices texts) b) as [i|] eqn:Ei.
  2:{ apply nth_error_None in Ei. lia. }
  pose proof (textIndices_bound texts b i Ei) as Hi.
  destruct (nth_error paths i) as [p|] eqn:Ep.
  2:{ apply nth_error_None in Ep. lia. }
  exists b, i, p. repeat split; try assumption.
  unfold selectRepresentative.
  assert (Hfilter : List.length (filter hasText texts) <= List.length texts)
    by apply filter_length_le.
  destruct paths as [|p0 [|p1 paths']]; [simpl in Hlen; lia | simpl in Hlen; lia |].
  fold m. rewrite originalIndices_textIndices.
  destruct m as [|row0 [|row1 rest]] eqn:Em; [simpl in Hm; lia | simpl in Hm; lia |].
  change (pathAt (p0 :: p1 :: paths') (nth b (textIndices texts) 0) = Ok p).
  rewrite (nth_error_nth _ _ 0 Ei). unfold pathAt. now rewrite Ep.
Qed.
End RepresentativeFacts.

(** ** The shape of the matrix *)

Section ShapeFacts.
Context {num : Type} {N : JsNumber num}.

Lemma normalizeRow_length (row : list num) :
  List.length (normalizeRow row) = List.length row.
Proof.
  unfold normalizeRow. destruct (nGtb _ _); [apply length_map|reflexivity].
Qed.

Lemma rowOf_length docs tokens :
  List.length (rowOf (num := num) docs tokens)
  = List.length (snd (buildVocabulary (List.length docs) (documentFrequencies docs))).
Proof.
  unfold rowOf. rewrite normalizeRow_length, rawRow_spec. apply length_map.
Qed.

(** The rows of a matrix all have the length of its first row. *)
Lemma matrix_rows_alike texts row :
  let m := matrix (buildTfidfMatrix (num := num) texts) in
  In row m -> List.length row = List.length (nth 0 m []).
Proof.
  cbv zeta. rewrite buildTfidfMatrix_unfold. cbn [matrix].
  intro Hrow. destruct (tokenizedDocsOf texts) as [|d docs] eqn:E; [contradiction|].
  rewrite <- E in *. apply in_map_iff in Hrow. destruct Hrow as [tokens [<- _]].
  rewrite E at 3. cbn [map nth]. now rewrite !rowOf_length.
Qed.
End ShapeFacts.

(** ** The similarity to the centroid, as the specification words it

    The loops of [cosineSimilarity] and of the centroid compute the sums of
    the definitions [cosineOf] and [meanOfRows], in any arithmetic. *)

Section SpecVectorFacts.
Context {num : Type} {N : JsNumber num}.

Lemma cosineSums_sums (a b : list num) (dot normA normB : num) :
  List.length a = List.length b ->
  cosineSums a b (dot, normA, normB)
  = (fold_left nAdd (map (fun p => nMul (fst p) (snd p)) (combine a b)) dot,
     fold_left nAdd (map (fun x => nMul x x) a) normA,
     fold_left nAdd (map (fun x => nMul x x) b) normB).
Proof.
  revert b dot normA normB.
  induction a as [|x a IH]; intros [|y b] dot normA normB Hlen;
    simpl in Hlen; try discriminate; [reflexivity|].
  simpl. apply IH. lia.
Qed.

Lemma cosineSimilarity_cosineOf (a b : list num) :
  List.length a = List.length b -> cosineSimilarity a b = cosineOf a b.
Proof.
  intro Hlen. unfold cosineSimilarity, cosineOf, dotOf, normOf, sumOf.
  now rewrite (cosineSums_sums a b _ _ _ Hlen).
Qed.

Lemma addRow_keeps_length (c row : list num) :
  List.length (addRow c row) = List.length c.
Proof.
  revert row. induction c as [|x c IH]; intros [|y row]; simpl; auto.
Qed.

Lemma addRow_entry (c row : list num) (j : nat) (d : num) :
  List.length row = List.length c -> j < List.length c ->
  nth j (addRow c row) d = nAdd (nth j c d) (nth j row d).
Proof.
  revert row j. induction c as [|x c IH]; intros [|y row] j Hlen Hj;
    simpl in Hlen, Hj; try discriminate; [lia|].
  destruct j; simpl; [reflexivity|]. apply IH; lia.
Qed.

Lemma addRows_length (m : list (list num)) (c : list num) :
  List.length (fold_left addRow m c) = List.length c.
Proof.
  revert c. induction m as [|row m IH]; intro c; simpl; [reflexivity|].
  now rewrite IH, addRow_keeps_length.
Qed.

Lemma addRows_entry (m : list (list num)) (c : list num) (j : nat) (d : num) :
  (forall row, In row m -> List.length row = List.length c) ->
  j < List.length c ->
  nth j (fold_left addRow m c) d
  = fold_left nAdd (map (fun row => nth j row d) m) (nth j c d).
Proof.
  revert c. induction m as [|row m IH]; intros c Hlen Hj; simpl; [reflexivity|].
  rewrite IH.
  - now rewrite addRow_entry by (try apply Hlen; auto; now left).
  - intros row' Hrow'. rewrite addRow_keeps_length. apply Hlen. now right.
  - now rewrite addRow_keeps_length.
Qed.

(** The centroid of the code is the list of the means of the columns. *)
Lemma centroidOf_meanOfRows (m : list (list num)) :
  (forall row, In row m -> List.length row = List.length (nth 0 m [])) ->
  centroidOf m (List.length (nth 0 m [])) = meanOfRows m.
Proof.
  intro Hlen. unfold centroidOf, meanOfRows.
  set (dim := List.length (nth 0 m [])) in *.
  set (f := fun c : num => nDiv c (nOfNat (List.length m))).
  apply (nth_ext _ _ (f (nOfNat 0)) (meanAt m 0)).
  - now rewrite !length_map, addRows_length, repeat_length, length_seq.
  - intros j Hj. rewrite length_map, addRows_length, repeat_length in Hj.
    rewrite (map_nth f), (map_nth (meanAt m)), seq_nth by exact Hj.
    rewrite addRows_entry.
    + now rewrite nth_repeat.
    + intros row Hrow. rewrite repeat_length. now apply Hlen.
    + now rewrite repeat_length.
Qed.

Lemma meanOfRows_length (m : list (list num)) :
  List.length (meanOfRows m) = List.length (nth 0 m []).
Proof. unfold meanOfRows. now rewrite length_map, length_seq. Qed.

Lemma similarityToCentroid_mean (m : list (list num)) (k : nat) :
  (forall row, In row m -> List.length row = List.length (nth 0 m [])) ->
  k < List.length m ->
  similarityToCentroid m k = similarityToMean m k.
Proof.
  intros Hlen Hk. unfold similarityToCentroid, similarityToMean.
  rewrite centroidOf_meanOfRows by exact Hlen.
  apply cosineSimilarity_cosineOf. rewrite meanOfRows_length.
  apply Hlen. now apply nth_In.
Qed.
End SpecVectorFacts.

(** ** The search among ordinary numbers *)

Lemma weak_order_everywhere {num : Type} {N : JsNumber num} :
  StrictWeakOrder num N -> OrderedOn num N (fun _ => True).
Proof.
  intro O. split.
  - intros x _. apply gt_irrefl.
  - intros x y z _ _ _. apply gt_trans.
  - intros x y z _ _ _. apply gt_negtrans.
Qed.

Section BestFactsOn.
Context {num : Type} {N : JsNumber num}.
Context {ordinary : num -> Prop} {O : OrderedOn num N ordinary}.

Lemma bestFrom_spec_on (c : list num) (rows pre : list (list num)) bestIdx best :
  let all := pre ++ rows in
  let sim k := cosineSimilarity (nth k all []) c in
  (forall k, k < List.length all -> ordinary (sim k)) ->
  match best with
  | None => pre = []
  | Some s =>
      s = sim bestIdx /\ bestIdx < List.length pre
      /\ (forall k, k < List.length pre -> nGtb (sim k) (sim bestIdx) = false)
      /\ (forall k, k < bestIdx -> nGtb (sim bestIdx) (sim k) = true)
  end ->
  all <> [] ->
  let b := bestFrom (List.length pre) rows c bestIdx best in
  b < List.length all
  /\ (forall k, k < List.length all -> nGtb (sim k) (sim b) = false)
  /\ (forall k, k < b -> nGtb (sim b) (sim k) = true).
Proof.
  revert pre bestIdx best.
  induction rows as [|row rows IH]; intros pre bestIdx best all sim Hord Hinv Hne.
  - subst all. rewrite app_nil_r in *. simpl.
    destruct best as [s|]; [|contradiction].
    destruct Hinv as [_ [H1 [H2 H3]]]. auto.
  - simpl.
    assert (Hall : all = (pre ++ [row]) ++ rows)
      by (subst all; now rewrite <- app_assoc).
    assert (Hlen : List.length (pre ++ [row]) = S (List.length pre))
      by (rewrite length_app; simpl; lia).
    assert (Hlall : List.length all = List.length pre + S (List.length rows))
      by (subst all; rewrite length_app; reflexivity).
    assert (Hrow : cosineSimilarity row c = sim (List.length pre)).
    { subst sim all. cbv beta. rewrite app_nth2 by lia.
      now rewrite Nat.sub_diag. }
    rewrite Hrow.
    specialize (IH (pre ++ [row])). rewrite Hlen in IH. cbv zeta in IH.
    rewrite <- Hall in IH. fold sim in IH.
    assert (Hnew : ordinary (sim (List.length pre))) by (apply Hord; lia).
    destruct best as [s|].
    + destruct Hinv as [-> [H1 [H2 H3]]].
      assert (Hbest : ordinary (sim bestIdx)) by (apply Hord; lia).
      destruct (nGtb (sim (List.length pre)) (sim bestIdx)) eqn:E.
      * apply IH; [exact Hord| |assumption].
        split; [reflexivity|]. split; [lia|]. split.
        -- intros k Hk. destruct (Nat.eq_dec k (List.length pre)) as [->|Hk'].
           ++ now apply on_irrefl.
           ++ assert (Hk0 : ordinary (sim k)) by (apply Hord; lia).
              destruct (nGtb (sim k) (sim (List.length pre))) eqn:E2; [|exact E2].
              assert (Hc : nGtb (sim k) (sim bestIdx) = true)
                by (eapply (on_trans (sim k) (sim (List.length pre))); eassumption).
              rewrite H2 in Hc by lia. discriminate.
        -- intros k Hk.
           assert (Hk0 : ordinary (sim k)) by (apply Hord; lia).
           destruct (nGtb (sim (List.length pre)) (sim k)) eqn:E2; [exact E2|].
           assert (Hc : nGtb (sim (List.length pre)) (sim bestIdx) = false).
           { eapply (on_negtrans _ (sim k)); try eassumption. apply H2. exact Hk. }
           congruence.
      * apply IH; [exact Hord| |assumption].
        split; [reflexivity|]. split; [lia|]. split; [|assumption].
        intros k Hk. destruct (Nat.eq_dec k (List.length pre)) as [->|Hk'].
        -- exact E.
        -- apply H2. lia.
    + subst pre. simpl in *. apply IH; [exact Hord| |assumption].
      split; [reflexivity|]. split; [lia|]. split.
      * intros k Hk. assert (k = 0) by lia. subst k. now apply on_irrefl.
      * intros k Hk. lia.
Qed.

(** When at least two texts have content and the similarities are
    ordinary numbers, the loop returns the frame of the row most similar
    to the mean of the rows, the first one among the most similar. *)
Lemma select_most_similar_on paths texts :
  List.length texts = List.length paths ->
  2 <= List.length (filter hasText texts) ->
  let m := matrix (buildTfidfMatrix texts) in
  (forall k, k < List.length m -> ordinary (similarityToMean m k)) ->
  exists b i p,
    nth_error (textIndices texts) b = Some i
    /\ nth_error paths i = Some p
    /\ selectRepresentative paths texts = Ok p
    /\ (forall k, k < List.length m ->
                  nGtb (similarityToMean m k) (similarityToMean m b) = false)
    /\ (forall k, k < b ->
                  nGtb (similarityToMean m b) (similarityToMean m k) = true).
Proof.
  intros Hlen H2 m Hord.
  assert (Hm : List.length m = List.length (filter hasText texts))
    by apply matrix_length_hasText.
  assert (Hne : m <> []) by (intro E; rewrite E in Hm; simpl in Hm; lia).
  assert (Hrect : forall row, In row m -> List.length row = List.length (nth 0 m []))
    by (intros row; apply matrix_rows_alike).
  assert (Hsim : forall k, k < List.length m ->
                   similarityToCentroid m k = similarityToMean m k)
    by (intros k Hk; now apply similarityToCentroid_mean).
  pose proof (bestFrom_spec_on (centroidOf m (List.length (nth 0 m []))) m [] 0 None)
    as Hbest.
  cbv zeta in Hbest. cbn [app List.length] in Hbest.
  destruct Hbest as [Hb [Hmax Hfirst]]; [|reflexivity|exact Hne|].
  { intros k Hk. fold (similarityToCentroid m k). rewrite Hsim by exact Hk.
    now apply Hord. }
  set (b := bestFrom 0 m (centroidOf m (List.length (nth 0 m []))) 0 None) in *.
  assert (Hidx : List.length (textIndices texts) = List.length m).
  { rewrite <- originalIndices_textIndices. apply originalIndices_length. }
  destruct (nth_error (textIndices texts) b) as [i|] eqn:Ei.
  2:{ apply nth_error_None in Ei. lia. }
  pose proof (textIndices_bound texts b i Ei) as Hi.
  destruct (nth_error paths i) as [p|] eqn:Ep.
  2:{ apply nth_error_None in Ep. lia. }
  exists b, i, p. split; [exact Ei|]. split; [exact Ep|]. split; [|split].
  - unfold selectRepresentative.
    destruct paths as [|p0 [|p1 paths']].
    + destruct i; discriminate.
    + pose proof (filter_length_le hasText texts). simpl in Hlen. lia.
    + fold m. rewrite originalIndices_textIndices.
      destruct m as [|row0 [|row1 rest]] eqn:Em;
        [simpl in Hm; lia | simpl in Hm; lia |].
      change (pathAt (p0 :: p1 :: paths') (nth b (textIndices texts) 0) = Ok p).
      rewrite (nth_error_nth _ _ 0 Ei). unfold pathAt. now rewrite Ep.
  - intros k Hk. rewrite <- !Hsim by assumption.
    exact (Hmax k Hk).
  - intros k Hk. rewrite <- !Hsim by lia.
    exact (Hfirst k Hk).
Qed.
End BestFactsOn.

(** C5.  For a group with at least one frame and one text per frame,
    [selectRepresentative] returns
    - the frame itself when the group has a single frame;
    - the first frame when no text has content;
    - the frame of the only text with content when there is exactly one;
    - when at least two texts have content, the frame of the row [b] of the
      group's own TF-IDF matrix such that no row has a greater cosine
      similarity to the centroid than row [b], and every row before [b] has
      a smaller one: the most similar member, the earliest one among
      equally similar ones.
    The cosine similarity is [cosineOf], the dot product over the product
    of the norms, and the centroid is [meanOfRows], the mean of the rows at
    every dimension, both in the arithmetic of the program.  The statement
    holds in every arithmetic in which [>] is a strict weak order among the
    similarities of the rows: in real arithmetic, and in double arithmetic
    as long as no similarity is NaN. *)
Theorem representative_selection {num : Type} {N : JsNumber num}
        (ordinary : num -> Prop) (O : OrderedOn num N ordinary)
        (paths texts : list string) :
  paths <> [] ->
  List.length texts = List.length paths ->
  (List.length paths = 1 -> selectRepresentative paths texts = Ok (hd "" paths))
  /\ ((forall t, In t texts -> hasText t = false) ->
      selectRepresentative paths texts = Ok (hd "" paths))
  /\ (forall i t p,
         nth_error texts i = Some t -> hasText t = true ->
         (forall k t', nth_error texts k = Some t' -> hasText t' = true -> k = i) ->
         nth_error paths i = Some p ->
         selectRepresentative paths texts = Ok p)
  /\ (2 <= List.length (filter hasText texts) ->
      let m := matrix (buildTfidfMatrix texts) in
      (forall k, k < List.length m -> ordinary (similarityToMean m k)) ->
      exists b i p,
        nth_error (textIndices texts) b = Some i
        /\ nth_error paths i = Some p
        /\ selectRepresentative paths texts = Ok p
        /\ (forall k, k < List.length m ->
                      nGtb (similarityToMean m k) (similarityToMean m b) = false)
        /\ (forall k, k < b ->
                      nGtb (similarityToMean m b) (similarityToMean m k) = true)).
Proof.
  intros Hne Hlen. destruct paths as [|p0 paths]; [contradiction|].
  split; [|split; [|split]].
  - intro H1. destruct paths; [reflexivity|discriminate].
  - intro H. now apply select_no_text.
  - intros i t p. apply select_one_text.
  - intros H2 m Hord. now apply select_most_similar_on.
Qed.

(** ** The doubles that are not NaN are ordinary numbers *)

Module DoubleFacts.
Import Floats.

Lemma SFltb_rank (x y : spec_float) :
  x <> S754_nan -> y <> S754_nan ->
  (SFltb x y = true <-> Double.below (Double.rank x) (Double.rank y)).
Proof.
  intros Hx Hy. unfold SFltb.
  destruct x as [sx|sx| |sx mx ex]; [| |contradiction|];
  (destruct y as [sy|sy| |sy my ey]; [| |contradiction|]);
  try destruct sx; try destruct sy; cbn;
  try (destruct (Z.compare_spec ex ey); cbn;
       try (change (Pos.compare_cont Eq mx my) with (Pos.compare mx my);
            destruct (Pos.compare_spec mx my); cbn));
  (split; intro Hlt; first [reflexivity | discriminate | lia]).
Qed.

Lemma ordinary_not_nan (x : float) : Double.ordinary x -> Prim2SF x <> S754_nan.
Proof.
  unfold Double.ordinary. rewrite ltb_spec. intros H E. rewrite E in H.
  vm_compute in H. discriminate.
Qed.

Lemma ltb_rank (x y : float) :
  Double.ordinary x -> Double.ordinary y ->
  (PrimFloat.ltb x y = true
   <-> Double.below (Double.rank (Prim2SF x)) (Double.rank (Prim2SF y))).
Proof.
  intros Hx Hy. rewrite ltb_spec. apply SFltb_rank; now apply ordinary_not_nan.
Qed.

Lemma ltb_false_rank (x y : float) :
  Double.ordinary x -> Double.ordinary y ->
  (PrimFloat.ltb x y = false
   <-> ~ Double.below (Double.rank (Prim2SF x)) (Double.rank (Prim2SF y))).
Proof.
  intros Hx Hy. rewrite <- (ltb_rank x y Hx Hy).
  destruct (PrimFloat.ltb x y); split; congruence.
Qed.

(** Among the doubles above [-Infinity] the comparison [>] is a strict weak
    order, whatever [Math.log] computes. *)
Lemma double_order (mathLog : float -> float) :
  OrderedOn float (Double.number mathLog) Double.ordinary.
Proof.
  split; cbn [nGtb Double.number].
  - intros x Hx. apply (ltb_false_rank x x Hx Hx).
    unfold Double.below. destruct (Double.rank (Prim2SF x)) as [[a b] c]. lia.
  - intros x y z Hx Hy Hz Hxy Hyz.
    apply (ltb_rank y x Hy Hx) in Hxy. apply (ltb_rank z y Hz Hy) in Hyz.
    apply (ltb_rank z x Hz Hx). unfold Double.below in *.
    destruct (Double.rank (Prim2SF x)) as [[a1 a2] a3].
    destruct (Double.rank (Prim2SF y)) as [[b1 b2] b3].
    destruct (Double.rank (Prim2SF z)) as [[c1 c2] c3]. lia.
  - intros x y z Hx Hy Hz Hxy Hyz.
    apply (ltb_false_rank y x Hy Hx) in Hxy. apply (ltb_false_rank z y Hz Hy) in Hyz.
    apply (ltb_false_rank z x Hz Hx). unfold Double.below in *.
    destruct (Double.rank (Prim2SF x)) as [[a1 a2] a3].
    destruct (Double.rank (Prim2SF y)) as [[b1 b2] b3].
    destruct (Double.rank (Prim2SF z)) as [[c1 c2] c3]. lia.
Qed.
End DoubleFacts.

(** ** ocr.ts: the worker pool *)

Lemma in_setNth (A : Type) (l : list A) i (v x : A) :
  i < List.length l ->
  (In x (setNth l i v) <-> x = v \/ exists j, j <> i /\ nth_error l j = Some x).
Proof.
  revert i. induction l as [|y l IH]; intros i Hi; simpl in Hi; [lia|].
  destruct i as [|i]; simpl.
  - split.
    + intros [H|H]; [left; congruence|]. right.
      destruct (In_nth_error _ _ H) as [j Hj]. exists (S j). split; [lia|exact Hj].
    + intros [H|[j [Hj Hn]]]; [left; congruence|]. right.
      destruct j; [congruence|]. simpl in Hn. eapply nth_error_In; eassumption.
  - rewrite IH by lia. split.
    + intros [H|[H|[j [Hj Hn]]]].
      * right. exists 0. split; [lia|]. simpl. congruence.
      * now left.
      * right. exists (S j). split; [lia|exact Hn].
    + intros [H|[j [Hj Hn]]]; [tauto|].
      destruct j as [|j]; simpl in Hn.
      * left. congruence.
      * right. right. exists j. split; [lia|exact Hn].
Qed.

Lemma setNth_length (A : Type) (l : list A) i (v : A) :
  List.length (setNth l i v) = List.length l.
Proof.
  revert i. induction l as [|y l IH]; intro i; simpl; [reflexivity|].
  destruct i; simpl; [reflexivity|]. now rewrite IH.
Qed.

Lemma count_setNth (l : list Ocr.worker) i f w :
  nth_error l i = Some (Ocr.Awaiting f) ->
  List.length (filter (fun w => negb (Ocr.isReturned w)) (setNth l i w))
  + (if Ocr.isReturned w then 1 else 0)
  = List.length (filter (fun w => negb (Ocr.isReturned w)) l).
Proof.
  revert i. induction l as [|y l IH]; intros i Hn.
  - destruct i; discriminate.
  - destruct i as [|i]; simpl in Hn.
    + injection Hn as ->. simpl. destruct w; simpl; lia.
    + simpl. specialize (IH i Hn). destruct y; simpl; lia.
Qed.

Section PoolFacts.
Variable tesseract : string -> string -> option string.
Variables (frames : list string) (lang : string).

Lemma launch_recorded p : recorded tesseract frames lang p -> recorded tesseract frames lang (Ocr.launch p).
Proof.
  intros [Ha [Hb Hc]]. unfold Ocr.launch.
  destruct (Ocr.queue p) as [|g q] eqn:Eq; simpl;
    (split; [|split]); cbn [Ocr.results Ocr.queue Ocr.workerStates]; auto;
    intro f; rewrite Ha; unfold inFlight; cbn [Ocr.workerStates];
    rewrite in_app_iff; simpl.
  - intuition congruence.
  - split.
    + intros [H|[H|[H|H]]]; subst; auto.
    + intros [H|[[H|[H|[]]]|H]]; auto. injection H as <-. auto.
Qed.

Lemma launch_iter n p :
  recorded tesseract frames lang p -> n <= List.length (Ocr.queue p) ->
  let p' := Nat.iter n Ocr.launch p in
  recorded tesseract frames lang p'
  /\ List.length (Ocr.queue p') + n = List.length (Ocr.queue p)
  /\ (1 <= n -> exists f, inFlight p' f).
Proof.
  intros Hrec. induction n as [|n IH]; intros Hn; cbv zeta.
  - simpl. split; [assumption|]. split; lia.
  - destruct IH as [IH1 [IH2 _]]; [lia|]. simpl.
    set (p1 := Nat.iter n Ocr.launch p) in *.
    split; [now apply launch_recorded|].
    unfold Ocr.launch. destruct (Ocr.queue p1) as [|g q] eqn:Eq; simpl in *; [lia|].
    split; [lia|]. intros _. exists g. unfold inFlight. cbn [Ocr.workerStates].
    rewrite in_app_iff. simpl. auto.
Qed.

(** With at least one worker the invariant holds when the pool starts. *)
Lemma start_invariant workers :
  (1 <= workers)%Z -> poolInvariant tesseract frames lang (Ocr.start frames workers).
Proof.
  intro Hw. unfold Ocr.start.
  set (p0 := {| Ocr.queue := frames; Ocr.results := []; Ocr.completed := 0;
                Ocr.workerStates := [] |}).
  set (n := Z.to_nat (Z.min workers (Z.of_nat (List.length frames)))).
  assert (H0 : recorded tesseract frames lang p0).
  { split; [|split]; simpl.
    - intro f. unfold inFlight. simpl. tauto.
    - intros f v H. discriminate.
    - constructor. }
  destruct (launch_iter n p0 H0) as [[Ha [Hb Hc]] [Hlen Hfl]]; [simpl; lia|].
  split; [exact Ha|]. split; [exact Hb|]. split; [exact Hc|].
  intro Hq. apply Hfl. simpl in Hlen.
  destruct (Ocr.queue (Nat.iter n Ocr.launch p0)) eqn:E; [contradiction|].
  simpl in Hlen. lia.
Qed.

Lemma resume_invariant p i p' :
  poolInvariant tesseract frames lang p ->
  Ocr.resume tesseract lang p i = Some p' ->
  poolInvariant tesseract frames lang p'.
Proof.
  intros [Ha [Hb [Hc Hd]]] Hres. unfold Ocr.resume in Hres.
  destruct (nth_error (Ocr.workerStates p) i) as [[f0|]|] eqn:Ei; try discriminate.
  assert (Hi : i < List.length (Ocr.workerStates p))
    by (apply nth_error_Some; congruence).
  assert (Hf0 : inFlight p f0) by (eapply nth_error_In; eassumption).
  assert (Hkeys : forall f,
             In f (JsMap.keys (JsMap.set String.eqb (Ocr.results p) f0
                                         (Ocr.ocrFrame tesseract f0 lang)))
             <-> In f (JsMap.keys (Ocr.results p)) \/ f = f0).
  { intro f. rewrite (keys_set string_eqb_iff).
    destruct (JsMap.has String.eqb (Ocr.results p) f0) eqn:Eh.
    - apply (has_iff string_eqb_iff) in Eh. intuition (subst; auto).
    - rewrite in_app_iff. simpl. intuition. }
  assert (Hget : forall f v,
             JsMap.get String.eqb (JsMap.set String.eqb (Ocr.results p) f0
                                             (Ocr.ocrFrame tesseract f0 lang)) f = Some v ->
             v = Ocr.ocrFrame tesseract f lang).
  { intros f v. destruct (string_dec f0 f) as [->|Hne].
    - rewrite (get_set_same string_eqb_iff). congruence.
    - rewrite (get_set_other string_eqb_iff) by assumption. apply Hb. }
  destruct (Ocr.queue p) as [|g q] eqn:Eq; simpl in Hres; injection Hres as <-;
    (split; [|split; [|split]]);
    cbn [Ocr.results Ocr.queue Ocr.workerStates];
    try exact Hget; try (now apply (NoDup_keys_set string_eqb_iff)).
  - intro f. rewrite Ha, Hkeys. unfold inFlight. cbn [Ocr.workerStates].
    rewrite in_setNth by assumption. simpl. split.
    + intros [H|[H|[]]]; [tauto|].
      destruct (string_dec f f0) as [->|Hne]; [tauto|].
      destruct (In_nth_error _ _ H) as [j Hj].
      right. left. right. exists j. split; [|exact Hj]. congruence.
    + intros [[H| ->]|[[H|[j [_ Hj]]]|[]]]; try tauto; try discriminate.
      right. left. eapply nth_error_In; eassumption.
  - intro H. contradiction.
  - intro f. rewrite Ha, Hkeys. unfold inFlight. cbn [Ocr.workerStates].
    rewrite in_setNth by assumption. simpl. split.
    + intros [H|[H|[<-|H]]]; try tauto.
      destruct (string_dec f f0) as [->|Hne]; [tauto|].
      destruct (In_nth_error _ _ H) as [j Hj].
      right. left. right. exists j. split; [|exact Hj]. congruence.
    + intros [[H| ->]|[[H|[j [_ Hj]]]|H]]; try tauto.
      * injection H as ->. tauto.
      * right. left. eapply nth_error_In; eassumption.
  - intros _. exists g. unfold inFlight. cbn [Ocr.workerStates].
    apply in_setNth; auto.
Qed.

Lemma steps_invariant p p' :
  Ocr.steps tesseract lang p p' ->
  poolInvariant tesseract frames lang p -> poolInvariant tesseract frames lang p'.
Proof.
  induction 1 as [p|p p1 p2 [i Hstep] _ IH]; intro Hinv; [assumption|].
  apply IH. eapply resume_invariant; eassumption.
Qed.

Lemma settled_no_inFlight p f : Ocr.settled p = true -> ~ inFlight p f.
Proof.
  unfold Ocr.settled, inFlight. rewrite forallb_forall. intros H Hin.
  specialize (H _ Hin). discriminate.
Qed.

(** When every call has returned, the map holds exactly the frames, each
    with its OCR text. *)
Lemma settled_results p :
  poolInvariant tesseract frames lang p -> Ocr.settled p = true ->
  NoDup (JsMap.keys (Ocr.results p))
  /\ (forall f, In f (JsMap.keys (Ocr.results p)) <-> In f frames)
  /\ (forall f, In f frames ->
                JsMap.get String.eqb (Ocr.results p) f
                = Some (Ocr.ocrFrame tesseract f lang)).
Proof.
  intros [Ha [Hb [Hc Hd]]] Hs.
  assert (Hq : Ocr.queue p = []).
  { destruct (Ocr.queue p) eqn:E; [reflexivity|].
    destruct Hd as [f Hf]; [discriminate|].
    exfalso. eapply settled_no_inFlight; eassumption. }
  assert (Hk : forall f, In f (JsMap.keys (Ocr.results p)) <-> In f frames).
  { intro f. rewrite Ha, Hq. simpl. split; [tauto|].
    intros [H|[H|[]]]; [assumption|].
    exfalso. eapply settled_no_inFlight; eassumption. }
  split; [exact Hc|]. split; [exact Hk|].
  intros f Hf. apply Hk in Hf. apply (has_iff string_eqb_iff) in Hf.
  unfold JsMap.has in Hf.
  destruct (JsMap.get String.eqb (Ocr.results p) f) as [v|] eqn:E; [|discriminate].
  f_equal. now apply Hb.
Qed.
End PoolFacts.

Lemma firstAwaiting_none i ws :
  Ocr.firstAwaiting i ws = None -> forallb Ocr.isReturned ws = true.
Proof.
  revert i. induction ws as [|[f|] ws IH]; intros i H; simpl in *;
    [reflexivity|discriminate|eauto].
Qed.

Lemma firstAwaiting_some i ws j :
  Ocr.firstAwaiting i ws = Some j ->
  exists f, nth_error ws (j - i) = Some (Ocr.Awaiting f) /\ i <= j.
Proof.
  revert i. induction ws as [|[f|] ws IH]; intros i H; simpl in *.
  - discriminate.
  - injection H as <-. exists f. rewrite Nat.sub_diag. auto.
  - destruct (IH _ H) as [f [H1 H2]]. exists f. split; [|lia].
    replace (j - i) with (S (j - S i)) by lia. exact H1.
Qed.

Lemma launch_pending p : pending (Ocr.launch p) = pending p.
Proof.
  unfold pending, Ocr.launch. destruct (Ocr.queue p) as [|g q]; simpl;
    rewrite filter_app, length_app; simpl; lia.
Qed.

Lemma start_pending frames workers :
  pending (Ocr.start frames workers) = List.length frames.
Proof.
  unfold Ocr.start.
  induction (Z.to_nat (Z.min workers (Z.of_nat (List.length frames)))) as [|n IH].
  - reflexivity.
  - simpl. now rewrite launch_pending.
Qed.

Section RunFacts.
Variable tesseract : string -> string -> option string.
Variable lang : string.

Lemma resume_pending p i p' :
  Ocr.resume tesseract lang p i = Some p' -> S (pending p') = pending p.
Proof.
  unfold Ocr.resume. intro H.
  destruct (nth_error (Ocr.workerStates p) i) as [[f|]|] eqn:Ei; try discriminate.
  unfold pending.
  destruct (Ocr.queue p) as [|g q]; simpl in H; injection H as <-;
    cbn [Ocr.workerStates Ocr.queue];
    pose proof (count_setNth (Ocr.workerStates p) i f) as Hc.
  - specialize (Hc Ocr.Returned Ei). simpl in *. lia.
  - specialize (Hc (Ocr.Awaiting g) Ei). simpl in *. lia.
Qed.

(** The schedule of [run] is one of the possible schedules, and with
    enough fuel it ends with every call returned. *)
Lemma run_steps fuel p : Ocr.steps tesseract lang p (Ocr.run tesseract lang fuel p).
Proof.
  revert p. induction fuel as [|fuel IH]; intro p; simpl; [constructor|].
  destruct (Ocr.firstAwaiting 0 (Ocr.workerStates p)) as [i|]; [|constructor].
  destruct (Ocr.resume tesseract lang p i) as [p'|] eqn:E; [|constructor].
  econstructor; [exists i; exact E | apply IH].
Qed.

Lemma run_settled fuel p :
  pending p <= fuel -> Ocr.settled (Ocr.run tesseract lang fuel p) = true.
Proof.
  revert p. induction fuel as [|fuel IH]; intros p Hp; simpl.
  - unfold pending in Hp. unfold Ocr.settled.
    assert (H0 : filter (fun w => negb (Ocr.isReturned w)) (Ocr.workerStates p) = [])
      by (apply length_zero_iff_nil; lia).
    apply forallb_forall. intros w Hw.
    destruct (Ocr.isReturned w) eqn:E; [reflexivity|].
    assert (Hin : In w (filter (fun w => negb (Ocr.isReturned w)) (Ocr.workerStates p)))
      by (apply filter_In; rewrite E; auto).
    rewrite H0 in Hin. contradiction.
  - destruct (Ocr.firstAwaiting 0 (Ocr.workerStates p)) as [i|] eqn:Ef.
    + destruct (firstAwaiting_some _ _ _ Ef) as [f [Hn _]].
      rewrite Nat.sub_0_r in Hn.
      destruct (Ocr.resume tesseract lang p i) as [p'|] eqn:E.
      * apply IH. apply resume_pending in E. lia.
      * unfold Ocr.resume in E. rewrite Hn in E.
        destruct (Ocr.enterLoop (Ocr.queue p)); discriminate.
    + now apply firstAwaiting_none in Ef.
Qed.

(** With at least one worker, every schedule that lets [Promise.all]
    resolve leaves the same association: every frame, once, with its OCR
    text, the empty text where the OCR process failed. *)
Lemma pool_complete frames workers p :
  (1 <= workers)%Z ->
  Ocr.steps tesseract lang (Ocr.start frames workers) p ->
  Ocr.settled p = true ->
  NoDup (JsMap.keys (Ocr.results p))
  /\ (forall f, In f (JsMap.keys (Ocr.results p)) <-> In f frames)
  /\ (forall f, In f frames ->
                JsMap.get String.eqb (Ocr.results p) f
                = Some (match tesseract f lang with Some out => out | None => "" end)).
Proof.
  intros Hw Hsteps Hs.
  apply (settled_results tesseract frames lang p); [|assumption].
  eapply steps_invariant; [exact Hsteps|]. now apply start_invariant.
Qed.

Lemma ocrAllFrames_complete frames workers :
  (1 <= workers)%Z ->
  let ocrResults := Ocr.ocrAllFrames tesseract frames lang workers in
  NoDup (JsMap.keys ocrResults)
  /\ (forall f, In f (JsMap.keys ocrResults) <-> In f frames)
  /\ (forall f, In f frames ->
                JsMap.get String.eqb ocrResults f
                = Some (match tesseract f lang with Some out => out | None => "" end)).
Proof.
  intros Hw ocrResults. unfold ocrResults, Ocr.ocrAllFrames.
  apply pool_complete with (frames := frames) (workers := workers).
  - assumption.
  - apply run_steps.
  - apply run_settled. now rewrite start_pending.
Qed.

(** Without a worker no call is launched: [Promise.all] resolves at once
    and the map stays empty. *)
Lemma start_without_workers frames workers :
  (workers <= 0)%Z ->
  Ocr.start frames workers
  = {| Ocr.queue := frames; Ocr.results := []; Ocr.completed := 0;
       Ocr.workerStates := [] |}.
Proof.
  intro Hw. unfold Ocr.start.
  replace (Z.to_nat (Z.min workers (Z.of_nat (List.length frames)))) with 0 by lia.
  reflexivity.
Qed.

Lemma ocrAllFrames_without_workers frames workers :
  (workers <= 0)%Z -> Ocr.ocrAllFrames tesseract frames lang workers = [].
Proof.
  intro Hw. unfold Ocr.ocrAllFrames. rewrite start_without_workers by assumption.
  destruct (List.length frames); reflexivity.
Qed.
End RunFacts.

(** C7 (evaluation at the failing input).  With a worker count of zero, which
    the upload route passes on for the query [workers=0], the pool launches
    no call: [Promise.all] resolves at once, no step is possible, and the map
    [ocrAllFrames] resolves to has no entry for the one sampled frame, whatever
    the OCR process would print for it. *)
Theorem ocr_zero_workers (tesseract : string -> string -> option string) :
  let p := Ocr.start ["frame_000001.jpg"] 0 in
  Ocr.settled p = true
  /\ (forall i, Ocr.resume tesseract "eng" p i = None)
  /\ Ocr.ocrAllFrames tesseract ["frame_000001.jpg"] "eng" 0 = []
  /\ JsMap.get String.eqb (Ocr.ocrAllFrames tesseract ["frame_000001.jpg"] "eng" 0)
                 "frame_000001.jpg" = None.
Proof.
  cbv zeta. repeat split.
  intro i. unfold Ocr.resume. simpl. now destruct i.
Qed.

(** ** C6: the choice of the clustering strategy *)

Lemma roundSqrtHalf_rounds (n : nat) : roundsTo (sqrt (INR n / 2)) (roundSqrtHalf n).
Proof.
  unfold roundsTo, roundSqrtHalf.
  set (z := (2 * Z.of_nat n)%Z).
  assert (Hz : (0 <= z)%Z) by (unfold z; lia).
  pose proof (Z.sqrt_spec z Hz) as [Hlo Hhi].
  pose proof (Z.sqrt_nonneg z) as Hs.
  set (s := Z.sqrt z) in *.
  set (k := ((s + 1) / 2)%Z).
  assert (Hk : (2 * k = s + 1 \/ 2 * k = s)%Z).
  { unfold k. pose proof (Z.div_mod (s + 1) 2 ltac:(lia)).
    pose proof (Z.mod_pos_bound (s + 1) 2 ltac:(lia)). lia. }
  assert (Hlow : ((2 * k - 1) * (2 * k - 1) <= z \/ k = 0)%Z) by (destruct Hk; nia).
  assert (Hupp : (z < (2 * k + 1) * (2 * k + 1))%Z) by (destruct Hk; nia).
  assert (Hx : (INR n / 2 = IZR z / 4)%R).
  { unfold z. rewrite mult_IZR, <- INR_IZR_INZ. field. }
  assert (Hx0 : (0 <= INR n / 2)%R) by (pose proof (pos_INR n); lra).
  assert (Hk0 : (0 <= k)%Z) by lia.
  split.
  - destruct (Z.eq_dec k 0) as [->|Hkne].
    + pose proof (sqrt_pos (INR n / 2)). simpl. lra.
    + destruct Hlow as [Hlow|]; [|contradiction].
      assert (Hpos : (0 <= IZR k - 1 / 2)%R).
      { assert (1 <= k)%Z by lia. apply IZR_le in H. lra. }
      rewrite <- (sqrt_square (IZR k - 1 / 2)) by assumption.
      apply sqrt_le_1_alt. rewrite Hx.
      apply IZR_le in Hlow. rewrite mult_IZR, minus_IZR, mult_IZR in Hlow. lra.
  - assert (Hpos : (0 <= IZR k + 1 / 2)%R) by (apply IZR_le in Hk0; lra).
    rewrite <- (sqrt_square (IZR k + 1 / 2)) by assumption.
    apply sqrt_lt_1_alt. split; [assumption|]. rewrite Hx.
    apply IZR_lt in Hupp. rewrite mult_IZR, plus_IZR, mult_IZR in Hupp. lra.
Qed.

Section StrategyFacts.
Context {num : Type} {N : JsNumber num} {L : ClusterLib num}.

(** [clusterKMeans] caps the cluster count itself: capping it before the
    call changes nothing. *)
Lemma clusterKMeans_capped (m : list (list num)) (k : Z) :
  clusterKMeans m (Z.min k (Z.of_nat (List.length m))) = clusterKMeans m k.
Proof.
  unfold clusterKMeans. now rewrite <- Z.min_assoc, Z.min_id.
Qed.
End StrategyFacts.

(** C6.  When at least one frame is vectorized, the labels come from DBSCAN
    whenever [dbscanEps] is given, whether or not [nClusters] is given too;
    otherwise from K-means with [nClusters] when that is given; otherwise
    from K-means with [k = max(1, min(k0, 50))], where [k0] is the integer
    [Math.round] gives for [sqrt(nVectors / 2)]. *)
Theorem strategy_selection {num : Type} {N : JsNumber num} {L : ClusterLib num}
        (options : VideoAnalyzerOptions num) (frames texts : list string) :
  let r := buildTfidfMatrix texts in
  let nVectors := List.length (matrix r) in
  let remap := remapLabels (List.length frames) (originalIndices r) in
  1 <= nVectors ->
  (forall eps, dbscanEps options = Some eps ->
     computeLabels options frames texts = remap (clusterDBSCAN (matrix r) eps 2))
  /\ (forall k, dbscanEps options = None -> nClusters options = Some k ->
        computeLabels options frames texts = remap (clusterKMeans (matrix r) k))
  /\ (dbscanEps options = None -> nClusters options = None ->
      exists k0,
        roundsTo (sqrt (INR nVectors / 2)) k0
        /\ computeLabels options frames texts
           = remap (clusterKMeans (matrix r) (Z.max 1 (Z.min k0 50)))).
Proof.
  intros r nVectors remap Hn. unfold computeLabels. fold r.
  assert (Hlen : (List.length (matrix r) =? 0) = false)
    by (apply Nat.eqb_neq; unfold nVectors in Hn; lia).
  rewrite Hlen. split; [|split].
  - intros eps ->. reflexivity.
  - intros k -> ->. unfold remap. now rewrite clusterKMeans_capped.
  - intros -> ->. exists (roundSqrtHalf nVectors). split.
    + apply roundSqrtHalf_rounds.
    + reflexivity.
Qed.

(** ** Grouping the frames by label *)

Lemma labelEqb_eq (a b : label) : labelEqb a b = true <-> a = b.
Proof.
  destruct a as [x|], b as [y|]; simpl; try (split; congruence).
  rewrite Z.eqb_eq. split; congruence.
Qed.

Lemma pushIndex_appendIndex m l i : pushIndex m l i = appendIndex m l i.
Proof.
  induction m as [|[l' xs] m IH].
  - unfold pushIndex, JsMap.has. cbn [JsMap.get JsMap.set appendIndex].
    rewrite (proj2 (labelEqb_eq l l) eq_refl). reflexivity.
  - unfold pushIndex in *. unfold JsMap.has in *.
    cbn [JsMap.get JsMap.set appendIndex].
    destruct (labelEqb l' l) eqn:E.
    + repeat (cbn [JsMap.get JsMap.set]; rewrite ?E). reflexivity.
    + rewrite <- IH. clear IH.
      destruct (JsMap.get labelEqb m l) as [old|] eqn:Eg.
      * repeat (cbn [JsMap.get JsMap.set]; rewrite ?E, ?Eg). reflexivity.
      * repeat (cbn [JsMap.get JsMap.set]; rewrite ?E).
        destruct (JsMap.get labelEqb (JsMap.set labelEqb m l []) l);
          repeat (cbn [JsMap.get JsMap.set]; rewrite ?E); reflexivity.
Qed.

Lemma appendIndex_keys m l i :
  JsMap.keys (appendIndex m l i)
  = if JsMap.has labelEqb m l then JsMap.keys m else JsMap.keys m ++ [l].
Proof.
  unfold JsMap.has. induction m as [|[l' xs] m IH]; simpl; [reflexivity|].
  destruct (labelEqb l' l) eqn:E; simpl.
  - apply labelEqb_eq in E. now subst.
  - rewrite IH. now destruct (JsMap.get labelEqb m l).
Qed.

Lemma appendIndex_perm m l i :
  Permutation (flat_map snd (appendIndex m l i)) (flat_map snd m ++ [i]).
Proof.
  induction m as [|[l' xs] m IH]; simpl; [reflexivity|].
  destruct (labelEqb l' l); simpl.
  - rewrite <- !app_assoc. apply Permutation_app_head. apply Permutation_app_comm.
  - rewrite <- app_assoc. now apply Permutation_app_head.
Qed.

Lemma appendIndex_in m l i l' idxs :
  NoDup (JsMap.keys m) ->
  In (l', idxs) (appendIndex m l i) ->
  (l' <> l /\ In (l', idxs) m)
  \/ (l' = l /\ ((exists old, In (l, old) m /\ idxs = old ++ [i])
                 \/ (~ In l (JsMap.keys m) /\ idxs = [i]))).
Proof.
  induction m as [|[l0 xs] m IH]; simpl; intro Hnd.
  - intros [H|[]]. injection H as <- <-. right. split; [reflexivity|]. right. tauto.
  - inversion Hnd as [|? ? Hl0 Hnd']; subst.
    destruct (labelEqb l0 l) eqn:E; simpl.
    + apply labelEqb_eq in E. subst l0. intros [H|H].
      * injection H as <- <-. right. split; [reflexivity|]. left. exists xs. auto.
      * left. split; [|auto]. intros ->. apply Hl0.
        change l with (fst (l, idxs)). now apply in_map.
    + assert (Hne : l0 <> l).
      { intros ->. rewrite (proj2 (labelEqb_eq l l) eq_refl) in E. discriminate. }
      intros [H|H].
      * injection H as <- <-. left. auto.
      * destruct (IH Hnd' H) as [[H1 H2]|[-> [[old [H1 H2]]|[H1 H2]]]].
        -- left. auto.
        -- right. split; [reflexivity|]. left. exists old. auto.
        -- right. split; [reflexivity|]. right. split; [|assumption].
           intros [H0|H0]; [contradiction|contradiction].
Qed.

Lemma appendIndex_NoDup m l i :
  NoDup (JsMap.keys m) -> NoDup (JsMap.keys (appendIndex m l i)).
Proof.
  intro Hnd. rewrite appendIndex_keys.
  destruct (JsMap.has labelEqb m l) eqn:E; [assumption|].
  apply NoDup_snoc; [assumption|].
  intro Hin. apply (has_iff labelEqb_eq) in Hin. congruence.
Qed.

Lemma labelIs_bound labels l k : labelIs labels l k = true -> k < List.length labels.
Proof.
  unfold labelIs. destruct (nth_error labels k) eqn:E; [|discriminate].
  intros _. apply nth_error_Some. congruence.
Qed.

Lemma filter_none (A : Type) (p : A -> bool) (l : list A) :
  (forall x, In x l -> p x = false) -> filter p l = [].
Proof.
  induction l as [|x l IH]; intro H; simpl; [reflexivity|].
  rewrite (H x) by now left. apply IH. intros y Hy. apply H. now right.
Qed.

(** The invariant of the grouping loop after the labels [pre], with the
    labels [rest] still to come. *)
Lemma groupFrom_spec rest pre m :
  let all := pre ++ rest in
  let i := List.length pre in
  NoDup (JsMap.keys m) ->
  Permutation (flat_map snd m) (seq 0 i) ->
  (forall l idxs, In (l, idxs) m -> idxs = filter (labelIs all l) (seq 0 i)) ->
  (forall l, In l (JsMap.keys m) <-> In l pre) ->
  let m' := groupFrom i rest m in
  NoDup (JsMap.keys m')
  /\ Permutation (flat_map snd m') (seq 0 (List.length all))
  /\ (forall l idxs, In (l, idxs) m' -> idxs = labelClass all l)
  /\ (forall l, In l (JsMap.keys m') <-> In l all).
Proof.
  revert pre m. induction rest as [|l rest IH]; intros pre m all i Hnd Hperm Hcls Hkeys; simpl.
  - subst all i. rewrite app_nil_r in *. unfold labelClass. auto.
  - rewrite pushIndex_appendIndex.
    assert (Hall : all = (pre ++ [l]) ++ rest) by (subst all; now rewrite <- app_assoc).
    assert (Hlen : List.length (pre ++ [l]) = S i) by (rewrite length_app; simpl; lia).
    assert (Hi : nth_error all i = Some l).
    { subst all i. rewrite nth_error_app2 by lia. now rewrite Nat.sub_diag. }
    specialize (IH (pre ++ [l]) (appendIndex m l i)). cbv zeta in IH.
    rewrite <- Hall, Hlen in IH. apply IH; clear IH.
    + now apply appendIndex_NoDup.
    + rewrite appendIndex_perm. replace (S i) with (i + 1) by lia.
      rewrite seq_app. simpl. now apply Permutation_app_tail.
    + intros l' idxs Hin. replace (S i) with (i + 1) by lia.
      rewrite seq_app, filter_app. simpl. unfold labelIs at 2. rewrite Hi.
      destruct (appendIndex_in m l i l' idxs Hnd Hin)
        as [[H1 H2]|[-> [[old [H1 H2]]|[H1 H2]]]].
      * rewrite (keq_false labelEqb_eq) by congruence.
        rewrite app_nil_r. now apply Hcls.
      * rewrite (proj2 (labelEqb_eq l l) eq_refl). subst idxs. f_equal. now apply Hcls.
      * rewrite (proj2 (labelEqb_eq l l) eq_refl). subst idxs.
        replace (filter (labelIs all l) (seq 0 i)) with (@nil nat); [reflexivity|].
        symmetry. apply filter_none. intros k Hk. apply in_seq in Hk.
        unfold labelIs. destruct (nth_error all k) as [lk|] eqn:Ek; [|reflexivity].
        destruct (labelEqb lk l) eqn:El; [|reflexivity].
        apply labelEqb_eq in El. subst lk. exfalso. apply H1. apply Hkeys.
        subst all. rewrite nth_error_app1 in Ek by (fold i; lia).
        eapply nth_error_In; eassumption.
    + intro l'. rewrite appendIndex_keys, in_app_iff. simpl.
      destruct (JsMap.has labelEqb m l) eqn:E.
      * apply (has_iff labelEqb_eq) in E. rewrite Hkeys in *. intuition (subst; auto).
      * rewrite in_app_iff. simpl. rewrite Hkeys. intuition.
Qed.

Lemma groupByLabel_spec labels :
  let m := groupByLabel labels in
  NoDup (JsMap.keys m)
  /\ Permutation (flat_map snd m) (seq 0 (List.length labels))
  /\ (forall l idxs, In (l, idxs) m -> idxs = labelClass labels l)
  /\ (forall l, In l (JsMap.keys m) <-> In l labels).
Proof.
  unfold groupByLabel.
  apply (groupFrom_spec labels [] []); simpl.
  - constructor.
  - constructor.
  - intros l idxs [].
  - tauto.
Qed.

(** ** Sorting permutes *)

Lemma insertBy_perm (A : Type) (lt : A -> A -> bool) x l :
  Permutation (insertBy lt x l) (x :: l).
Proof.
  induction l as [|y l IH]; simpl; [reflexivity|].
  destruct (lt x y); [reflexivity|].
  rewrite IH. apply perm_swap.
Qed.

Lemma sortBy_perm (A : Type) (lt : A -> A -> bool) l : Permutation (sortBy lt l) l.
Proof.
  unfold sortBy.
  assert (H : forall acc, Permutation (fold_left (fun acc x => insertBy lt x acc) l acc)
                                      (acc ++ l)).
  { induction l as [|x l IH]; intro acc; simpl.
    - now rewrite app_nil_r.
    - rewrite IH, insertBy_perm. apply Permutation_middle. }
  apply (H []).
Qed.

(** ** [mapM] *)

Lemma mapM_Forall2 (A B : Type) (f : A -> result B) xs ys :
  mapM f xs = Ok ys -> Forall2 (fun x y => f x = Ok y) xs ys.
Proof.
  revert ys. induction xs as [|x xs IH]; intros ys H; simpl in H.
  - injection H as <-. constructor.
  - destruct (f x) as [y|e] eqn:Ef; simpl in H; [|discriminate].
    destruct (mapM f xs) as [ys'|e]; simpl in H; [|discriminate].
    injection H as <-. constructor; auto.
Qed.

Lemma mapM_total (A B : Type) (f : A -> result B) xs :
  (forall x, In x xs -> exists y, f x = Ok y) -> exists ys, mapM f xs = Ok ys.
Proof.
  induction xs as [|x xs IH]; intro H; simpl.
  - eauto.
  - destruct (H x) as [y Hy]; [now left|]. rewrite Hy. simpl.
    destruct IH as [ys Hys]; [intros z Hz; apply H; now right|].
    rewrite Hys. simpl. eauto.
Qed.

Lemma mapM_frameAt fs idxs paths :
  mapM (frameAt fs) idxs = Ok paths ->
  paths = map (fun i => nth i fs "") idxs /\ (forall i, In i idxs -> i < List.length fs).
Proof.
  revert paths. induction idxs as [|i idxs IH]; intros paths H; simpl in H.
  - injection H as <-. split; [reflexivity|]. intros i [].
  - unfold frameAt at 1 in H. destruct (nth_error fs i) as [f|] eqn:E; simpl in H; [|discriminate].
    destruct (mapM (frameAt fs) idxs) as [ps|e]; simpl in H; [|discriminate].
    injection H as <-. destruct (IH ps eq_refl) as [-> Hb]. split.
    + simpl. f_equal. symmetry. now apply nth_error_nth.
    + intros k [<-|Hk]; [|auto]. apply nth_error_Some. congruence.
Qed.

Lemma mapM_frameAt_total fs idxs :
  (forall i, In i idxs -> i < List.length fs) -> exists paths, mapM (frameAt fs) idxs = Ok paths.
Proof.
  intro H. apply mapM_total. intros i Hi. unfold frameAt.
  destruct (nth_error fs i) eqn:E; [eauto|].
  apply nth_error_None in E. specialize (H i Hi). lia.
Qed.

(** ** The sorted clusters *)

Lemma averageFrame_ok fs idxs avg :
  averageFrame fs idxs = Ok avg -> forall i, In i idxs -> i < List.length fs.
Proof.
  unfold averageFrame. intro H.
  destruct (mapM _ idxs) as [nums|e] eqn:E; simpl in H; [|discriminate].
  apply mapM_Forall2 in E. intros i Hi.
  clear H. induction E as [|x y xs ys Hxy _ IH]; [contradiction|].
  destruct Hi as [<-|Hi]; [|auto].
  unfold frameAt in Hxy. destruct (nth_error fs x) eqn:En; simpl in Hxy; [|discriminate].
  apply nth_error_Some. congruence.
Qed.

Lemma averageFrame_total fs idxs :
  (forall i, In i idxs -> i < List.length fs) -> exists avg, averageFrame fs idxs = Ok avg.
Proof.
  intro H. unfold averageFrame.
  destruct (mapM_total _ _ (fun i => f <- frameAt fs i ;; Ok (getFrameNumber f)) idxs) as [nums Hn].
  - intros i Hi. unfold frameAt. destruct (nth_error fs i) eqn:E; simpl; [eauto|].
    apply nth_error_None in E. specialize (H i Hi). lia.
  - rewrite Hn. simpl. eauto.
Qed.

Lemma sortClusters_spec fs m cs :
  sortClusters fs m = Ok cs ->
  Permutation (map (fun c => (clusterLabel c, indices c)) cs) m
  /\ (forall c i, In c cs -> In i (indices c) -> i < List.length fs).
Proof.
  unfold sortClusters. intro H.
  destruct (mapM _ m) as [cs0|e] eqn:E; simpl in H; [|discriminate].
  injection H as <-. apply mapM_Forall2 in E.
  assert (H0 : map (fun c => (clusterLabel c, indices c)) cs0 = m
               /\ forall c i, In c cs0 -> In i (indices c) -> i < List.length fs).
  { induction E as [|[l idxs] c m' cs' Hc _ IH]; simpl.
    - split; [reflexivity|]. intros c i [].
    - cbn [fst snd] in Hc.
      destruct (averageFrame fs idxs) as [avg|e] eqn:Ea; simpl in Hc; [|discriminate].
      injection Hc as <-. destruct IH as [IH1 IH2]. simpl in *. split.
      + now rewrite IH1.
      + intros c i [<-|Hin] Hi; [|eauto]. simpl in Hi.
        eapply averageFrame_ok; eassumption. }
  destruct H0 as [H1 H2]. split.
  - rewrite <- H1. apply Permutation_map. apply sortBy_perm.
  - intros c i Hc. apply H2.
    eapply Permutation_in; [apply sortBy_perm|exact Hc].
Qed.

Lemma sortClusters_total fs (m : list (label * list nat)) :
  (forall l idxs i, In (l, idxs) m -> In i idxs -> i < List.length fs) ->
  exists cs, sortClusters fs m = Ok cs.
Proof.
  intro H. unfold sortClusters.
  destruct (mapM_total _ _
              (fun e : label * list nat =>
                 avg <- averageFrame fs (snd e) ;;
                 Ok {| clusterLabel := fst e; indices := snd e; avgFrame := avg |}) m)
    as [cs0 Hcs0].
  - intros [l idxs] Hin. simpl.
    destruct (averageFrame_total fs idxs) as [avg Ha]; [intros i Hi; eapply H; eassumption|].
    rewrite Ha. simpl. eauto.
  - rewrite Hcs0. simpl. eauto.
Qed.

(** ** The label array *)

Lemma jsSet_length l i v : List.length (jsSet l i v) = Nat.max (List.length l) (S i).
Proof.
  revert i. induction l as [|x l IH]; intro i.
  - induction i as [|i IHi]; simpl in *; [reflexivity|]. rewrite IHi. lia.
  - destruct i as [|i]; simpl; [lia|]. rewrite IH. lia.
Qed.

Lemma remapFrom_length_ge orig cl labels :
  List.length labels <= List.length (remapFrom orig cl labels).
Proof.
  revert cl labels. induction orig as [|o orig IH]; intros cl labels.
  - destruct cl; simpl; lia.
  - destruct cl as [|c cl]; simpl; [lia|].
    specialize (IH cl (jsSet labels o c)). rewrite jsSet_length in IH. lia.
Qed.

Lemma remapFrom_length orig cl labels :
  (forall o, In o orig -> o < List.length labels) ->
  List.length (remapFrom orig cl labels) = List.length labels.
Proof.
  revert cl labels. induction orig as [|o orig IH]; intros cl labels H.
  - destruct cl; reflexivity.
  - destruct cl as [|c cl]; simpl; [reflexivity|].
    assert (Ho : o < List.length labels) by (apply H; now left).
    rewrite IH; rewrite jsSet_length; [lia|].
    intros o' Ho'. specialize (H o' (or_intror Ho')). lia.
Qed.

Section LabelFacts.
Context {num : Type} {N : JsNumber num} {L : ClusterLib num}.

Lemma computeLabels_length_ge options fs ts :
  List.length fs <= List.length (computeLabels options fs ts).
Proof.
  unfold computeLabels, remapLabels.
  destruct (List.length (matrix (buildTfidfMatrix ts)) =? 0).
  - now rewrite repeat_length.
  - destruct (dbscanEps options); [|destruct (nClusters options)];
      (eapply Nat.le_trans; [|apply remapFrom_length_ge]); now rewrite repeat_length.
Qed.

Lemma computeLabels_length options fs ts :
  List.length ts = List.length fs ->
  List.length (computeLabels options fs ts) = List.length fs.
Proof.
  intro Hlen. unfold computeLabels, remapLabels.
  assert (Hb : forall o, In o (originalIndices (buildTfidfMatrix ts)) ->
                         o < List.length (repeat NOISE (List.length fs))).
  { intros o Ho. rewrite repeat_length, <- Hlen.
    rewrite originalIndices_textIndices in Ho.
    destruct (In_nth_error _ _ Ho) as [b Hb]. eapply textIndices_bound; eassumption. }
  destruct (List.length (matrix (buildTfidfMatrix ts)) =? 0).
  - now rewrite repeat_length.
  - destruct (dbscanEps options); [|destruct (nClusters options)];
      rewrite remapFrom_length by assumption; now rewrite repeat_length.
Qed.
End LabelFacts.

(** ** The groups *)

Section GroupFacts.
Context {num : Type} {N : JsNumber num}.

Lemma bestFrom_bound (c : list num) rows i bestIdx best :
  bestIdx < i \/ (rows <> [] /\ best = None) ->
  bestFrom i rows c bestIdx best < i + List.length rows.
Proof.
  revert i bestIdx best. induction rows as [|row rows IH]; intros i bestIdx best H; simpl.
  - destruct H as [H|[H _]]; [lia|contradiction].
  - destruct best as [s|].
    + destruct H as [H|[_ H]]; [|discriminate].
      destruct (nGtb (cosineSimilarity row c) s).
      * specialize (IH (S i) i (Some (cosineSimilarity row c))). lia.
      * specialize (IH (S i) bestIdx (Some s)). lia.
    + specialize (IH (S i) i (Some (cosineSimilarity row c))). lia.
Qed.

Lemma bestFrom_bound_alt (c : list num) rows i bestIdx best :
  bestIdx < i -> bestFrom i rows c bestIdx best < i + List.length rows.
Proof. intro H. apply bestFrom_bound. now left. Qed.

(** [selectRepresentative] returns a frame of the group whenever the group
    is not empty and has one text per frame. *)
Lemma selectRepresentative_total paths texts :
  paths <> [] -> List.length texts = List.length paths ->
  exists p, selectRepresentative paths texts = Ok p.
Proof.
  intros Hne Hlen. unfold selectRepresentative.
  destruct paths as [|p0 [|p1 paths']]; [contradiction|eauto|].
  set (paths := p0 :: p1 :: paths') in *.
  assert (Hpath : forall b, b < List.length (textIndices texts) ->
                            exists p, pathAt paths (nth b (textIndices texts) 0) = Ok p).
  { intros b Hb. destruct (nth_error (textIndices texts) b) as [i|] eqn:Ei.
    2:{ apply nth_error_None in Ei. lia. }
    rewrite (nth_error_nth _ _ 0 Ei). unfold pathAt.
    pose proof (textIndices_bound texts b i Ei) as Hi.
    destruct (nth_error paths i) eqn:Ep; [eauto|].
    apply nth_error_None in Ep. lia. }
  pose proof (originalIndices_length (num := num) texts) as Hol.
  rewrite originalIndices_textIndices in *.
  destruct (matrix (buildTfidfMatrix texts)) as [|row0 [|row1 rest]] eqn:Em.
  - eauto.
  - apply Hpath. rewrite Hol. simpl. lia.
  - apply Hpath. rewrite Hol.
    apply (bestFrom_bound _ (row0 :: row1 :: rest) 0 0 None).
    right. split; [discriminate|reflexivity].
Qed.

Lemma textsAt_total ts idxs :
  (forall i, In i idxs -> i < List.length ts) ->
  exists groupTexts, textsAt ts idxs = Some groupTexts
                     /\ List.length groupTexts = List.length idxs.
Proof.
  induction idxs as [|i idxs IH]; intro H; simpl.
  - exists []. auto.
  - destruct IH as [gt [Hgt Hl]]; [intros k Hk; apply H; now right|].
    destruct (nth_error ts i) as [t|] eqn:E.
    + rewrite Hgt. exists (t :: gt). simpl. auto.
    + apply nth_error_None in E. specialize (H i (or_introl eq_refl)). lia.
Qed.

Lemma makeGroup_spec dir fs ts gi c g :
  makeGroup dir fs ts gi c = Ok g ->
  groupMembers fs (indices c) g /\ groupIndex g = gi + 1.
Proof.
  unfold makeGroup. intro H.
  destruct (mapM (frameAt fs) (indices c)) as [paths|e] eqn:Ep; simpl in H; [|discriminate].
  destruct (selectGroupRepresentative paths (textsAt ts (indices c))) as [rep|e];
    simpl in H; [|discriminate].
  injection H as <-. apply mapM_frameAt in Ep. destruct Ep as [-> _].
  split; [|reflexivity]. split; cbn [frameCount frames]; [reflexivity|].
  rewrite sortBy_perm, map_map. reflexivity.
Qed.

Lemma makeGroup_total dir fs ts gi c :
  List.length ts = List.length fs ->
  indices c <> [] ->
  (forall i, In i (indices c) -> i < List.length fs) ->
  exists g, makeGroup dir fs ts gi c = Ok g.
Proof.
  intros Hlen Hne Hb. unfold makeGroup.
  destruct (mapM_frameAt_total fs (indices c) Hb) as [paths Hp]. rewrite Hp. simpl.
  destruct (textsAt_total ts (indices c)) as [gt [Hgt Hl]];
    [intros i Hi; rewrite Hlen; auto|].
  rewrite Hgt. cbn [selectGroupRepresentative].
  apply mapM_frameAt in Hp. destruct Hp as [-> _].
  destruct (selectRepresentative_total (map (fun i => nth i fs "") (indices c)) gt)
    as [rep Hrep].
  - destruct (indices c); [contradiction|discriminate].
  - now rewrite length_map.
  - rewrite Hrep. simpl. eauto.
Qed.

Lemma makeGroups_spec dir fs ts gi cs gs :
  makeGroups dir fs ts gi cs = Ok gs ->
  Forall2 (fun c g => groupMembers fs (indices c) g) cs gs.
Proof.
  revert gi gs. induction cs as [|c cs IH]; intros gi gs H; simpl in H.
  - injection H as <-. constructor.
  - destruct (makeGroup dir fs ts gi c) as [g|e] eqn:Eg; simpl in H; [|discriminate].
    destruct (makeGroups dir fs ts (S gi) cs) as [gs'|e] eqn:Egs; simpl in H; [|discriminate].
    injection H as <-. constructor.
    + apply makeGroup_spec in Eg. tauto.
    + eapply IH. eassumption.
Qed.

Lemma makeGroups_total dir fs ts gi cs :
  List.length ts = List.length fs ->
  (forall c, In c cs -> indices c <> []
                        /\ forall i, In i (indices c) -> i < List.length fs) ->
  exists gs, makeGroups dir fs ts gi cs = Ok gs.
Proof.
  intros Hlen. revert gi. induction cs as [|c cs IH]; intros gi H; simpl.
  - eauto.
  - destruct (H c (or_introl eq_refl)) as [H1 H2].
    destruct (makeGroup_total dir fs ts gi c Hlen H1 H2) as [g Hg]. rewrite Hg. simpl.
    destruct (IH (S gi)) as [gs Hgs]; [intros c' Hc'; apply H; now right|].
    rewrite Hgs. simpl. eauto.
Qed.
End GroupFacts.

Lemma flat_map_map (A B C : Type) (f : A -> B) (g : B -> list C) (l : list A) :
  flat_map g (map f l) = flat_map (fun x => g (f x)) l.
Proof. induction l as [|x l IH]; simpl; congruence. Qed.

Lemma Forall2_map_left (A B C : Type) (f : A -> B) (P : B -> C -> Prop) l l' :
  Forall2 (fun x y => P (f x) y) l l' -> Forall2 P (map f l) l'.
Proof. induction 1; simpl; constructor; auto. Qed.

Lemma Forall2_impl_in (A B : Type) (P Q : A -> B -> Prop) l l' :
  (forall x y, In x l -> P x y -> Q x y) -> Forall2 P l l' -> Forall2 Q l l'.
Proof.
  intros H F. induction F as [|x y l l' Hxy F IH]; constructor.
  - apply H; [now left|assumption].
  - apply IH. intros a b Ha. apply H. now right.
Qed.

Section PipelineFacts.
Context {num : Type} {N : JsNumber num} {L : ClusterLib num}.

(** What a result of steps 3 and 4 looks like. *)
Lemma clusterAndGroup_spec options vp od f fs ts r :
  clusterAndGroup options vp od f fs ts = Ok r ->
  let labels := computeLabels options fs ts in
  List.length labels = List.length fs
  /\ totalFrames r = List.length fs
  /\ groupsByLabel fs labels (groups r)
  /\ representativeFramePaths r = map representativeFrame (groups r).
Proof.
  intros H labels. unfold clusterAndGroup in H. fold labels in H.
  destruct (sortClusters fs (groupByLabel labels)) as [cs|e] eqn:Ecs; simpl in H; [|discriminate].
  destruct (makeGroups _ fs ts 0 cs) as [gs|e] eqn:Egs; simpl in H; [|discriminate].
  injection H as <-. cbn [totalFrames groups representativeFramePaths].
  destruct (sortClusters_spec fs _ cs Ecs) as [Hperm Hbound].
  destruct (groupByLabel_spec labels) as [Hnd [Hseq [Hcls Hkeys]]].
  set (m := groupByLabel labels) in *.
  assert (Hin : forall c, In c cs -> In (clusterLabel c, indices c) m).
  { intros c Hc. eapply Permutation_in; [exact Hperm|].
    apply (in_map (fun c => (clusterLabel c, indices c))). exact Hc. }
  assert (Hflat : Permutation (flat_map indices cs) (seq 0 (List.length labels))).
  { rewrite <- Hseq, <- Hperm. now rewrite flat_map_map. }
  assert (Hlen : List.length labels = List.length fs).
  { pose proof (computeLabels_length_ge options fs ts) as Hge. fold labels in Hge.
    destruct (Nat.eq_dec (List.length labels) (List.length fs)) as [E|E]; [exact E|].
    exfalso.
    assert (Hk : In (List.length fs) (flat_map indices cs)).
    { eapply Permutation_in; [symmetry; exact Hflat|]. apply in_seq. lia. }
    apply in_flat_map in Hk. destruct Hk as [c [Hc Hk]].
    specialize (Hbound c _ Hc Hk). lia. }
  split; [exact Hlen|]. split; [reflexivity|]. split; [|reflexivity].
  exists (map clusterLabel cs). split; [|split; [|split]].
  - assert (Hk : Permutation (map clusterLabel cs) (JsMap.keys m)).
    { unfold JsMap.keys. rewrite <- Hperm, map_map. reflexivity. }
    eapply Permutation_NoDup; [symmetry; exact Hk|exact Hnd].
  - intro l. rewrite <- Hkeys. unfold JsMap.keys. rewrite <- Hperm, map_map. reflexivity.
  - apply Forall2_map_left.
    apply Forall2_impl_in with (P := fun c g => groupMembers fs (indices c) g).
    + intros c g Hc Hg. rewrite <- (Hcls _ _ (Hin c Hc)). exact Hg.
    + eapply makeGroups_spec. exact Egs.
  - rewrite <- Hlen, <- Hflat, flat_map_map.
    assert (Heq : forall cs', (forall c, In c cs' -> In c cs) ->
                 flat_map (fun c => labelClass labels (clusterLabel c)) cs'
                 = flat_map indices cs').
    { induction cs' as [|c cs' IH]; intro Hsub; simpl; [reflexivity|].
      rewrite IH by (intros c' Hc'; apply Hsub; now right).
      rewrite <- (Hcls _ _ (Hin c (Hsub c (or_introl eq_refl)))). reflexivity. }
    rewrite Heq by auto. reflexivity.
Qed.

(** With one text per frame, steps 3 and 4 produce a result. *)
Lemma clusterAndGroup_total options vp od f fs ts :
  List.length ts = List.length fs ->
  exists r, clusterAndGroup options vp od f fs ts = Ok r.
Proof.
  intro Hlen. unfold clusterAndGroup.
  set (labels := computeLabels options fs ts).
  pose proof (computeLabels_length options fs ts Hlen) as Hl. fold labels in Hl.
  destruct (groupByLabel_spec labels) as [Hnd [Hseq [Hcls Hkeys]]].
  set (m := groupByLabel labels) in *.
  assert (Hb : forall l idxs i, In (l, idxs) m -> In i idxs -> i < List.length fs).
  { intros l idxs i Hin Hi. rewrite (Hcls _ _ Hin) in Hi.
    unfold labelClass in Hi. apply filter_In in Hi. destruct Hi as [Hi _].
    apply in_seq in Hi. lia. }
  destruct (sortClusters_total fs m Hb) as [cs Hcs]. rewrite Hcs. simpl.
  destruct (sortClusters_spec fs m cs Hcs) as [Hperm Hbound].
  destruct (makeGroups_total (Path.join od "representative_frames") fs ts 0 cs Hlen)
    as [gs Hgs].
  - intros c Hc. split; [|intros i Hi; eapply Hbound; eassumption].
    assert (Hin : In (clusterLabel c, indices c) m).
    { eapply Permutation_in; [exact Hperm|].
      apply (in_map (fun c => (clusterLabel c, indices c))). exact Hc. }
    assert (Hlab : In (clusterLabel c) labels).
    { apply Hkeys. change (clusterLabel c) with (fst (clusterLabel c, indices c)).
      now apply in_map. }
    rewrite (Hcls _ _ Hin). destruct (In_nth_error _ _ Hlab) as [k Hk].
    intro Hnil.
    assert (Hkin : In k (labelClass labels (clusterLabel c))).
    { unfold labelClass. apply filter_In. split.
      - apply in_seq. split; [lia|]. simpl. apply nth_error_Some. congruence.
      - unfold labelIs. rewrite Hk. now apply labelEqb_eq. }
    rewrite Hnil in Hkin. contradiction.
  - rewrite Hgs. simpl. eauto.
Qed.
End PipelineFacts.

(** ** From the label classes to a partition of the frame indices *)

Lemma in_labelClass labels l i :
  In i (labelClass labels l) <-> nth_error labels i = Some l.
Proof.
  unfold labelClass. rewrite filter_In, in_seq. unfold labelIs. split.
  - intros [_ H]. destruct (nth_error labels i) as [l'|]; [|discriminate].
    apply labelEqb_eq in H. congruence.
  - intro H. rewrite H. split.
    + split; [lia|]. simpl. apply nth_error_Some. congruence.
    + now apply labelEqb_eq.
Qed.

Lemma NoDup_app_disjoint (A : Type) (l1 l2 : list A) a :
  NoDup (l1 ++ l2) -> In a l1 -> In a l2 -> False.
Proof.
  induction l1 as [|x l1 IH]; simpl; intros Hnd H1 H2; [contradiction|].
  inversion Hnd as [|? ? Hx Hnd']; subst. destruct H1 as [->|H1].
  - apply Hx. apply in_or_app. now right.
  - now apply IH.
Qed.

Lemma in_nth_concat (A : Type) (parts : list (list A)) j a :
  In a (nth j parts []) -> In a (List.concat parts).
Proof.
  revert j. induction parts as [|p parts IH]; intros j H.
  - destruct j; contradiction.
  - simpl. apply in_or_app. destruct j as [|j]; simpl in H; [now left|].
    right. eapply IH. eassumption.
Qed.

Lemma concat_unique (A : Type) (parts : list (list A)) a j j' :
  NoDup (List.concat parts) -> In a (nth j parts []) -> In a (nth j' parts []) -> j = j'.
Proof.
  revert j j'. induction parts as [|p parts IH]; intros j j' Hnd H H'.
  - destruct j; contradiction.
  - simpl in Hnd. destruct j as [|j], j' as [|j']; simpl in H, H'.
    + reflexivity.
    + exfalso. eapply NoDup_app_disjoint; [exact Hnd|exact H|].
      eapply in_nth_concat. eassumption.
    + exfalso. eapply NoDup_app_disjoint; [exact Hnd|exact H'|].
      eapply in_nth_concat. eassumption.
    + f_equal. apply IH; [|assumption|assumption].
      eapply NoDup_app_remove_l. eassumption.
Qed.

Lemma Forall2_frameCount fs parts gs :
  Forall2 (groupMembers fs) parts gs ->
  list_sum (map frameCount gs) = List.length (List.concat parts).
Proof.
  induction 1 as [|idxs g parts gs [Hc _] _ IH]; simpl; [reflexivity|].
  rewrite length_app, IH, Hc. reflexivity.
Qed.

(** Every frame lies in exactly one part, and the part of a frame holds
    exactly the frames that carry its label. *)
Lemma groups_parts fs labels gs :
  groupsByLabel fs labels gs ->
  List.length labels = List.length fs ->
  exists parts,
    Forall2 (groupMembers fs) parts gs
    /\ Permutation (List.concat parts) (seq 0 (List.length fs))
    /\ list_sum (map frameCount gs) = List.length fs
    /\ (forall i l, nth_error labels i = Some l ->
          exists k, In i (nth k parts [])
                    /\ (forall k', In i (nth k' parts []) -> k' = k)
                    /\ (forall i', In i' (nth k parts []) <-> nth_error labels i' = Some l)).
Proof.
  intros [ls [Hnd [Hls [Hf2 Hperm]]]] Hlen.
  exists (map (labelClass labels) ls).
  assert (Hconcat : Permutation (List.concat (map (labelClass labels) ls))
                                (seq 0 (List.length fs)))
    by (now rewrite <- flat_map_concat_map).
  assert (HNoDup : NoDup (List.concat (map (labelClass labels) ls))).
  { eapply Permutation_NoDup; [symmetry; exact Hconcat|apply seq_NoDup]. }
  assert (Hparts : Forall2 (groupMembers fs) (map (labelClass labels) ls) gs)
    by (now apply Forall2_map_left).
  split; [exact Hparts|]. split; [exact Hconcat|]. split.
  - rewrite (Forall2_frameCount fs _ gs Hparts).
    rewrite (Permutation_length Hconcat). apply length_seq.
  - intros i l Hi.
    assert (Hl : In l ls) by (apply Hls; eapply nth_error_In; eassumption).
    destruct (In_nth_error _ _ Hl) as [k Hk].
    assert (Hnth : nth k (map (labelClass labels) ls) [] = labelClass labels l).
    { apply nth_error_nth. now rewrite nth_error_map, Hk. }
    exists k. rewrite Hnth. split; [now apply in_labelClass|]. split.
    + intros k' Hk'. eapply concat_unique; [exact HNoDup|exact Hk'|].
      rewrite Hnth. now apply in_labelClass.
    + intro i'. apply in_labelClass.
Qed.

(** ** The whole run *)

Section RunFactsPipeline.
Context {num : Type} {N : JsNumber num} {L : ClusterLib num}.

Lemma frameTexts_length (w : World num) options :
  cacheAligned w options ->
  List.length (frameTexts w options) = List.length (sampledFrames w options).
Proof.
  unfold cacheAligned, frameTexts, sampledFrames.
  destruct (loadCache w (videoHashOf w options)); [auto|].
  intros _. apply length_map.
Qed.

(** A run either stops at the empty extraction or goes through steps 3
    and 4 with its frames and texts. *)
Lemma analyzeVideo_cases (w : World num) options :
  (loadCache w (videoHashOf w options) = None
   /\ sampledFrames w options = []
   /\ exists r, analyzeVideo w options = Ok r
                /\ totalFrames r = 0 /\ groups r = []
                /\ representativeFramePaths r = [])
  \/ (exists vp od f,
        analyzeVideo w options
        = clusterAndGroup options vp od f (sampledFrames w options) (frameTexts w options)).
Proof.
  unfold analyzeVideo, sampledFrames, frameTexts, videoHashOf.
  destruct (loadCache w (hashFile w (pathResolve w (videoPath options)))) as [cached|] eqn:Ec.
  - right. eauto.
  - destruct (extractFrames w _ _) as [|f0 fs] eqn:Ef.
    + left. simpl. split; [reflexivity|]. split; [reflexivity|]. eauto 10.
    + right. cbn [List.length Nat.eqb]. do 3 eexists.
      unfold sampledFrames, videoHashOf. rewrite Ec, Ef. reflexivity.
Qed.

Lemma analyzeVideo_total (w : World num) options :
  cacheAligned w options -> exists r, analyzeVideo w options = Ok r.
Proof.
  intro Ha. destruct (analyzeVideo_cases w options) as [[_ [_ [r [Hr _]]]]|[vp [od [f Hr]]]].
  - eauto.
  - rewrite Hr. apply clusterAndGroup_total. now apply frameTexts_length.
Qed.

Lemma analyzeVideo_groups (w : World num) options r :
  analyzeVideo w options = Ok r ->
  List.length (runLabels w options) = List.length (sampledFrames w options)
  /\ totalFrames r = List.length (sampledFrames w options)
  /\ groupsByLabel (sampledFrames w options) (runLabels w options) (groups r).
Proof.
  intro Hr.
  destruct (analyzeVideo_cases w options)
    as [[Hc [Hf [r' [Hr' [Ht [Hg _]]]]]]|[vp [od [f Hcg]]]].
  - assert (r' = r) by congruence. subst r'.
    assert (Hl : runLabels w options = []).
    { unfold runLabels, frameTexts. rewrite Hc, Hf. reflexivity. }
    rewrite Hl, Hf, Ht, Hg. split; [reflexivity|]. split; [reflexivity|].
    exists []. repeat split; try constructor; simpl; tauto.
  - rewrite Hcg in Hr. apply clusterAndGroup_spec in Hr. unfold runLabels. tauto.
Qed.
End RunFactsPipeline.

(** *** C8: no frame extracted *)

(** C8.  When the cache has no record and the decoder extracts no frame, the
    run returns a result (no exception) with [totalFrames = 0], no group and
    no representative frame path. *)
Theorem zero_frames {num : Type} {N : JsNumber num} {L : ClusterLib num}
        (w : World num) (options : VideoAnalyzerOptions num) :
  loadCache w (videoHashOf w options) = None ->
  extractFrames w (pathResolve w (videoPath options))
                (getCacheDir w (videoHashOf w options)) = [] ->
  exists r, analyzeVideo w options = Ok r
            /\ totalFrames r = 0
            /\ groups r = []
            /\ representativeFramePaths r = [].
Proof.
  intros Hc Hf. unfold analyzeVideo. unfold videoHashOf in Hc, Hf.
  rewrite Hc, Hf. simpl. eauto.
Qed.

(** *** C10: the groups partition the frames *)

(** C10.  A run whose cache record, if there is one, holds one text per frame
    returns a result.  In every result, [totalFrames] is the number of
    sampled frames, and there are index sets [parts], one per group in the
    order of the groups, such that each group lists exactly the frames at the
    indices of its set and counts them in [frameCount]; the sets taken
    together are a rearrangement of [0, ..., totalFrames - 1], so that every
    frame index lies in exactly one of them; and the [frameCount]s add up to
    [totalFrames]. *)
Theorem groups_partition {num : Type} {N : JsNumber num} {L : ClusterLib num}
        (w : World num) (options : VideoAnalyzerOptions num) :
  (cacheAligned w options -> exists r, analyzeVideo w options = Ok r)
  /\ forall r, analyzeVideo w options = Ok r ->
       totalFrames r = List.length (sampledFrames w options)
       /\ exists parts,
            Forall2 (groupMembers (sampledFrames w options)) parts (groups r)
            /\ Permutation (List.concat parts) (seq 0 (totalFrames r))
            /\ (forall i, i < totalFrames r ->
                  exists k, In i (nth k parts [])
                            /\ forall k', In i (nth k' parts []) -> k' = k)
            /\ list_sum (map frameCount (groups r)) = totalFrames r.
Proof.
  split; [apply analyzeVideo_total|].
  intros r Hr. destruct (analyzeVideo_groups w options r Hr) as [Hlen [Ht Hg]].
  split; [exact Ht|].
  destruct (groups_parts _ _ _ Hg Hlen) as [parts [Hf2 [Hperm [Hsum Hcls]]]].
  exists parts. rewrite Ht. split; [exact Hf2|]. split; [exact Hperm|].
  split; [|exact Hsum].
  intros i Hi. rewrite <- Hlen in Hi.
  destruct (nth_error (runLabels w options) i) as [l|] eqn:El.
  2:{ apply nth_error_None in El. lia. }
  destruct (Hcls i l El) as [k [H1 [H2 _]]]. exists k. auto.
Qed.

(** ** Mapping the cluster labels back to the frames *)

Lemma nonEmptyFrom_ge s texts k : In k (fst (nonEmptyFrom s texts)) -> s <= k.
Proof.
  revert s. induction texts as [|t r IH]; intros s H; simpl in H; [contradiction|].
  specialize (IH (S s)). destruct (nonEmptyFrom (S s) r) as [idx ts].
  destruct (0 <? String.length (Js.trim t)); simpl in *.
  - destruct H as [<-|H]; [lia|]. specialize (IH H). lia.
  - specialize (IH H). lia.
Qed.

Lemma nonEmptyFrom_NoDup s texts : NoDup (fst (nonEmptyFrom s texts)).
Proof.
  revert s. induction texts as [|t r IH]; intro s; simpl; [constructor|].
  pose proof (nonEmptyFrom_ge (S s) r) as Hge. specialize (IH (S s)).
  destruct (nonEmptyFrom (S s) r) as [idx ts].
  destruct (0 <? String.length (Js.trim t)); simpl in *; [|assumption].
  constructor; [|assumption]. intro H. specialize (Hge s H). lia.
Qed.

Lemma jsSet_nth_same l i v : nth_error (jsSet l i v) i = Some v.
Proof.
  revert i. induction l as [|x l IH]; intro i.
  - induction i as [|i IHi]; simpl; auto.
  - destruct i as [|i]; simpl; auto.
Qed.

Lemma jsSet_nth_other l i v k :
  k <> i -> i < List.length l -> nth_error (jsSet l i v) k = nth_error l k.
Proof.
  revert i k. induction l as [|x l IH]; intros i k Hne Hi; simpl in Hi; [lia|].
  destruct i as [|i], k as [|k]; simpl; try reflexivity; try congruence.
  apply IH; lia.
Qed.

Lemma remapFrom_other orig cl labels k :
  ~ In k orig -> (forall o, In o orig -> o < List.length labels) ->
  nth_error (remapFrom orig cl labels) k = nth_error labels k.
Proof.
  revert cl labels. induction orig as [|o orig IH]; intros cl labels Hk Hb.
  - destruct cl; reflexivity.
  - destruct cl as [|c cl]; simpl; [reflexivity|].
    assert (Ho : o < List.length labels) by (apply Hb; now left).
    rewrite IH.
    + apply jsSet_nth_other; [|assumption]. intros ->. apply Hk. now left.
    + intro H. apply Hk. now right.
    + intros o' Ho'. rewrite jsSet_length. specialize (Hb o' (or_intror Ho')). lia.
Qed.

(** The frame of row [j] receives the label of row [j]. *)
Lemma remapFrom_row orig cl labels j o c :
  NoDup orig -> (forall o, In o orig -> o < List.length labels) ->
  nth_error orig j = Some o -> nth_error cl j = Some c ->
  nth_error (remapFrom orig cl labels) o = Some c.
Proof.
  revert cl labels j. induction orig as [|o0 orig IH]; intros cl labels j Hnd Hb Ho Hc.
  - destruct j; discriminate.
  - inversion Hnd as [|? ? Hnin Hnd']; subst.
    destruct cl as [|c0 cl]; [destruct j; discriminate|].
    assert (Hb' : forall o', In o' orig -> o' < List.length (jsSet labels o0 c0)).
    { intros o' Ho'. rewrite jsSet_length. specialize (Hb o' (or_intror Ho')). lia. }
    destruct j as [|j]; simpl in Ho, Hc |- *.
    + injection Ho as ->. injection Hc as ->.
      rewrite remapFrom_other by assumption. apply jsSet_nth_same.
    + eapply IH; eassumption.
Qed.

Section NoiseFacts.
Context {num : Type} {N : JsNumber num} {L : ClusterLib num}.

(** Under DBSCAN, the frame of a row that the clustering labels [c] carries
    the label [c]. *)
Lemma dbscan_label_of_frame options fs ts eps j i c :
  dbscanEps options = Some eps ->
  List.length ts = List.length fs ->
  nth_error (clusterDBSCAN (matrix (buildTfidfMatrix ts)) eps 2) j = Some c ->
  nth_error (originalIndices (buildTfidfMatrix ts)) j = Some i ->
  nth_error (computeLabels options fs ts) i = Some c.
Proof.
  intros He Hlen Hc Hi. unfold computeLabels. rewrite He.
  destruct (List.length (matrix (buildTfidfMatrix ts)) =? 0) eqn:E.
  - apply Nat.eqb_eq in E. rewrite <- originalIndices_length in E.
    apply length_zero_iff_nil in E. rewrite E in Hi. destruct j; discriminate.
  - unfold remapLabels. eapply remapFrom_row; try eassumption.
    + rewrite buildTfidfMatrix_unfold. cbn [originalIndices]. apply nonEmptyFrom_NoDup.
    + intros o Ho. rewrite repeat_length, <- Hlen.
      rewrite originalIndices_textIndices in Ho.
      destruct (In_nth_error _ _ Ho) as [b Hb]. eapply textIndices_bound; eassumption.
Qed.
End NoiseFacts.

Lemma assignCluster_length_ge labels ci cluster :
  List.length labels <= List.length (fold_left (fun ls p => jsSet ls p (Some (Z.of_nat ci)))
                                               cluster labels).
Proof.
  revert labels. induction cluster as [|p cluster IH]; intro labels; simpl; [lia|].
  specialize (IH (jsSet labels p (Some (Z.of_nat ci)))). rewrite jsSet_length in IH. lia.
Qed.

Section NoiseLabelFacts.
Context {num : Type} {N : JsNumber num} {L : ClusterLib num}.

Lemma assignClusters_length_ge ci clusters labels :
  List.length labels <= List.length (assignClusters ci clusters labels).
Proof.
  revert ci labels. induction clusters as [|c clusters IH]; intros ci labels; simpl; [lia|].
  eapply Nat.le_trans; [|apply IH]. apply assignCluster_length_ge.
Qed.

Lemma clusterDBSCAN_length_ge (m : list (list num)) eps minSamples :
  List.length m <= List.length (clusterDBSCAN m eps minSamples).
Proof.
  unfold clusterDBSCAN. destruct (List.length m =? 0) eqn:E.
  - apply Nat.eqb_eq in E. lia.
  - destruct (List.length m <? minSamples).
    + now rewrite repeat_length.
    + eapply Nat.le_trans; [|apply assignClusters_length_ge]. now rewrite repeat_length.
Qed.

(** A frame without text keeps the label the array was filled with: 0
    when no frame has text, -1 otherwise. *)
Lemma empty_text_label options fs ts i t :
  List.length ts = List.length fs ->
  nth_error ts i = Some t -> hasText t = false ->
  nth_error (computeLabels options fs ts) i
  = Some (match filter hasText ts with [] => Some 0%Z | _ => NOISE end).
Proof.
  intros Hlen Hi Ht.
  assert (Hb : i < List.length fs) by (rewrite <- Hlen; apply nth_error_Some; congruence).
  assert (Hnot : ~ In i (originalIndices (buildTfidfMatrix (num := num) ts))).
  { rewrite buildTfidfMatrix_unfold. cbn [originalIndices]. rewrite in_originalIndices.
    intros [t' [Ht' Hh]]. congruence. }
  assert (Hrange : forall o, In o (originalIndices (buildTfidfMatrix (num := num) ts)) ->
                             o < List.length (repeat NOISE (List.length fs))).
  { intros o Ho. rewrite repeat_length, <- Hlen. rewrite originalIndices_textIndices in Ho.
    destruct (In_nth_error _ _ Ho) as [b Hbo]. eapply textIndices_bound; eassumption. }
  assert (Hfill : forall (l : label), nth_error (repeat l (List.length fs)) i = Some l).
  { intro l. rewrite nth_error_repeat by assumption. reflexivity. }
  unfold computeLabels, remapLabels. rewrite matrix_length_hasText.
  destruct (filter hasText ts) as [|t0 rest]; cbn [List.length Nat.eqb].
  - apply Hfill.
  - destruct (dbscanEps options); [|destruct (nClusters options)];
      rewrite remapFrom_other by assumption; apply Hfill.
Qed.

(** Under DBSCAN, when some frame is vectorized, the frames labelled -1
    are the frames without text and the frames of the rows that the
    clustering labels -1. *)
Lemma dbscan_minus_one_iff options fs ts eps i :
  dbscanEps options = Some eps ->
  List.length ts = List.length fs ->
  filter hasText ts <> [] ->
  let tf := buildTfidfMatrix (num := num) ts in
  nth_error (computeLabels options fs ts) i = Some NOISE
  <-> (exists t, nth_error ts i = Some t /\ hasText t = false)
      \/ (exists j, nth_error (originalIndices tf) j = Some i
                    /\ nth_error (clusterDBSCAN (matrix tf) eps 2) j = Some NOISE).
Proof.
  intros He Hlen Hne tf. split.
  - intro Hl.
    assert (Hb : i < List.length ts).
    { rewrite Hlen, <- (computeLabels_length options fs ts Hlen).
      apply nth_error_Some. congruence. }
    destruct (nth_error ts i) as [t|] eqn:Et.
    2:{ apply nth_error_None in Et. lia. }
    destruct (hasText t) eqn:Eh; [|left; eauto].
    right.
    assert (Hin : In i (originalIndices tf)).
    { unfold tf. rewrite buildTfidfMatrix_unfold. cbn [originalIndices].
      apply in_originalIndices. eauto. }
    destruct (In_nth_error _ _ Hin) as [j Hj]. exists j. split; [exact Hj|].
    assert (Hjb : j < List.length (clusterDBSCAN (matrix tf) eps 2)).
    { eapply Nat.lt_le_trans; [|apply clusterDBSCAN_length_ge].
      unfold tf. rewrite <- originalIndices_length. apply nth_error_Some. fold tf. congruence. }
    destruct (nth_error (clusterDBSCAN (matrix tf) eps 2) j) as [c|] eqn:Ec.
    2:{ apply nth_error_None in Ec. lia. }
    rewrite (dbscan_label_of_frame options fs ts eps j i c He Hlen Ec Hj) in Hl.
    congruence.
  - intros [[t [Ht Hh]]|[j [Hj Hc]]].
    + rewrite (empty_text_label options fs ts i t Hlen Ht Hh).
      destruct (filter hasText ts); [contradiction|reflexivity].
    + eapply dbscan_label_of_frame; eassumption.
Qed.
End NoiseLabelFacts.

(** *** C1 as amended: noise frames form a group *)

(** C1, amended.  Under density clustering, in a run whose cache record, if
    there is one, holds one text per frame, a frame that DBSCAN labels -1 is
    not discarded: it lies in exactly one output group, and the members of
    that group are exactly the frames without text and the frames that
    DBSCAN labels -1. *)
Theorem noise_frames_grouped {num : Type} {N : JsNumber num} {L : ClusterLib num}
        (w : World num) (options : VideoAnalyzerOptions num) (eps : num) :
  dbscanEps options = Some eps ->
  cacheAligned w options ->
  let tf := buildTfidfMatrix (num := num) (frameTexts w options) in
  let noise j := nth_error (clusterDBSCAN (matrix tf) eps 2) j = Some NOISE in
  exists r parts,
    analyzeVideo w options = Ok r
    /\ Forall2 (groupMembers (sampledFrames w options)) parts (groups r)
    /\ forall j i,
         noise j -> nth_error (originalIndices tf) j = Some i ->
         exists k,
           In i (nth k parts [])
           /\ (forall k', In i (nth k' parts []) -> k' = k)
           /\ (forall i',
                 In i' (nth k parts [])
                 <-> (exists t, nth_error (frameTexts w options) i' = Some t
                                /\ hasText t = false)
                     \/ (exists j', nth_error (originalIndices tf) j' = Some i'
                                    /\ noise j')).
Proof.
  intros He Ha tf noise.
  destruct (analyzeVideo_total w options Ha) as [r Hr].
  destruct (analyzeVideo_groups w options r Hr) as [Hlen [_ Hg]].
  destruct (groups_parts _ _ _ Hg Hlen) as [parts [Hf2 [_ [_ Hcls]]]].
  pose proof (frameTexts_length w options Ha) as Hal.
  exists r, parts. split; [exact Hr|]. split; [exact Hf2|].
  intros j i Hj Hi.
  assert (Hl : nth_error (runLabels w options) i = Some NOISE).
  { unfold runLabels. eapply dbscan_label_of_frame; eassumption. }
  assert (Hne : filter hasText (frameTexts w options) <> []).
  { intro E. pose proof (matrix_length_hasText (num := num) (frameTexts w options)) as Hm.
    rewrite E, <- originalIndices_length in Hm. fold tf in Hm.
    apply length_zero_iff_nil in Hm. rewrite Hm in Hi. destruct j; discriminate. }
  destruct (Hcls i NOISE Hl) as [k [H1 [H2 H3]]].
  exists k. split; [exact H1|]. split; [exact H2|].
  intro i'. rewrite H3. unfold runLabels.
  apply dbscan_minus_one_iff; assumption.
Qed.

(** *** C2 as amended: frames without text are grouped *)

(** C2, amended.  In a run whose cache record, if there is one, holds one
    text per frame, every frame is counted in [totalFrames]; a frame whose
    text is empty is not among the vectorized frames, and it lies in exactly
    one output group, whose members are exactly the frames labelled -1, or
    labelled 0 when no frame has text. *)
Theorem empty_text_frames_grouped {num : Type} {N : JsNumber num} {L : ClusterLib num}
        (w : World num) (options : VideoAnalyzerOptions num) :
  cacheAligned w options ->
  exists r parts,
    analyzeVideo w options = Ok r
    /\ totalFrames r = List.length (sampledFrames w options)
    /\ Forall2 (groupMembers (sampledFrames w options)) parts (groups r)
    /\ forall i t,
         nth_error (frameTexts w options) i = Some t -> hasText t = false ->
         ~ In i (originalIndices (buildTfidfMatrix (num := num) (frameTexts w options)))
         /\ exists k,
              In i (nth k parts [])
              /\ (forall k', In i (nth k' parts []) -> k' = k)
              /\ (forall i',
                    In i' (nth k parts [])
                    <-> nth_error (runLabels w options) i'
                        = Some (match filter hasText (frameTexts w options) with
                                | [] => Some 0%Z
                                | _ => NOISE
                                end)).
Proof.
  intro Ha.
  destruct (analyzeVideo_total w options Ha) as [r Hr].
  destruct (analyzeVideo_groups w options r Hr) as [Hlen [Ht Hg]].
  destruct (groups_parts _ _ _ Hg Hlen) as [parts [Hf2 [_ [_ Hcls]]]].
  pose proof (frameTexts_length w options Ha) as Hal.
  exists r, parts. split; [exact Hr|]. split; [exact Ht|]. split; [exact Hf2|].
  intros i t Hi Htext. split.
  - rewrite buildTfidfMatrix_unfold. cbn [originalIndices].
    rewrite in_originalIndices. intros [t' [Ht' Hh]]. congruence.
  - apply Hcls. unfold runLabels. eapply empty_text_label; eassumption.
Qed.

(** ** C9: frame numbers and timestamps *)

Lemma Qfloor_inject_div a p : Qfloor (inject_Z a / inject_Z (Zpos p)) = (a / Zpos p)%Z.
Proof. rewrite <- Qmake_Qdiv. reflexivity. Qed.

Lemma qmod_fifteenths (m : Z) (p : positive) :
  (qmod (inject_Z m / inject_Z 15) (inject_Z (Zpos p))
   == inject_Z (m mod (15 * Zpos p)) / inject_Z 15)%Q.
Proof.
  unfold qmod.
  assert (H : (inject_Z m / inject_Z 15 / inject_Z (Zpos p)
               == inject_Z m / inject_Z (Zpos (15 * p)))%Q).
  { change (Zpos (15 * p)) with (15 * Zpos p)%Z. rewrite inject_Z_mult.
    field. unfold Qeq. simpl. lia. }
  rewrite H, Qfloor_inject_div.
  change (Zpos (15 * p)) with (15 * Zpos p)%Z.
  rewrite Z.mod_eq by lia. unfold Z.sub.
  rewrite inject_Z_plus, inject_Z_opp, !inject_Z_mult. field.
Qed.

Lemma toFixed1_comp (x y : Q) : (x == y)%Q -> toFixed1 x = toFixed1 y.
Proof. intro H. unfold toFixed1. now rewrite H. Qed.

Lemma qmax0_nonneg (x : Q) : (0 <= x)%Q -> qmax0 x = x.
Proof. unfold qmax0. intro H. apply Qle_bool_iff in H. now rewrite H. Qed.

Lemma forallb_below (p : nat -> bool) (n : nat) :
  forallb p (seq 0 n) = true -> forall k, k < n -> p k = true.
Proof.
  intros H k Hk. rewrite forallb_forall in H. apply H. apply in_seq. lia.
Qed.

Lemma pad_minutes (mi : Z) :
  (0 <= mi < 60)%Z -> Js.padStart0 2 (Js.ofZ mi) = twoDigits mi.
Proof.
  intro H.
  assert (Hall : forallb (fun k => String.eqb (Js.padStart0 2 (Js.ofZ (Z.of_nat k)))
                                              (twoDigits (Z.of_nat k)))
                         (seq 0 60) = true) by (vm_compute; reflexivity).
  pose proof (forallb_below _ _ Hall (Z.to_nat mi) ltac:(lia)) as Hk.
  cbv beta in Hk. rewrite Z2Nat.id in Hk by lia. now apply String.eqb_eq.
Qed.

Lemma pad_seconds (j : Z) :
  (0 <= j < 900)%Z ->
  let t := ((4 * j + 3) / 6)%Z in
  Js.padStart0 4 (toFixed1 (inject_Z j / inject_Z 15))
  = (twoDigits (t / 10) ++ "." ++ String (digitChar (t mod 10)) EmptyString)%string.
Proof.
  intros H t. subst t.
  assert (Hall : forallb
                   (fun k =>
                      String.eqb
                        (Js.padStart0 4 (toFixed1 (inject_Z (Z.of_nat k) / inject_Z 15)))
                        (twoDigits ((4 * Z.of_nat k + 3) / 6 / 10) ++ "."
                         ++ String (digitChar (((4 * Z.of_nat k + 3) / 6) mod 10)) EmptyString))
                   (seq 0 900) = true) by (vm_compute; reflexivity).
  pose proof (forallb_below _ _ Hall (Z.to_nat j) ltac:(lia)) as Hk.
  cbv beta in Hk. rewrite Z2Nat.id in Hk by lia. now apply String.eqb_eq.
Qed.

(** The fields of the timestamp of frame [m + 1]. *)
Lemma frameNumberToTimestamp_fields (m : Z) :
  (0 <= m)%Z ->
  let h := (m / 54000)%Z in
  let mi := (m mod 54000 / 900)%Z in
  let t := ((4 * (m mod 900) + 3) / 6)%Z in
  frameNumberToTimestamp (Some (m + 1)%Z)
  = if (0 <? h)%Z
    then (Js.padStart0 2 (Js.ofZ h) ++ ":" ++ minutesSeconds mi t)%string
    else minutesSeconds mi t.
Proof.
  intros Hm h mi t. unfold frameNumberToTimestamp, SAMPLE_FPS.
  replace (m + 1 - 1)%Z with m by lia.
  rewrite qmax0_nonneg.
  2:{ unfold Qdiv, Qmult, Qinv, Qle. simpl. lia. }
  assert (Hh : Qfloor (inject_Z m / inject_Z 15 / 3600) = h).
  { assert (E : (inject_Z m / inject_Z 15 / 3600 == inject_Z m / inject_Z 54000)%Q) by field.
    rewrite E. apply Qfloor_inject_div. }
  assert (Hmi : Qfloor (qmod (inject_Z m / inject_Z 15) 3600 / 60) = mi).
  { assert (E : (qmod (inject_Z m / inject_Z 15) 3600 / 60
                 == inject_Z (m mod 54000) / inject_Z 900)%Q).
    { rewrite (qmod_fifteenths m 3600). change (15 * 3600)%Z with 54000%Z. field. }
    rewrite E. apply Qfloor_inject_div. }
  assert (Hs : Js.padStart0 4 (toFixed1 (qmod (inject_Z m / inject_Z 15) 60))
               = (twoDigits (t / 10) ++ "." ++ String (digitChar (t mod 10)) EmptyString)%string).
  { change (toFixed1 (qmod (inject_Z m / inject_Z 15) 60))
      with (toFixed1 (qmod (inject_Z m / inject_Z 15) (inject_Z 60))).
    rewrite (toFixed1_comp _ _ (qmod_fifteenths m 60)).
    change (15 * 60)%Z with 900%Z.
    apply pad_seconds. apply Z.mod_pos_bound. lia. }
  rewrite Hh, Hmi, Hs.
  assert (Hb : (0 <= mi < 60)%Z).
  { pose proof (Z.mod_pos_bound m 54000 ltac:(lia)) as Hr. unfold mi. split.
    - apply Z.div_pos; lia.
    - apply Z.div_lt_upper_bound; lia. }
  rewrite (pad_minutes mi Hb). reflexivity.
Qed.

Lemma timestamp_fields_bounds (m : Z) :
  (0 <= m)%Z ->
  let h := (m / 54000)%Z in
  let mi := (m mod 54000 / 900)%Z in
  let t := ((4 * (m mod 900) + 3) / 6)%Z in
  (0 <= h /\ 0 <= mi < 60 /\ 0 <= t < 600
   /\ -1 <= 3 * (36000 * h + 600 * mi + t) - 2 * m <= 1)%Z.
Proof.
  intros Hm h mi t.
  pose proof (Z.div_mod m 54000 ltac:(lia)) as H1.
  pose proof (Z.mod_pos_bound m 54000 ltac:(lia)) as H2.
  pose proof (Z.div_mod (m mod 54000) 900 ltac:(lia)) as H3.
  pose proof (Z.mod_pos_bound (m mod 54000) 900 ltac:(lia)) as H4.
  assert (H5 : ((m mod 54000) mod 900 = m mod 900)%Z).
  { apply Z.mod_unique_pos with (q := (60 * (m / 54000) + m mod 54000 / 900)%Z); lia. }
  pose proof (Z.div_mod (4 * (m mod 900) + 3) 6 ltac:(lia)) as H6.
  pose proof (Z.mod_pos_bound (4 * (m mod 900) + 3) 6 ltac:(lia)) as H7.
  pose proof (Z.div_pos m 54000 Hm ltac:(lia)) as H8.
  rewrite H5 in H3, H4.
  subst h mi t.
  set (h := (m / 54000)%Z) in *. set (r := (m mod 54000)%Z) in *.
  set (mi := (r / 900)%Z) in *. set (j := (m mod 900)%Z) in *.
  set (t := ((4 * j + 3) / 6)%Z) in *.
  set (e := ((4 * j + 3) mod 6)%Z) in *.
  clearbody h r mi j t e.
  assert (He : (e = 1 \/ e = 3 \/ e = 5)%Z).
  { assert (Hcases : (e = 0 \/ e = 1 \/ e = 2 \/ e = 3 \/ e = 4 \/ e = 5)%Z) by lia.
    destruct Hcases as [E|[E|[E|[E|[E|E]]]]]; subst e; auto; exfalso; lia. }
  lia.
Qed.

(** C9.  For a frame number [n >= 1], the timestamp shows [h] hours (only
    when [h >= 1], zero-padded), [mi < 60] minutes as two digits and [t < 600]
    tenths of a second as [SS.S], and the time shown,
    [(36000 h + 600 mi + t) / 10] seconds, is [(n - 1) / 15] seconds rounded
    to a tenth: the two differ by at most 1/30 second.  The file name
    [frame_000016.jpg] gives the frame number 16, whose timestamp is
    ["00:01.0"]. *)
Theorem timestamp_of_ordinal (n : Z) :
  (1 <= n)%Z ->
  (exists h mi t : Z,
      (0 <= h /\ 0 <= mi < 60 /\ 0 <= t < 600
       /\ -1 <= 3 * (36000 * h + 600 * mi + t) - 2 * (n - 1) <= 1)%Z
      /\ frameNumberToTimestamp (Some n)
         = if (0 <? h)%Z
           then (Js.padStart0 2 (Js.ofZ h) ++ ":" ++ minutesSeconds mi t)%string
           else minutesSeconds mi t)
  /\ getFrameNumber "frame_000016.jpg" = Some 16%Z
  /\ frameNumberToTimestamp (Some 16%Z) = "00:01.0".
Proof.
  intro Hn. split; [|split; reflexivity].
  assert (Hm : (0 <= n - 1)%Z) by lia.
  exists ((n - 1) / 54000)%Z, ((n - 1) mod 54000 / 900)%Z,
         ((4 * ((n - 1) mod 900) + 3) / 6)%Z.
  split.
  - apply (timestamp_fields_bounds (n - 1) Hm).
  - replace n with (n - 1 + 1)%Z at 1 by lia.
    apply (frameNumberToTimestamp_fields (n - 1) Hm).
Qed.

(** ** The two runs on two frames *)

Lemma real_order : StrictWeakOrder R RNumber.
Proof.
  split; cbn [nGtb RNumber].
  - intro x. destruct (Rlt_dec x x); [lra|reflexivity].
  - intros x y z. destruct (Rlt_dec y x), (Rlt_dec z y), (Rlt_dec z x);
      intros; try reflexivity; try discriminate; lra.
  - intros x y z. destruct (Rlt_dec y x), (Rlt_dec z y), (Rlt_dec z x);
      intros; try reflexivity; try discriminate; lra.
Qed.

Lemma member_listed fs parts gs k i :
  Forall2 (groupMembers fs) parts gs -> In i (nth k parts []) ->
  exists g, In g gs /\ listsFrame g (nth i fs "").
Proof.
  intro F. revert k. induction F as [|idxs g parts gs [_ Hperm] _ IH]; intros k Hk.
  - destruct k; contradiction.
  - destruct k as [|k]; simpl in Hk.
    + exists g. split; [now left|]. unfold listsFrame.
      apply in_map_iff. exists (frameTimestampOf (nth i fs "")). split; [reflexivity|].
      eapply Permutation_in; [symmetry; exact Hperm|].
      apply (in_map (fun i => frameTimestampOf (nth i fs ""))). exact Hk.
    + destruct (IH k Hk) as [g' [Hg1 Hg2]]. exists g'. split; [now right|assumption].
Qed.

(** C1 as stated fails: in the run on ["alpha"] and ["beta"] with
    [eps = 1/2], DBSCAN labels both frames -1, and the result has a group
    that lists the first frame. *)
Lemma noise_frames_not_discarded :
  ~ noiseDiscarded (twoFrameWorld "alpha" "beta") dbscanOptions.
Proof.
  intro H.
  set (w := twoFrameWorld "alpha" "beta") in *.
  destruct (analyzeVideo_total w dbscanOptions I) as [r Hr].
  destruct (analyzeVideo_groups w dbscanOptions r Hr) as [Hlen [_ Hg]].
  destruct (groups_parts _ _ _ Hg Hlen) as [parts [Hf2 [_ [_ Hcls]]]].
  assert (Hl : nth_error (runLabels w dbscanOptions) 0 = Some NOISE)
    by (vm_compute; reflexivity).
  destruct (Hcls 0 NOISE Hl) as [k [Hk _]].
  destruct (member_listed _ _ _ _ _ Hf2 Hk) as [g [Hg1 Hg2]].
  refine (H (1 / 2)%R r eq_refl Hr 0 0 _ _ _ _ g Hg1 Hg2).
  - vm_compute. reflexivity.
  - vm_compute. reflexivity.
  - vm_compute. reflexivity.
Qed.

(** C2 as stated fails: in the run in which the first frame has no text, the
    first group of the result lists the first frame. *)
Lemma empty_text_frame_in_group :
  ~ emptyTextUngrouped (twoFrameWorld "" "hello world") defaultOptions.
Proof.
  intro H.
  assert (Hr : exists r g,
             analyzeVideo (twoFrameWorld "" "hello world") defaultOptions = Ok r
             /\ In g (groups r)
             /\ listsFrame g "/workspace/video-cache/abc/frames/frame_000001.jpg").
  { eexists. eexists. split; [vm_compute; reflexivity|].
    split; [left; reflexivity|]. vm_compute. left. reflexivity. }
  destruct Hr as [r [g [Hr [Hg Hl]]]].
  refine (H r Hr 0 _ "" _ _ _ g Hg Hl).
  - vm_compute. reflexivity.
  - vm_compute. reflexivity.
  - reflexivity.
Qed.

(** ** Instances of the theorems on concrete runs *)

Lemma noise_frames_grouped_witness :
  exists r parts,
    analyzeVideo (twoFrameWorld "alpha" "beta") dbscanOptions = Ok r
    /\ Forall2 (groupMembers twoFrames) parts (groups r)
    /\ exists k, In 0 (nth k parts []) /\ In 1 (nth k parts []).
Proof.
  destruct (noise_frames_grouped (twoFrameWorld "alpha" "beta") dbscanOptions
                                 (1 / 2)%R eq_refl I)
    as [r [parts [Hr [Hf2 Hn]]]].
  exists r, parts. split; [exact Hr|]. split; [exact Hf2|].
  destruct (Hn 0 0) as [k [Hk [_ Hall]]]; [vm_compute; reflexivity..|].
  exists k. split; [exact Hk|]. apply Hall. right. exists 1.
  split; vm_compute; reflexivity.
Defined.

Lemma empty_text_frames_grouped_witness :
  exists r parts,
    analyzeVideo (twoFrameWorld "" "hello world") defaultOptions = Ok r
    /\ totalFrames r = 2
    /\ Forall2 (groupMembers twoFrames) parts (groups r)
    /\ exists k, In 0 (nth k parts []).
Proof.
  destruct (empty_text_frames_grouped (twoFrameWorld "" "hello world") defaultOptions I)
    as [r [parts [Hr [Ht [Hf2 He]]]]].
  exists r, parts. split; [exact Hr|]. split; [exact Ht|]. split; [exact Hf2|].
  destruct (He 0 "") as [_ [k [Hk _]]]; [vm_compute; reflexivity|reflexivity|].
  exists k. exact Hk.
Defined.

Lemma groups_partition_witness :
  exists r, analyzeVideo (twoFrameWorld "" "hello world") defaultOptions = Ok r
            /\ list_sum (map frameCount (groups r)) = 2.
Proof.
  destruct (proj1 (groups_partition (twoFrameWorld "" "hello world") defaultOptions) I)
    as [r Hr].
  exists r. split; [exact Hr|].
  destruct (proj2 (groups_partition (twoFrameWorld "" "hello world") defaultOptions) r Hr)
    as [Ht [parts [_ [_ [_ Hsum]]]]].
  rewrite Hsum, Ht. reflexivity.
Defined.

Lemma zero_frames_witness :
  exists r, analyzeVideo noFrameWorld defaultOptions = Ok r
            /\ totalFrames r = 0 /\ groups r = [] /\ representativeFramePaths r = [].
Proof. apply (zero_frames noFrameWorld defaultOptions); reflexivity. Defined.

Lemma strategy_selection_witness :
  computeLabels
    {| videoPath := "/videos/talk.mp4"; nClusters := Some 3%Z;
       dbscanEps := Some (1 / 2)%R; lang := None; workers := None |}
    twoFrames ["alpha"; "beta"]
  = remapLabels 2 (originalIndices (buildTfidfMatrix (num := R) ["alpha"; "beta"]))
                (clusterDBSCAN (matrix (buildTfidfMatrix (num := R) ["alpha"; "beta"]))
                               (1 / 2)%R 2).
Proof.
  refine (proj1 (strategy_selection
                   {| videoPath := "/videos/talk.mp4"; nClusters := Some 3%Z;
                      dbscanEps := Some (1 / 2)%R; lang := None; workers := None |}
                   twoFrames ["alpha"; "beta"] _) (1 / 2)%R eq_refl).
  rewrite matrix_length_hasText. simpl. lia.
Defined.

Lemma representative_selection_witness :
  let D := Double.number Double.logOfTwoTexts in
  let paths := ["frame_000001.jpg"; "frame_000002.jpg"] in
  let texts := ["alpha"; "beta gamma delta"] in
  let m := matrix (buildTfidfMatrix (N := D) texts) in
  exists b i p,
    nth_error (textIndices texts) b = Some i
    /\ nth_error paths i = Some p
    /\ selectRepresentative (N := D) paths texts = Ok p
    /\ (forall k, k < List.length m ->
          @nGtb _ D (similarityToMean (N := D) m k) (similarityToMean (N := D) m b) = false)
    /\ (forall k, k < b ->
          @nGtb _ D (similarityToMean (N := D) m b) (similarityToMean (N := D) m k) = true).
Proof.
  cbv zeta.
  refine (proj2 (proj2 (proj2 (representative_selection
                                 (N := Double.number Double.logOfTwoTexts)
                                 Double.ordinary
                                 (DoubleFacts.double_order Double.logOfTwoTexts)
                                 ["frame_000001.jpg"; "frame_000002.jpg"]
                                 ["alpha"; "beta gamma delta"] _ _))) _ _).
  - discriminate.
  - reflexivity.
  - vm_compute. lia.
  - intros k Hk. destruct k as [|[|k]].
    + vm_compute. reflexivity.
    + vm_compute. reflexivity.
    + exfalso. vm_compute in Hk. lia.
Defined.

Lemma timestamp_of_ordinal_witness :
  frameNumberToTimestamp (Some 16%Z) = "00:01.0".
Proof.
  refine (proj2 (proj2 (timestamp_of_ordinal 16 _))). lia.
Defined.

(** ** Checks on concrete inputs *)

Example tokenize_example :
  tokenize "Invoice total: 42 of THE sum"
  = ["invoice"; "total"; "42"; "sum"; "invoice total"; "total 42"; "42 sum"].
Proof. reflexivity. Qed.

Example trim_example : Js.trim "  invoice total  " = "invoice total".
Proof. reflexivity. Qed.

Example split_example :
  Js.splitWhitespace " invoice  total 42 " = [""; "invoice"; "total"; "42"; ""].
Proof. reflexivity. Qed.

Example maxDf_example : maxDfOf 20 = 19 /\ maxDfOf 2 = 1 /\ maxDfOf 1 = 0.
Proof. repeat split. Qed.

(** With two documents a term of both has [df = 2 > maxDf = 1] and is
    dropped; with the same text twice every term is dropped and the fallback
    keeps them all. *)
Example vocabulary_example :
  vocabulary (buildTfidfMatrix (num := R) ["alpha beta"; "beta"]) = ["alpha"; "alpha beta"]
  /\ vocabulary (buildTfidfMatrix (num := R) ["alpha"; "alpha"]) = ["alpha"].
Proof. split; vm_compute; reflexivity. Qed.

Example autoK_example :
  autoK 1 = 1%Z /\ autoK 8 = 2%Z /\ autoK 13 = 3%Z /\ autoK 4900 = 49%Z /\ autoK 4999 = 50%Z.
Proof. repeat split. Qed.

Example getFrameNumber_example :
  getFrameNumber "/workspace/video-cache/abc/frames/frame_000016.jpg" = Some 16%Z
  /\ getFrameNumber "/tmp/cover.jpg" = None.
Proof. split; reflexivity. Qed.

Example timestamp_example :
  frameNumberToTimestamp (Some 1%Z) = "00:00.0"
  /\ frameNumberToTimestamp (Some 2%Z) = "00:00.1"
  /\ frameNumberToTimestamp (Some 900%Z) = "00:59.9"
  /\ frameNumberToTimestamp (Some 901%Z) = "01:00.0"
  /\ frameNumberToTimestamp (Some 54016%Z) = "01:00:01.0"
  /\ frameNumberToTimestamp None = "NaN:0NaN".
Proof. repeat split; vm_compute; reflexivity. Qed.

(** The pool on three frames with two workers, the second frame failing. *)
Example ocrAllFrames_example :
  let ocrResults :=
    Ocr.ocrAllFrames
      (fun f _ => if String.eqb f "b.jpg" then None else Some ("text of " ++ f)%string)
      ["a.jpg"; "b.jpg"; "c.jpg"] "eng" 2 in
  map (JsMap.get String.eqb ocrResults) ["a.jpg"; "b.jpg"; "c.jpg"]
  = [Some "text of a.jpg"; Some ""; Some "text of c.jpg"]
  /\ List.length ocrResults = 3.
Proof. split; reflexivity. Qed.

(** The run in which the first of two frames has no text: the frame without
    text is the only member of the first group. *)
Example empty_text_run :
  exists r, analyzeVideo (twoFrameWorld "" "hello world") defaultOptions = Ok r
            /\ totalFrames r = 2
            /\ map (fun g => map fileName (frames g)) (groups r)
               = [["frame_000001.jpg"]; ["frame_000002.jpg"]]
            /\ map (fun g => (rangeStart (timeRange g), rangeEnd (timeRange g))) (groups r)
               = [("00:00.0", "00:00.0"); ("00:00.1", "00:00.1")]
            /\ representativeFramePaths r
               = ["/videos/talk/representative_frames/group_01.jpg";
                  "/videos/talk/representative_frames/group_02.jpg"].
Proof. eexists. split; [vm_compute; reflexivity|]. repeat split. Qed.

(** Three frames with the same text: the rows of the group's matrix are
    equal, so are their similarities to the centroid, and the earliest frame
    is selected. *)
Example identical_texts_earliest :
  selectRepresentative (num := R)
    ["frame_000001.jpg"; "frame_000002.jpg"; "frame_000003.jpg"]
    ["invoice total 42"; "invoice total 42"; "invoice total 42"]
  = Ok "frame_000001.jpg".
Proof.
  set (paths := ["frame_000001.jpg"; "frame_000002.jpg"; "frame_000003.jpg"]).
  set (texts := ["invoice total 42"; "invoice total 42"; "invoice total 42"]).
  destruct (select_most_similar (O := real_order) paths texts eq_refl)
    as [b [i [p [Hb [Hp [Hs [_ Hfirst]]]]]]].
  { vm_compute. lia. }
  rewrite Hs.
  assert (Hb0 : b = 0).
  { destruct b as [|b]; [reflexivity|]. exfalso.
    specialize (Hfirst 0 ltac:(lia)).
    assert (E : similarityToCentroid (matrix (buildTfidfMatrix (num := R) texts)) (S b)
                = similarityToCentroid (matrix (buildTfidfMatrix (num := R) texts)) 0).
    { unfold similarityToCentroid. f_equal.
      rewrite buildTfidfMatrix_unfold. cbn [matrix].
      destruct b as [|[|b]]; [reflexivity|reflexivity|].
      vm_compute in Hb. destruct b; discriminate Hb. }
    rewrite E in Hfirst. clear E. revert Hfirst.
    generalize (similarityToCentroid (matrix (buildTfidfMatrix (num := R) texts)) 0).
    intros x Hx. rewrite (gt_irrefl (StrictWeakOrder := real_order) x) in Hx.
    discriminate Hx. }
  subst b. clear Hfirst. vm_compute in Hb. injection Hb as <-.
  vm_compute in Hp. injection Hp as <-. reflexivity.
Qed.

(** ** A group of two texts, in double arithmetic

    The group of the texts ["alpha"] and ["beta gamma delta"]: the rows are
    [(1, 0, 0, 0, 0, 0)] and [(0, v, v, v, v, v)] with [v] the double
    [0x1.c9f25c5bfeddap-2], and their similarities to the centroid are the
    doubles [0x1.6a09e667f3bcdp-1] and [0x1.6a09e667f3bcfp-1].  The second
    is the greater: the second frame represents the group. *)

Module DoubleExamples.
Import Floats.

Example two_texts_in_doubles :
  let D := Double.number Double.logOfTwoTexts in
  let m := matrix (buildTfidfMatrix (N := D) ["alpha"; "beta gamma delta"]) in
  similarityToMean (N := D) m 0 = 0x1.6a09e667f3bcdp-1%float
  /\ similarityToMean (N := D) m 1 = 0x1.6a09e667f3bcfp-1%float
  /\ selectRepresentative (N := D) ["frame_000001.jpg"; "frame_000002.jpg"]
                          ["alpha"; "beta gamma delta"]
     = Ok "frame_000002.jpg".
Proof. vm_compute. repeat split. Qed.
End DoubleExamples.


(* ================================================================== *)
(** * Further properties of the code *)
(* ================================================================== *)

(** ** tfidf.ts: the tokenizer *)

Lemma allChars_app p a b : allChars p (a ++ b) = allChars p a && allChars p b.
Proof.
  induction a as [|c a IH]; simpl; [reflexivity|].
  now rewrite IH, andb_assoc.
Qed.

Lemma splitSpaces_chars (q : ascii -> bool) s cur inRun w :
  allChars q cur = true ->
  allChars (fun c => Js.isSpace c || q c) s = true ->
  In w (Js.splitSpaces cur inRun s) -> allChars q w = true.
Proof.
  revert cur inRun. induction s as [|c s IH]; intros cur inRun Hcur Hs Hin; simpl in *.
  - destruct Hin as [<-|[]]. exact Hcur.
  - apply andb_true_iff in Hs. destruct Hs as [Hc Hs].
    destruct (Js.isSpace c) eqn:Ec.
    + destruct inRun.
      * eapply IH; [|exact Hs|exact Hin]. reflexivity.
      * destruct Hin as [<-|Hin]; [exact Hcur|].
        eapply IH; [|exact Hs|exact Hin]. reflexivity.
    + eapply IH; [|exact Hs|exact Hin].
      rewrite allChars_app, Hcur. simpl in *. now rewrite Hc.
Qed.

Lemma blankNonAlnum_chars s :
  allChars (fun c => Js.isSpace c || isAlnum c) (blankNonAlnum s) = true.
Proof.
  unfold blankNonAlnum, isAlnum. induction s as [|c s IH]; simpl; [reflexivity|].
  rewrite IH, andb_true_r.
  destruct (Js.isLowerAlpha c) eqn:Ea; simpl.
  - rewrite Ea. apply orb_true_r.
  - destruct (Js.isDigit c) eqn:Ed; simpl.
    + rewrite Ea, Ed. apply orb_true_r.
    + destruct (Js.isSpace c) eqn:Es; [now rewrite Es|reflexivity].
Qed.

Lemma words_are_words text w : In w (words text) -> isWord w.
Proof.
  unfold words. rewrite filter_In, andb_true_iff, negb_true_iff, Nat.ltb_lt.
  intros [Hin [Hlen Hstop]]. split; [|split].
  - intros ->. simpl in Hlen. lia.
  - eapply splitSpaces_chars; [|apply blankNonAlnum_chars|exact Hin]. reflexivity.
  - exact Hstop.
Qed.

Lemma in_bigrams ws tok :
  In tok (bigrams ws) ->
  exists a b, tok = (a ++ " " ++ b)%string /\ In a ws /\ In b ws.
Proof.
  induction ws as [|a [|b r] IH]; simpl; try contradiction.
  intros [<-|H].
  - exists a, b. auto.
  - destruct (IH H) as [a' [b' [H1 [H2 H3]]]]. exists a', b'. auto.
Qed.

(** X1.  Every token is a word, or two words joined by one space; a word is
    a non-empty string of the characters [a-z0-9] that is not a stop word.
    No token is empty, and none holds an upper-case letter, a punctuation
    mark or a white space other than the one space of a bigram. *)
Theorem tokens_wellformed (text tok : string) :
  In tok (tokenize text) ->
  isWord tok
  \/ exists a b, tok = (a ++ " " ++ b)%string /\ isWord a /\ isWord b.
Proof.
  unfold tokenize. rewrite in_app_iff. intros [H|H].
  - left. eapply words_are_words. eassumption.
  - right. destruct (in_bigrams _ _ H) as [a [b [H1 [H2 H3]]]].
    exists a, b. split; [exact H1|]. split; eapply words_are_words; eassumption.
Qed.

Lemma length_bigrams (ws : list string) : List.length (bigrams ws) = List.length ws - 1.
Proof.
  induction ws as [|a [|b r] IH]; try reflexivity.
  change (bigrams (a :: b :: r)) with ((a ++ " " ++ b)%string :: bigrams (b :: r)).
  simpl List.length in *. rewrite IH. lia.
Qed.

Lemma nth_bigrams (ws : list string) i a b :
  nth_error ws i = Some a -> nth_error ws (S i) = Some b ->
  nth_error (bigrams ws) i = Some (a ++ " " ++ b)%string.
Proof.
  revert i. induction ws as [|x [|y r] IH]; intros i Ha Hb.
  - destruct i; discriminate.
  - destruct i as [|[|i]]; discriminate.
  - change (bigrams (x :: y :: r)) with ((x ++ " " ++ y)%string :: bigrams (y :: r)).
    destruct i as [|i].
    + simpl in Ha, Hb. injection Ha as ->. injection Hb as ->. reflexivity.
    + simpl. apply IH; assumption.
Qed.

(** X2.  The tokens are the words of the text in their order, followed by
    one bigram for every pair of neighbouring words, in the order of the
    pairs: [n] words give [2n - 1] tokens (none for [n = 0]). *)
Theorem tokenize_unigrams_then_bigrams (text : string) :
  let ws := words text in
  List.length (tokenize text) = 2 * List.length ws - 1
  /\ (forall i w, nth_error ws i = Some w -> nth_error (tokenize text) i = Some w)
  /\ (forall i a b,
        nth_error ws i = Some a -> nth_error ws (S i) = Some b ->
        nth_error (tokenize text) (List.length ws + i) = Some (a ++ " " ++ b)%string).
Proof.
  intro ws. unfold tokenize. fold ws. split; [|split].
  - rewrite length_app, length_bigrams. lia.
  - intros i w H. rewrite nth_error_app1; [exact H|].
    apply nth_error_Some. congruence.
  - intros i a b Ha Hb. rewrite nth_error_app2 by lia.
    replace (List.length ws + i - List.length ws) with i by lia.
    now apply nth_bigrams.
Qed.

(** ** tfidf.ts: the shape of the matrix *)

Lemma nonEmptyFrom_sorted s texts : StronglySorted lt (fst (nonEmptyFrom s texts)).
Proof.
  revert s. induction texts as [|t r IH]; intro s; simpl; [constructor|].
  pose proof (IH (S s)) as Hs. pose proof (nonEmptyFrom_ge (S s) r) as Hge.
  destruct (nonEmptyFrom (S s) r) as [idx ts]. simpl in *.
  destruct (0 <? String.length (Js.trim t)); simpl; [|exact Hs].
  constructor; [exact Hs|]. apply Forall_forall. intros k Hk.
  specialize (Hge k Hk). lia.
Qed.

(** X3.  [originalIndices] lists, in strictly increasing order, exactly the
    positions of the texts that are not blank, and the matrix has one row
    for each of them. *)
Theorem vectorized_indices {num : Type} {N : JsNumber num} (texts : list string) :
  let r := buildTfidfMatrix (num := num) texts in
  StronglySorted lt (originalIndices r)
  /\ (forall i, In i (originalIndices r)
                <-> exists t, nth_error texts i = Some t /\ hasText t = true)
  /\ List.length (matrix r) = List.length (originalIndices r).
Proof.
  cbv zeta. split; [|split].
  - rewrite buildTfidfMatrix_unfold. cbn [originalIndices]. apply nonEmptyFrom_sorted.
  - intro i. rewrite buildTfidfMatrix_unfold. cbn [originalIndices].
    apply in_originalIndices.
  - symmetry. apply originalIndices_length.
Qed.

(** X4.  The matrix is rectangular: every row has one entry per vocabulary
    term. *)
Theorem matrix_rows_have_vocabulary_length {num : Type} {N : JsNumber num}
        (texts : list string) :
  let r := buildTfidfMatrix (num := num) texts in
  Forall (fun row => List.length row = List.length (vocabulary r)) (matrix r).
Proof.
  cbv zeta. rewrite buildTfidfMatrix_unfold. cbn [matrix vocabulary].
  apply Forall_forall. intros row Hrow. apply in_map_iff in Hrow.
  destruct Hrow as [tokens [<- _]]. apply rowOf_length.
Qed.

Lemma keys_nil_iff (A B : Type) (m : list (A * B)) : JsMap.keys m = [] <-> m = [].
Proof. destruct m; simpl; split; congruence. Qed.

(** X5.  The vocabulary is empty only when no vectorized text has a token:
    as soon as one text yields a token, the filter or its fallback keeps at
    least one term. *)
Theorem vocabulary_empty_iff {num : Type} {N : JsNumber num} (texts : list string) :
  vocabulary (buildTfidfMatrix (num := num) texts) = []
  <-> forall tokens, In tokens (tokenizedDocsOf texts) -> tokens = [].
Proof.
  rewrite buildTfidfMatrix_unfold. cbn [vocabulary].
  set (docs := tokenizedDocsOf texts).
  destruct (buildVocabulary_spec (List.length docs) (documentFrequencies docs)
                                 (documentFrequencies_NoDup docs)) as [Hv _].
  rewrite Hv. clear Hv.
  set (kept := filter _ (documentFrequencies docs)).
  assert (Hkeys : JsMap.keys (documentFrequencies docs) = []
                  <-> forall tokens, In tokens docs -> tokens = []).
  { split.
    - intros Hk tokens Hin. destruct tokens as [|t tokens]; [reflexivity|].
      exfalso.
      assert (Ht : In t (JsMap.keys (documentFrequencies docs))).
      { apply documentFrequencies_from_keys. right. exists (t :: tokens).
        split; [exact Hin|now left]. }
      rewrite Hk in Ht. contradiction.
    - intro Hall. destruct (JsMap.keys (documentFrequencies docs)) as [|t ks] eqn:E;
        [reflexivity|]. exfalso.
      assert (Ht : In t (JsMap.keys (documentFrequencies docs)))
        by (rewrite E; now left).
      apply documentFrequencies_from_keys in Ht.
      destruct Ht as [[]|[d [Hd Ht]]]. rewrite (Hall d Hd) in Ht. contradiction. }
  destruct kept as [|e kept'] eqn:Ek; [exact Hkeys|].
  split; [discriminate|]. intro Hall. exfalso.
  assert (He : In e (documentFrequencies docs)).
  { assert (H : In e kept) by (rewrite Ek; now left).
    unfold kept in H. apply filter_In in H. tauto. }
  apply proj2 in Hkeys. specialize (Hkeys Hall).
  apply keys_nil_iff in Hkeys. rewrite Hkeys in He. contradiction.
Qed.

(** ** tfidf.ts: rows in real arithmetic *)

Lemma nonEmptyFrom_nth s texts b i :
  nth_error (fst (nonEmptyFrom s texts)) b = Some i ->
  s <= i /\ nth_error (snd (nonEmptyFrom s texts)) b = nth_error texts (i - s).
Proof.
  revert s b. induction texts as [|t r IH]; intros s b H; simpl in H.
  - destruct b; discriminate.
  - simpl. pose proof (IH (S s)) as IH'.
    destruct (nonEmptyFrom (S s) r) as [idx ts]. simpl in *.
    destruct (0 <? String.length (Js.trim t)); simpl in *.
    + destruct b as [|b]; simpl in *.
      * injection H as <-. rewrite Nat.sub_diag. auto.
      * destruct (IH' b H) as [H1 H2]. split; [lia|].
        rewrite H2. replace (i - s) with (S (i - S s)) by lia. reflexivity.
    + destruct (IH' b H) as [H1 H2]. split; [lia|].
      rewrite H2. replace (i - s) with (S (i - S s)) by lia. reflexivity.
Qed.

Lemma sumSquares_repeat_zero n : sumSquares (repeat 0%R n) = 0%R.
Proof. induction n as [|n IH]; simpl; [reflexivity|]. rewrite IH. lra. Qed.

Lemma normalizeRow_zero n : normalizeRow (repeat 0%R n) = repeat 0%R n.
Proof.
  destruct (normalizeRow_real (repeat 0%R n)) as [[_ H]|[Hpos _]]; [exact H|].
  unfold euclideanNorm in Hpos. rewrite sumSquares_repeat_zero, sqrt_0 in Hpos. lra.
Qed.

Lemma termCount_nil t : termCount [] t = 0.
Proof. reflexivity. Qed.

(** X6.  A text that is not blank but yields no token (stop words and
    punctuation only) is vectorized all the same: it has a row, and the row
    is the zero vector. *)
Theorem tokenless_text_zero_row (texts : list string) (b i : nat) (t : string) :
  let r := buildTfidfMatrix (num := R) texts in
  nth_error (originalIndices r) b = Some i ->
  nth_error texts i = Some t ->
  tokenize t = [] ->
  nth_error (matrix r) b = Some (repeat 0%R (List.length (vocabulary r))).
Proof.
  cbv zeta. rewrite buildTfidfMatrix_unfold. cbn [matrix vocabulary originalIndices].
  intros Hb Ht Htok.
  destruct (nonEmptyFrom_nth 0 texts b i Hb) as [_ Hsnd].
  rewrite Nat.sub_0_r, Ht in Hsnd.
  assert (Hd : nth_error (tokenizedDocsOf texts) b = Some []).
  { unfold tokenizedDocsOf. now rewrite nth_error_map, Hsnd, <- Htok. }
  rewrite nth_error_map, Hd. cbn [option_map]. f_equal.
  unfold rowOf. rewrite rawRow_spec.
  set (vocab := snd (buildVocabulary _ _)).
  replace (map _ vocab) with (repeat 0%R (List.length vocab)).
  - apply normalizeRow_zero.
  - clear. induction vocab as [|v vocab IH]; simpl; [reflexivity|].
    now rewrite IH.
Qed.

Lemma in_sumSquares (row : list R) v : In v row -> (v * v <= sumSquares row)%R.
Proof.
  induction row as [|x row IH]; simpl; [contradiction|].
  pose proof (sumSquares_nonneg row) as Hr.
  pose proof (Rle_0_sqr x) as Hx. unfold Rsqr in Hx.
  intros [->|H]; [lra|]. specialize (IH H). lra.
Qed.

Lemma rawRow_real_nonneg docs tokens v :
  In v (map (fun t => if termCount tokens t =? 0 then nOfNat (num := R) 0
                      else tfidfWeight (List.length docs) (termCount tokens t)
                                       (docFreq docs t))
            (snd (buildVocabulary (List.length docs) (documentFrequencies docs)))) ->
  (0 <= v)%R.
Proof.
  intro H. apply in_map_iff in H. destruct H as [t [<- _]].
  destruct (termCount tokens t =? 0) eqn:E; [simpl; lra|].
  apply Nat.eqb_neq in E. rewrite tfidfWeight_real.
  pose proof (expectedWeight_pos docs tokens t) as Hpos.
  unfold expectedWeight in Hpos.
  destruct (termCount tokens t =? 0) eqn:E'; [apply Nat.eqb_eq in E'; lia|].
  left. apply Hpos. lia.
Qed.

(** X7.  In real arithmetic every entry of the matrix lies between 0 and
    1. *)
Theorem matrix_entries_in_unit_interval (texts : list string) :
  Forall (Forall (fun v => (0 <= v <= 1)%R))
         (matrix (buildTfidfMatrix (num := R) texts)).
Proof.
  rewrite buildTfidfMatrix_unfold. cbn [matrix].
  set (docs := tokenizedDocsOf texts).
  apply Forall_forall. intros row Hrow. apply in_map_iff in Hrow.
  destruct Hrow as [tokens [<- _]]. unfold rowOf. rewrite rawRow_spec.
  set (raw := map _ _).
  assert (Hnn : forall v, In v raw -> (0 <= v)%R)
    by (intros v Hv; eapply rawRow_real_nonneg; exact Hv).
  apply Forall_forall. intros v Hv.
  destruct (normalizeRow_real raw) as [[Hz Heq]|[Hpos [Heq _]]]; rewrite Heq in Hv.
  - rewrite Forall_forall in Hz. rewrite <- (Hz v Hv). lra.
  - apply in_map_iff in Hv. destruct Hv as [x [<- Hx]].
    pose proof (Hnn x Hx) as Hx0. pose proof (in_sumSquares raw x Hx) as Hsq.
    assert (Hle : (x <= euclideanNorm raw)%R).
    { unfold euclideanNorm. rewrite <- (sqrt_square x) by exact Hx0.
      apply sqrt_le_1_alt. exact Hsq. }
    split.
    + apply Rmult_le_pos; [exact Hx0|]. left. now apply Rinv_0_lt_compat.
    + apply (Rmult_le_reg_r (euclideanNorm raw)); [exact Hpos|].
      unfold Rdiv. rewrite Rmult_assoc, Rinv_l by lra. lra.
Qed.

(** ** tfidf.ts: cosine similarity, in real arithmetic *)

Lemma sumSquares_cons (x : R) (row : list R) :
  sumSquares (x :: row) = (x * x + sumSquares row)%R.
Proof. reflexivity. Qed.

Lemma cosineSums_closed (a b : list R) (d x y : R) :
  List.length a <= List.length b ->
  cosineSums a b (d, x, y)
  = ((d + dotProduct a b)%R, (x + sumSquares a)%R,
     (y + sumSquares (firstn (List.length a) b))%R).
Proof.
  revert b d x y. induction a as [|p a IH]; intros b d x y Hlen.
  - destruct b; simpl; repeat f_equal; lra.
  - destruct b as [|q b]; simpl in Hlen; [lia|].
    cbn [cosineSums]. rewrite IH by lia. cbn [nAdd nMul RNumber].
    cbn [List.length firstn dotProduct]. rewrite !sumSquares_cons.
    f_equal; [f_equal|]; lra.
Qed.

Lemma cosineSimilarity_closed (a b : list R) :
  List.length a <= List.length b ->
  cosineSimilarity a b
  = (if Req_dec_T (sqrt (sumSquares a) * sqrt (sumSquares (firstn (List.length a) b))) 0
     then 0
     else dotProduct a b
          / (sqrt (sumSquares a) * sqrt (sumSquares (firstn (List.length a) b))))%R.
Proof.
  intro Hlen. unfold cosineSimilarity. cbn [nOfNat RNumber INR].
  rewrite cosineSums_closed by exact Hlen.
  cbn [nMul nSqrt nEqb nDiv nOfNat RNumber INR].
  rewrite !Rplus_0_l.
  destruct (Req_dec_T _ 0); reflexivity.
Qed.

Lemma dotProduct_comm (a b : list R) : dotProduct a b = dotProduct b a.
Proof.
  revert b. induction a as [|x a IH]; intro b; destruct b as [|y b]; simpl;
    try reflexivity. rewrite IH. lra.
Qed.

(** X10.  On vectors of the same length, cosine similarity and cosine
    distance are symmetric. *)
Theorem cosine_symmetric (a b : list R) :
  List.length a = List.length b ->
  cosineSimilarity a b = cosineSimilarity b a
  /\ cosineDistance a b = cosineDistance b a.
Proof.
  intro Hlen.
  assert (Hs : cosineSimilarity a b = cosineSimilarity b a).
  { rewrite !cosineSimilarity_closed by lia.
    rewrite (firstn_all2 (n := List.length a) b) by lia.
    rewrite (firstn_all2 (n := List.length b) a) by lia.
    rewrite (dotProduct_comm a b), (Rmult_comm (sqrt (sumSquares a))). reflexivity. }
  split; [exact Hs|]. unfold cosineDistance. now rewrite Hs.
Qed.

(** ** clustering.ts: from clusters to labels *)

Lemma jsSet_nth_inside l i v k :
  k <> i -> k < List.length l -> nth_error (jsSet l i v) k = nth_error l k.
Proof.
  revert i k. induction l as [|x l IH]; intros i k Hne Hk; simpl in Hk; [lia|].
  destruct i as [|i], k as [|k]; simpl; try reflexivity; try congruence.
  apply IH; lia.
Qed.

Lemma existsb_eqb_In j (c : list nat) : existsb (Nat.eqb j) c = true <-> In j c.
Proof.
  rewrite existsb_exists. split.
  - intros [x [Hx He]]. apply Nat.eqb_eq in He. now subst.
  - intro H. exists j. split; [exact H|apply Nat.eqb_refl].
Qed.

Lemma assignCluster_nth labels ci cluster j :
  j < List.length labels ->
  nth_error (assignCluster labels ci cluster) j
  = if existsb (Nat.eqb j) cluster then Some (Some (Z.of_nat ci)) else nth_error labels j.
Proof.
  unfold assignCluster. revert labels.
  induction cluster as [|p cluster IH]; intros labels Hj; simpl; [reflexivity|].
  rewrite IH by (rewrite jsSet_length; lia).
  destruct (existsb (Nat.eqb j) cluster); [now rewrite orb_true_r|].
  rewrite orb_false_r. destruct (Nat.eqb j p) eqn:E.
  - apply Nat.eqb_eq in E. subst p. apply jsSet_nth_same.
  - apply Nat.eqb_neq in E. now apply jsSet_nth_inside.
Qed.

Lemma assignCluster_length_le labels ci cluster :
  List.length labels <= List.length (assignCluster labels ci cluster).
Proof. apply assignCluster_length_ge. Qed.

Lemma assignClusters_nth ci clusters labels j l0 :
  nth_error labels j = Some l0 ->
  nth_error (assignClusters ci clusters labels) j = Some (lastClusterOf ci clusters j l0).
Proof.
  revert ci labels l0. induction clusters as [|c clusters IH]; intros ci labels l0 Hj; simpl.
  - exact Hj.
  - assert (Hlt : j < List.length labels) by (apply nth_error_Some; congruence).
    apply IH. rewrite assignCluster_nth by exact Hlt.
    destruct (existsb (Nat.eqb j) c); [reflexivity|exact Hj].
Qed.

Lemma lastClusterOf_none ci clusters j d :
  (forall cl, In cl clusters -> ~ In j cl) -> lastClusterOf ci clusters j d = d.
Proof.
  revert ci d. induction clusters as [|c clusters IH]; intros ci d H; simpl; [reflexivity|].
  destruct (existsb (Nat.eqb j) c) eqn:E.
  - apply existsb_eqb_In in E. exfalso. apply (H c); [now left|exact E].
  - apply IH. intros cl Hcl. apply H. now right.
Qed.

Lemma lastClusterOf_last ci clusters j d k cl :
  nth_error clusters k = Some cl -> In j cl ->
  (forall k' cl', k < k' -> nth_error clusters k' = Some cl' -> ~ In j cl') ->
  lastClusterOf ci clusters j d = Some (Z.of_nat (ci + k)).
Proof.
  revert ci d k. induction clusters as [|c clusters IH]; intros ci d k Hk Hin Hlast.
  - destruct k; discriminate.
  - destruct k as [|k]; simpl in Hk |- *.
    + injection Hk as ->. apply existsb_eqb_In in Hin. rewrite Hin.
      rewrite lastClusterOf_none; [now rewrite Nat.add_0_r|].
      intros cl' Hcl'. destruct (In_nth_error _ _ Hcl') as [k' Hk'].
      apply (Hlast (S k') cl'); [lia|exact Hk'].
    + rewrite (IH (S ci) _ k Hk Hin).
      * f_equal. lia.
      * intros k' cl' Hlt Hk'. apply (Hlast (S k') cl'); [lia|exact Hk'].
Qed.

(** Either no cluster lists [j], or there is a last one that does. *)
Lemma last_cluster_cases (clusters : list (list nat)) j :
  (forall cl, In cl clusters -> ~ In j cl)
  \/ exists k cl, nth_error clusters k = Some cl /\ In j cl
                  /\ forall k' cl', k < k' -> nth_error clusters k' = Some cl' -> ~ In j cl'.
Proof.
  induction clusters as [|c clusters IH].
  - left. intros cl [].
  - destruct IH as [Hnone|[k [cl [Hk [Hin Hlast]]]]].
    + destruct (in_dec Nat.eq_dec j c) as [Hc|Hc].
      * right. exists 0, c. split; [reflexivity|]. split; [exact Hc|].
        intros k' cl' Hlt Hk'. destruct k' as [|k']; [lia|]. simpl in Hk'.
        apply Hnone. eapply nth_error_In. eassumption.
      * left. intros cl [<-|Hcl]; [exact Hc|now apply Hnone].
    + right. exists (S k), cl. split; [exact Hk|]. split; [exact Hin|].
      intros k' cl' Hlt Hk'. destruct k' as [|k']; [lia|]. simpl in Hk'.
      apply (Hlast k' cl'); [lia|exact Hk'].
Qed.

(** X11.  The labels of [clusterDBSCAN] for a matrix of at least
    [minSamples] rows, read off the clusters of the package: a point that no
    cluster lists has the label -1; a point that clusters list has the index
    of the last cluster that lists it; and every label is -1 or the index of
    a cluster. *)
Theorem dbscan_labels_from_clusters {num : Type} {N : JsNumber num} {L : ClusterLib num}
        (m : list (list num)) (eps : num) (minSamples j : nat) :
  j < List.length m -> minSamples <= List.length m ->
  let clusters := dbscanRun m eps minSamples cosineDistance in
  let labels := clusterDBSCAN m eps minSamples in
  (nth_error labels j = Some NOISE <-> forall cl, In cl clusters -> ~ In j cl)
  /\ (forall c, nth_error labels j = Some (Some (Z.of_nat c))
                <-> exists cl, nth_error clusters c = Some cl /\ In j cl
                               /\ forall c' cl', c < c' ->
                                    nth_error clusters c' = Some cl' -> ~ In j cl')
  /\ (exists l, nth_error labels j = Some l
                /\ (l = NOISE \/ exists c, c < List.length clusters /\ l = Some (Z.of_nat c))).
Proof.
  intros Hj Hmin clusters labels.
  assert (Hlab : nth_error labels j = Some (lastClusterOf 0 clusters j NOISE)).
  { unfold labels, clusterDBSCAN.
    destruct (List.length m =? 0) eqn:E0; [apply Nat.eqb_eq in E0; lia|].
    destruct (List.length m <? minSamples) eqn:E1; [apply Nat.ltb_lt in E1; lia|].
    apply assignClusters_nth. now apply nth_error_repeat. }
  rewrite Hlab.
  destruct (last_cluster_cases clusters j) as [Hnone|[k [cl [Hk [Hin Hlast]]]]].
  - rewrite (lastClusterOf_none 0 clusters j NOISE Hnone). split; [|split].
    + tauto.
    + intro c. split.
      * intro H. injection H as H. unfold NOISE in H. lia.
      * intros [cl [Hc [Hin _]]]. exfalso. apply (Hnone cl); [|exact Hin].
        eapply nth_error_In. eassumption.
    + exists NOISE. auto.
  - rewrite (lastClusterOf_last 0 clusters j NOISE k cl Hk Hin Hlast). simpl Nat.add.
    split; [|split].
    + split.
      * intro H. injection H as H. lia.
      * intro Hnone. exfalso. apply (Hnone cl); [|exact Hin].
        eapply nth_error_In. eassumption.
    + intro c. split.
      * intro H. injection H as H. assert (c = k) by lia. subst c.
        exists cl. auto.
      * intros [cl' [Hc [Hin' Hlast']]].
        destruct (Nat.lt_trichotomy c k) as [Hlt|[->|Hgt]]; [|reflexivity|].
        -- exfalso. apply (Hlast' k cl Hlt Hk Hin).
        -- exfalso. apply (Hlast c cl' Hgt Hc Hin').
    + exists (Some (Z.of_nat k)). split; [reflexivity|]. right. exists k.
      split; [|reflexivity]. apply nth_error_Some. congruence.
Qed.

(** ** index.ts: the automatic cluster count *)

(** X12.  The automatic cluster count lies between 1 and 50 and never
    exceeds the number of vectors; it is 1 up to four vectors, 50 from 4901
    vectors on, and it does not decrease when vectors are added. *)
Theorem autoK_range (n : nat) :
  (1 <= autoK n <= 50)%Z
  /\ (1 <= n -> (autoK n <= Z.of_nat n)%Z)
  /\ (autoK n = 1%Z <-> n <= 4)
  /\ (autoK n = 50%Z <-> 4901 <= n)
  /\ (forall n', n <= n' -> (autoK n <= autoK n')%Z).
Proof.
  unfold autoK, roundSqrtHalf.
  pose proof (Z.sqrt_spec (2 * Z.of_nat n)) as Hs.
  pose proof (Z.sqrt_nonneg (2 * Z.of_nat n)) as Hs0.
  set (s := Z.sqrt (2 * Z.of_nat n)) in *.
  assert (Hspec : (s * s <= 2 * Z.of_nat n < (s + 1) * (s + 1))%Z)
    by (unfold Z.succ in Hs; apply Hs; lia).
  split; [lia|]. split; [|split; [|split]].
  - intro Hn.
    assert (s + 1 <= 2 * Z.of_nat n)%Z
      by (destruct (Z_le_gt_dec s 1); [lia|nia]).
    assert ((s + 1) / 2 <= Z.of_nat n)%Z
      by (apply Z.div_le_upper_bound; lia).
    lia.
  - assert (Hq : ((s + 1) / 2 <= 1 <-> s <= 2)%Z).
    { split; intro H.
      - assert (s + 1 < 2 * 2)%Z; [|lia].
        apply Z.nle_gt. intro Hc. apply (Z.div_le_lower_bound _ 2) in Hc; lia.
      - apply Z.lt_succ_r. apply Z.div_lt_upper_bound; lia. }
    split; intro H.
    + assert (s <= 2)%Z by (apply Hq; lia). nia.
    + assert (s <= 2)%Z by nia. apply Hq in H0. lia.
  - assert (Hq : (50 <= (s + 1) / 2 <-> 99 <= s)%Z).
    { split; intro H.
      - apply Z.nlt_ge. intro Hc.
        assert ((s + 1) / 2 < 50)%Z by (apply Z.div_lt_upper_bound; lia). lia.
      - apply Z.div_le_lower_bound; lia. }
    split; intro H.
    + assert (99 <= s)%Z by (apply Hq; lia). nia.
    + assert (99 <= s)%Z by nia. apply Hq in H0. lia.
  - intros n' Hle.
    assert (Hm : (s <= Z.sqrt (2 * Z.of_nat n'))%Z)
      by (apply Z.sqrt_le_mono; lia).
    assert (((s + 1) / 2 <= (Z.sqrt (2 * Z.of_nat n') + 1) / 2)%Z)
      by (apply Z.div_le_mono; lia).
    lia.
Qed.

(** ** index.ts: the runs in which K-means is not consulted *)

Lemma autoK_small (n : nat) : n <= 4 -> autoK n = 1%Z.
Proof.
  intro H. destruct n as [|[|[|[|[|n]]]]]; try reflexivity. lia.
Qed.

Section SingleClusterFacts.
Context {num : Type} {N : JsNumber num} {L : ClusterLib num}.

Lemma clusterKMeans_single (m : list (list num)) (k : Z) :
  (k <= 1)%Z -> clusterKMeans m k = repeat (Some 0%Z) (List.length m).
Proof.
  intro Hk. unfold clusterKMeans.
  destruct (List.length m =? 0) eqn:E.
  - apply Nat.eqb_eq in E. rewrite E. reflexivity.
  - destruct (Z.min k (Z.of_nat (List.length m)) <=? 1)%Z eqn:E1; [reflexivity|].
    apply Z.leb_gt in E1. lia.
Qed.

(** The labels of a run in which [clusterKMeans] is asked for at most one
    cluster. *)
Lemma single_cluster_labels options fs ts :
  List.length ts = List.length fs ->
  dbscanEps options = None ->
  match nClusters options with
  | Some k => (k <= 1)%Z
  | None => List.length (filter hasText ts) <= 4
  end ->
  forall i t, nth_error ts i = Some t ->
    nth_error (computeLabels options fs ts) i
    = Some (if hasText t then Some 0%Z
            else match filter hasText ts with [] => Some 0%Z | _ => NOISE end).
Proof.
  intros Hlen He Hmode i t Hi.
  destruct (hasText t) eqn:Eh.
  2:{ now apply empty_text_label with (t := t). }
  assert (Hin : In i (originalIndices (buildTfidfMatrix (num := num) ts))).
  { rewrite buildTfidfMatrix_unfold. cbn [originalIndices].
    apply in_originalIndices. eauto. }
  destruct (In_nth_error _ _ Hin) as [j Hj].
  assert (Hjm : j < List.length (matrix (buildTfidfMatrix (num := num) ts))).
  { rewrite <- originalIndices_length. apply nth_error_Some. congruence. }
  assert (Hnd : NoDup (originalIndices (buildTfidfMatrix (num := num) ts))).
  { rewrite buildTfidfMatrix_unfold. cbn [originalIndices]. apply nonEmptyFrom_NoDup. }
  assert (Hrange : forall o, In o (originalIndices (buildTfidfMatrix (num := num) ts)) ->
                             o < List.length (repeat NOISE (List.length fs))).
  { intros o Ho. rewrite repeat_length, <- Hlen. rewrite originalIndices_textIndices in Ho.
    destruct (In_nth_error _ _ Ho) as [b Hbo]. eapply textIndices_bound; eassumption. }
  unfold computeLabels. rewrite He.
  destruct (List.length (matrix (buildTfidfMatrix ts)) =? 0) eqn:E0;
    [apply Nat.eqb_eq in E0; lia|].
  destruct (nClusters options) as [k|].
  - unfold remapLabels. eapply remapFrom_row; try eassumption.
    rewrite clusterKMeans_single by lia. now apply nth_error_repeat.
  - unfold remapLabels. eapply remapFrom_row; try eassumption.
    rewrite clusterKMeans_single.
    + now apply nth_error_repeat.
    + rewrite matrix_length_hasText, autoK_small by exact Hmode. lia.
Qed.
End SingleClusterFacts.

(** X13.  K-means without clustering.  When the caller asks for at most one
    cluster, or asks for nothing and at most four frames have text, the
    package is not consulted: every frame with text gets the label 0, all
    frames with text lie in one output group, which holds no frame without
    text, and the result has at most two groups. *)
Theorem single_cluster_runs {num : Type} {N : JsNumber num} {L : ClusterLib num}
        (w : World num) (options : VideoAnalyzerOptions num)
        (r : VideoAnalyzerResult num) :
  cacheAligned w options ->
  dbscanEps options = None ->
  match nClusters options with
  | Some k => (k <= 1)%Z
  | None => List.length (filter hasText (frameTexts w options)) <= 4
  end ->
  analyzeVideo w options = Ok r ->
  List.length (groups r) <= 2
  /\ exists parts k,
       Forall2 (groupMembers (sampledFrames w options)) parts (groups r)
       /\ (forall i t, nth_error (frameTexts w options) i = Some t ->
                       hasText t = true -> In i (nth k parts []))
       /\ (filter hasText (frameTexts w options) <> [] ->
           forall i t, In i (nth k parts []) ->
                       nth_error (frameTexts w options) i = Some t -> hasText t = true).
Proof.
  intros Ha He Hmode Hr.
  pose proof (frameTexts_length w options Ha) as Hlen.
  destruct (analyzeVideo_groups w options r Hr) as [Hll [_ Hg]].
  pose proof (single_cluster_labels options (sampledFrames w options)
                                    (frameTexts w options) Hlen He Hmode) as Hlab.
  fold (runLabels w options) in Hlab.
  split.
  - destruct Hg as [ls [Hnd [Hls [Hf2 _]]]].
    rewrite <- (Forall2_length Hf2).
    change 2 with (List.length [Some 0%Z; NOISE]).
    apply NoDup_incl_length; [exact Hnd|].
    intros l Hl. apply Hls in Hl. destruct (In_nth_error _ _ Hl) as [i Hi].
    assert (Hib : i < List.length (frameTexts w options)).
    { rewrite Hlen, <- Hll. apply nth_error_Some. congruence. }
    destruct (nth_error (frameTexts w options) i) as [t|] eqn:Et.
    2:{ apply nth_error_None in Et. lia. }
    rewrite (Hlab i t Et) in Hi. injection Hi as <-.
    destruct (hasText t); [now left|].
    destruct (filter hasText (frameTexts w options)); simpl; auto.
  - destruct (groups_parts _ _ _ Hg Hll) as [parts [Hf2 [_ [_ Hcls]]]].
    exists parts.
    destruct (filter hasText (frameTexts w options)) as [|t0 rest] eqn:Ef.
    + exists 0. split; [exact Hf2|]. split; [|congruence].
      intros i t Hi Ht. exfalso.
      assert (Hin : In t (filter hasText (frameTexts w options))).
      { apply filter_In. split; [eapply nth_error_In; eassumption|exact Ht]. }
      rewrite Ef in Hin. contradiction.
    + assert (Hin0 : In t0 (filter hasText (frameTexts w options)))
        by (rewrite Ef; now left).
      apply filter_In in Hin0. destruct Hin0 as [Hin0 Ht0].
      destruct (In_nth_error _ _ Hin0) as [i0 Hi0].
      pose proof (Hlab i0 t0 Hi0) as Hl0. rewrite Ht0 in Hl0.
      destruct (Hcls i0 _ Hl0) as [k [_ [_ Hk]]].
      exists k. split; [exact Hf2|]. split.
      * intros i t Hi Ht. apply Hk. rewrite (Hlab i t Hi), Ht. reflexivity.
      * intros _ i t Hi Ht. apply Hk in Hi. rewrite (Hlab i t Ht) in Hi.
        destruct (hasText t); [reflexivity|discriminate].
Qed.

(** ** representativeSelection.ts: outcomes *)

Section SelectionFacts.
Context {num : Type} {N : JsNumber num}.

Lemma pathAt_member (paths : list string) i p : pathAt paths i = Ok p -> In p paths.
Proof.
  unfold pathAt. destruct (nth_error paths i) eqn:E; [|discriminate].
  intro H. injection H as <-. eapply nth_error_In. eassumption.
Qed.

Lemma pathAt_not_empty_error (paths : list string) i :
  pathAt paths i <> Err EmptyGroupError.
Proof. unfold pathAt. destruct (nth_error paths i); discriminate. Qed.

Lemma selectRepresentative_member paths texts p :
  selectRepresentative (num := num) paths texts = Ok p -> In p paths.
Proof.
  unfold selectRepresentative.
  destruct paths as [|p0 [|p1 paths']]; [discriminate| |].
  - intro H. injection H as <-. now left.
  - destruct (matrix (buildTfidfMatrix texts)) as [|row0 [|row1 rest]].
    + intro H. injection H as <-. now left.
    + apply pathAt_member.
    + apply pathAt_member.
Qed.

Lemma selectRepresentative_empty_error paths texts :
  selectRepresentative (num := num) paths texts = Err EmptyGroupError <-> paths = [].
Proof.
  unfold selectRepresentative. split.
  - destruct paths as [|p0 [|p1 paths']]; [reflexivity|discriminate|].
    destruct (matrix (buildTfidfMatrix texts)) as [|row0 [|row1 rest]];
      [discriminate| |]; intro H; exfalso; eapply pathAt_not_empty_error; exact H.
  - intros ->. reflexivity.
Qed.

Lemma selectRepresentative_returns paths texts :
  paths <> [] -> List.length texts <= List.length paths ->
  exists p, selectRepresentative (num := num) paths texts = Ok p.
Proof.
  intros Hne Hlen. unfold selectRepresentative.
  destruct paths as [|p0 [|p1 paths']]; [contradiction|eauto|].
  set (paths := p0 :: p1 :: paths') in *.
  assert (Hpath : forall b, b < List.length (textIndices texts) ->
                            exists p, pathAt paths (nth b (textIndices texts) 0) = Ok p).
  { intros b Hb. destruct (nth_error (textIndices texts) b) as [i|] eqn:Ei.
    2:{ apply nth_error_None in Ei. lia. }
    rewrite (nth_error_nth _ _ 0 Ei). unfold pathAt.
    pose proof (textIndices_bound texts b i Ei) as Hi.
    destruct (nth_error paths i) eqn:Ep; [eauto|].
    apply nth_error_None in Ep. lia. }
  pose proof (originalIndices_length (num := num) texts) as Hol.
  rewrite originalIndices_textIndices in *.
  destruct (matrix (buildTfidfMatrix texts)) as [|row0 [|row1 rest]] eqn:Em.
  - eauto.
  - apply Hpath. rewrite Hol. simpl. lia.
  - apply Hpath. rewrite Hol.
    apply (bestFrom_bound _ (row0 :: row1 :: rest) 0 0 None).
    right. split; [discriminate|reflexivity].
Qed.
End SelectionFacts.

(** X14.  [selectRepresentative] throws its own error exactly for the empty
    group; what it returns is always one of the paths it was given; and it
    returns, for a group that is not empty, whenever there are no more texts
    than paths. *)
Theorem representative_is_member {num : Type} {N : JsNumber num}
        (paths texts : list string) :
  (selectRepresentative (num := num) paths texts = Err EmptyGroupError <-> paths = [])
  /\ (forall p, selectRepresentative (num := num) paths texts = Ok p -> In p paths)
  /\ (paths <> [] -> List.length texts <= List.length paths ->
      exists p, selectRepresentative (num := num) paths texts = Ok p).
Proof.
  split; [apply selectRepresentative_empty_error|]. split.
  - intro p. apply selectRepresentative_member.
  - apply selectRepresentative_returns.
Qed.

Lemma nonEmptyFrom_repeat s t n :
  hasText t = true -> nonEmptyFrom s (repeat t n) = (seq s n, repeat t n).
Proof.
  intro Ht. revert s. induction n as [|n IH]; intro s; simpl; [reflexivity|].
  rewrite IH. unfold hasText in Ht. now rewrite Ht.
Qed.

Section IdenticalFacts.
Context {num : Type} {N : JsNumber num} {O : StrictWeakOrder num N}.

Lemma bestFrom_constant (row c : list num) n i bestIdx :
  bestFrom i (repeat row n) c bestIdx (Some (cosineSimilarity row c)) = bestIdx.
Proof.
  revert i. induction n as [|n IH]; intro i; simpl; [reflexivity|].
  rewrite gt_irrefl. apply IH.
Qed.
End IdenticalFacts.

(** X15.  A group whose frames all carry the same text, not blank, is
    represented by its first frame: the rows are equal, so are their
    similarities to the centroid, and the strict comparison keeps the first
    index. *)
Theorem identical_texts_first_frame {num : Type} {N : JsNumber num}
        (O : StrictWeakOrder num N) (p : string) (paths : list string) (t : string) :
  hasText t = true ->
  selectRepresentative (num := num) (p :: paths) (repeat t (S (List.length paths))) = Ok p.
Proof.
  intro Ht. destruct paths as [|q paths]; [reflexivity|].
  unfold selectRepresentative.
  set (n := S (List.length (q :: paths))).
  rewrite buildTfidfMatrix_unfold. cbn [matrix originalIndices].
  unfold tokenizedDocsOf. rewrite (nonEmptyFrom_repeat 0 t n Ht). cbn [fst snd].
  rewrite !map_repeat.
  set (docs := repeat (tokenize t) n). set (row := rowOf (num := num) docs (tokenize t)).
  unfold n. cbn [List.length repeat seq nth].
  cbn [bestFrom]. rewrite gt_irrefl.
  rewrite bestFrom_constant. reflexivity.
Qed.

(** ** ocr.ts: the pool at every moment of a run *)

Lemma launch_completed p : Ocr.completed (Ocr.launch p) = Ocr.completed p.
Proof. unfold Ocr.launch. destruct (Ocr.enterLoop (Ocr.queue p)). reflexivity. Qed.

Lemma launch_workers p :
  List.length (Ocr.workerStates (Ocr.launch p)) = S (List.length (Ocr.workerStates p)).
Proof.
  unfold Ocr.launch. destruct (Ocr.enterLoop (Ocr.queue p)). simpl.
  rewrite length_app. simpl. lia.
Qed.

Lemma start_counts frames workers :
  Ocr.completed (Ocr.start frames workers) = 0
  /\ List.length (Ocr.workerStates (Ocr.start frames workers))
     = Z.to_nat (Z.min workers (Z.of_nat (List.length frames))).
Proof.
  unfold Ocr.start.
  induction (Z.to_nat (Z.min workers (Z.of_nat (List.length frames)))) as [|n [IH1 IH2]].
  - simpl. auto.
  - simpl. rewrite launch_completed, launch_workers. auto.
Qed.

Lemma inFlightCount_le p : inFlightCount p <= List.length (Ocr.workerStates p).
Proof. apply filter_length_le. Qed.

Lemma pending_split p : pending p = inFlightCount p + List.length (Ocr.queue p).
Proof. reflexivity. Qed.

Section PoolCounts.
Variable tesseract : string -> string -> option string.
Variable lang : string.

Lemma resume_counts p i p' :
  Ocr.resume tesseract lang p i = Some p' ->
  Ocr.completed p' = S (Ocr.completed p)
  /\ List.length (Ocr.workerStates p') = List.length (Ocr.workerStates p).
Proof.
  unfold Ocr.resume. intro H.
  destruct (nth_error (Ocr.workerStates p) i) as [[f|]|]; try discriminate.
  destruct (Ocr.enterLoop (Ocr.queue p)) as [w0 q]. injection H as <-.
  cbn [Ocr.completed Ocr.workerStates]. rewrite setNth_length. auto.
Qed.

Lemma steps_counts p p' :
  Ocr.steps tesseract lang p p' ->
  Ocr.completed p' + pending p' = Ocr.completed p + pending p
  /\ List.length (Ocr.workerStates p') = List.length (Ocr.workerStates p).
Proof.
  induction 1 as [p|p p1 p2 [i Hstep] _ [IH1 IH2]]; [auto|].
  destruct (resume_counts _ _ _ Hstep) as [Hc Hw].
  pose proof (resume_pending tesseract lang _ _ _ Hstep) as Hp.
  split; lia.
Qed.

Lemma not_settled_step p :
  Ocr.settled p = false -> exists p', Ocr.step tesseract lang p p'.
Proof.
  unfold Ocr.settled. intro H.
  assert (Hex : exists i f, nth_error (Ocr.workerStates p) i = Some (Ocr.Awaiting f)).
  { induction (Ocr.workerStates p) as [|[f|] ws IH]; simpl in H.
    - discriminate.
    - exists 0, f. reflexivity.
    - destruct (IH H) as [i [f Hi]]. exists (S i), f. exact Hi. }
  destruct Hex as [i [f Hi]]. unfold Ocr.step, Ocr.resume.
  exists (let (w0, q) := Ocr.enterLoop (Ocr.queue p) in
          {| Ocr.queue := q;
             Ocr.results := JsMap.set String.eqb (Ocr.results p) f
                                      (Ocr.ocrFrame tesseract f lang);
             Ocr.completed := S (Ocr.completed p);
             Ocr.workerStates := setNth (Ocr.workerStates p) i w0 |}).
  exists i. rewrite Hi. destruct (Ocr.enterLoop (Ocr.queue p)). reflexivity.
Qed.

End PoolCounts.

Lemma settled_iff_none_in_flight p : Ocr.settled p = true <-> inFlightCount p = 0.
Proof.
  unfold Ocr.settled, inFlightCount.
  induction (Ocr.workerStates p) as [|[f|] ws IH]; simpl.
  - tauto.
  - split; [discriminate|lia].
  - exact IH.
Qed.

(** X16.  At every moment of a run of the pool, under every schedule and
    for every worker count: the number of OCR processes that run never
    exceeds [min(workers, frames.length)], and every frame is accounted for
    exactly once, as completed, as in flight, or as still queued. *)
Theorem pool_bounded_concurrency (tesseract : string -> string -> option string)
        (frames : list string) (lang : string) (workers : Z) (p : Ocr.pool) :
  Ocr.steps tesseract lang (Ocr.start frames workers) p ->
  inFlightCount p <= Z.to_nat (Z.min workers (Z.of_nat (List.length frames)))
  /\ Ocr.completed p + inFlightCount p + List.length (Ocr.queue p) = List.length frames.
Proof.
  intro Hsteps.
  destruct (steps_counts tesseract lang _ _ Hsteps) as [Hc Hw].
  destruct (start_counts frames workers) as [Hc0 Hw0].
  rewrite start_pending, Hc0 in Hc. rewrite Hw0 in Hw. split.
  - rewrite <- Hw. apply inFlightCount_le.
  - rewrite pending_split in Hc. lia.
Qed.

(** X17.  With at least one worker, under every schedule: [Promise.all]
    resolves exactly when every frame is completed; until then some call can
    resume, so the pool never comes to a halt with frames left; and when it
    has resolved, the map holds the frames, each once (a rearrangement of the
    frame list when the paths are distinct), each with the text of its OCR
    process or the empty text where the process failed. *)
Theorem pool_settles_when_complete (tesseract : string -> string -> option string)
        (frames : list string) (lang : string) (workers : Z) (p : Ocr.pool) :
  (1 <= workers)%Z ->
  Ocr.steps tesseract lang (Ocr.start frames workers) p ->
  (Ocr.settled p = true <-> Ocr.completed p = List.length frames)
  /\ (Ocr.settled p = false -> exists p', Ocr.step tesseract lang p p')
  /\ (Ocr.settled p = true ->
      (NoDup frames -> Permutation (JsMap.keys (Ocr.results p)) frames)
      /\ forall f, In f frames ->
           JsMap.get String.eqb (Ocr.results p) f
           = Some (match tesseract f lang with Some out => out | None => "" end)).
Proof.
  intros Hw Hsteps.
  destruct (steps_counts tesseract lang _ _ Hsteps) as [Hc _].
  destruct (start_counts frames workers) as [Hc0 _].
  rewrite start_pending, Hc0, pending_split in Hc.
  pose proof (steps_invariant tesseract frames lang _ _ Hsteps
                              (start_invariant tesseract frames lang workers Hw)) as Hinv.
  split; [|split].
  - rewrite settled_iff_none_in_flight. split.
    + intro H0. destruct Hinv as [_ [_ [_ Hq]]].
      destruct (Ocr.queue p) as [|g q] eqn:Eq; [simpl in Hc; lia|].
      destruct Hq as [f Hf]; [discriminate|]. exfalso.
      assert (Hs : Ocr.settled p = true) by (now apply settled_iff_none_in_flight).
      eapply settled_no_inFlight; eassumption.
    + lia.
  - apply not_settled_step.
  - intro Hs.
    destruct (pool_complete tesseract lang frames workers p Hw Hsteps Hs)
      as [Hnd [Hkeys Hget]].
    split; [|exact Hget].
    intro Hndf. apply NoDup_Permutation; assumption.
Qed.

(** ** index.ts: the texts of a run that finds no cache record *)

(** X18.  In a run that finds no cache record and extracts at least one
    frame, the clustering works on the extracted frames and on texts that
    are index-aligned with them.  With at least one worker (eight by default)
    the text of a frame is the output of its OCR process, or the empty text
    when that process failed: a failure touches no other frame.  With a
    worker count of zero or less every text is empty. *)
Theorem texts_of_uncached_run {num : Type} {N : JsNumber num} {L : ClusterLib num}
        (w : World num) (options : VideoAnalyzerOptions num) :
  loadCache w (videoHashOf w options) = None ->
  let ocrLang := match lang options with Some l => l | None => "eng" end in
  let nWorkers := match workers options with Some n => n | None => 8%Z end in
  let frames := sampledFrames w options in
  let texts := frameTexts w options in
  (frames <> [] ->
   exists vp od f, analyzeVideo w options = clusterAndGroup options vp od f frames texts)
  /\ ((1 <= nWorkers)%Z ->
      texts = map (fun f => match tesseract w f ocrLang with
                            | Some out => out
                            | None => ""
                            end) frames)
  /\ ((nWorkers <= 0)%Z -> texts = map (fun _ => "") frames).
Proof.
  intros Hc ocrLang nWorkers frames texts. split; [|split].
  - intro Hne.
    destruct (analyzeVideo_cases w options) as [[_ [Hf _]]|H]; [|exact H].
    contradiction.
  - intro Hw. unfold texts, frameTexts. rewrite Hc. apply map_ext_in. intros f Hf.
    destruct (ocrAllFrames_complete (tesseract w) ocrLang (sampledFrames w options)
                                    nWorkers Hw) as [_ [_ Hget]].
    fold ocrLang nWorkers. now rewrite (Hget f Hf).
  - intro Hw. unfold texts, frameTexts. rewrite Hc.
    apply map_ext. intro f. fold ocrLang nWorkers.
    now rewrite ocrAllFrames_without_workers.
Qed.

(** ** Strings *)

Lemma string_app_nil_r (s : string) : (s ++ "")%string = s.
Proof. induction s as [|c s IH]; simpl; congruence. Qed.

Lemma string_app_assoc (a b c : string) : ((a ++ b) ++ c)%string = (a ++ b ++ c)%string.
Proof. induction a as [|x a IH]; simpl; congruence. Qed.

Lemma string_length_app (a b : string) :
  String.length (a ++ b) = String.length a + String.length b.
Proof. induction a as [|x a IH]; simpl; congruence. Qed.

Lemma string_eqb_length (a b : string) :
  String.length a <> String.length b -> String.eqb a b = false.
Proof. intro H. apply String.eqb_neq. intros ->. now apply H. Qed.

(** ** node:path on the path of a frame file *)

Lemma allSlashes_app (x s : string) :
  Path.allSlashes s = false -> Path.allSlashes (x ++ s) = false.
Proof.
  intro H. induction x as [|c x IH]; simpl; [exact H|].
  rewrite IH. apply andb_false_r.
Qed.

Lemma noSlash_not_allSlashes (name : string) :
  name <> "" -> noSlash name = true -> Path.allSlashes name = false.
Proof.
  destruct name as [|c name]; [congruence|]. intros _ H. unfold noSlash in H.
  simpl in H. apply andb_true_iff in H. destruct H as [Hc _].
  simpl. apply negb_true_iff in Hc. now rewrite Hc.
Qed.

Lemma lastSegmentFrom_noSlash (cur s : string) :
  noSlash s = true -> Path.lastSegmentFrom cur s = (cur ++ s)%string.
Proof.
  revert cur. induction s as [|c s IH]; intros cur H; simpl.
  - now rewrite string_app_nil_r.
  - unfold noSlash in H. simpl in H. apply andb_true_iff in H. destruct H as [Hc Hs].
    apply negb_true_iff in Hc. rewrite Hc, IH by exact Hs.
    now rewrite string_app_assoc.
Qed.

Lemma lastSegment_join (dir name : string) :
  name <> "" -> noSlash name = true -> Path.lastSegment (Path.join dir name) = name.
Proof.
  intros Hne Hns. unfold Path.lastSegment, Path.join.
  assert (Hname : Path.allSlashes name = false) by now apply noSlash_not_allSlashes.
  enough (H : forall cur, Path.lastSegmentFrom cur (dir ++ "/" ++ name) = name)
    by apply H.
  induction dir as [|c dir IH]; intro cur.
  - simpl. rewrite Hname. now apply lastSegmentFrom_noSlash.
  - cbn [append Path.lastSegmentFrom].
    assert (Hrest : Path.allSlashes (dir ++ "/" ++ name) = false).
    { apply allSlashes_app. simpl. now rewrite Hname. }
    cbn [append] in Hrest, IH.
    rewrite Hrest. destruct (Path.isSlash c); apply IH.
Qed.

Lemma fromLastDot_jpg (x : string) : Path.fromLastDot (x ++ ".jpg") = Some ".jpg".
Proof.
  induction x as [|c x IH]; [reflexivity|].
  cbn [append Path.fromLastDot]. now rewrite IH.
Qed.

Lemma endsWith_app (x e : string) : Path.endsWith (x ++ e) e = true.
Proof.
  induction x as [|c x IH].
  - destruct e; simpl; rewrite ?Ascii.eqb_refl, ?String.eqb_refl; reflexivity.
  - cbn [append Path.endsWith]. rewrite IH. apply orb_true_r.
Qed.

Lemma takeChars_app (x e : string) : Path.takeChars (String.length x) (x ++ e) = x.
Proof.
  induction x as [|c x IH]; simpl.
  - now destruct e.
  - now rewrite IH.
Qed.

(** ** Decimal digits *)

Lemma isDigit_not_space c : Js.isDigit c = true -> Js.isSpace c = false.
Proof.
  unfold Js.isDigit, Js.isSpace. intro H.
  apply andb_true_iff in H. destruct H as [H1 H2].
  apply Nat.leb_le in H1, H2.
  destruct (9 <=? nat_of_ascii c) eqn:E1, (nat_of_ascii c <=? 13) eqn:E2,
           (nat_of_ascii c =? 32) eqn:E3, (nat_of_ascii c =? 160) eqn:E4;
    try reflexivity;
    try apply Nat.leb_le in E2; try apply Nat.eqb_eq in E3; try apply Nat.eqb_eq in E4; lia.
Qed.

Lemma leadingDigits_digits (s : string) (acc : Z) (seen : bool) :
  allChars Js.isDigit s = true ->
  leadingDigits s acc seen
  = if seen || negb (String.eqb s "") then Some (decimalValue s acc) else None.
Proof.
  revert acc seen. induction s as [|c s IH]; intros acc seen H; simpl.
  - now destruct seen.
  - simpl in H. apply andb_true_iff in H. destruct H as [Hc Hs].
    rewrite Hc, IH by exact Hs. simpl. now rewrite orb_true_r.
Qed.

Lemma parseInt_digit_first (c : ascii) (r : string) :
  Js.isDigit c = true ->
  parseInt (String c r) = leadingDigits (String c r) 0%Z false.
Proof.
  intro H. unfold parseInt. cbn [Js.trimStart].
  rewrite (isDigit_not_space c H).
  destruct c as [b0 b1 b2 b3 b4 b5 b6 b7].
  destruct b0, b1, b2, b3, b4, b5, b6, b7; try discriminate H; reflexivity.
Qed.

Lemma parseInt_digits (s : string) :
  allChars Js.isDigit s = true -> s <> "" -> parseInt s = Some (decimalValue s 0).
Proof.
  intros H Hne. destruct s as [|c r]; [congruence|].
  assert (Hc : Js.isDigit c = true) by (simpl in H; now apply andb_true_iff in H).
  rewrite parseInt_digit_first by exact Hc.
  now rewrite leadingDigits_digits.
Qed.

Lemma allChars_digit_noSlash (s : string) :
  allChars Js.isDigit s = true -> noSlash s = true.
Proof.
  unfold noSlash. induction s as [|c s IH]; simpl; [reflexivity|].
  intro H. apply andb_true_iff in H. destruct H as [Hc Hs].
  rewrite IH by exact Hs. rewrite andb_true_r.
  destruct c as [b0 b1 b2 b3 b4 b5 b6 b7].
  destruct b0, b1, b2, b3, b4, b5, b6, b7; try discriminate Hc; reflexivity.
Qed.

(** The frame number is read back from a file name [frame_<digits>.jpg] in
    any directory. *)
Lemma getFrameNumber_of_digits (dir ds : string) :
  allChars Js.isDigit ds = true -> ds <> "" ->
  getFrameNumber (Path.join dir ("frame_" ++ ds ++ ".jpg")) = Some (decimalValue ds 0).
Proof.
  intros Hd Hne.
  set (name := ("frame_" ++ ds ++ ".jpg")%string).
  assert (Hns : noSlash name = true).
  { unfold name, noSlash. rewrite !allChars_app.
    fold (noSlash ds). rewrite (allChars_digit_noSlash ds Hd). reflexivity. }
  assert (Hseg : Path.lastSegment (Path.join dir name) = name)
    by (apply lastSegment_join; [discriminate|exact Hns]).
  assert (Hext : Path.extname (Path.join dir name) = ".jpg").
  { unfold Path.extname. rewrite Hseg. unfold name. cbn [append].
    cbn [String.eqb Ascii.eqb Bool.eqb].
    change (Path.fromLastDot ("rame_" ++ ds ++ ".jpg") = Some ".jpg") || idtac.
    cbn [Path.fromLastDot]. rewrite (fromLastDot_jpg ds). reflexivity. }
  unfold getFrameNumber. rewrite Hext. unfold Path.basename. rewrite Hseg.
  assert (Hlen : String.length name = 10 + String.length ds).
  { unfold name. rewrite !string_length_app. simpl. lia. }
  assert (H1 : String.eqb (Path.join dir name) ".jpg" = false).
  { apply string_eqb_length. unfold Path.join. rewrite !string_length_app, Hlen.
    simpl. lia. }
  assert (H2 : String.eqb name ".jpg" = false).
  { apply string_eqb_length. rewrite Hlen. simpl. lia. }
  rewrite H1, H2.
  change name with (("frame_" ++ ds) ++ ".jpg")%string.
  rewrite endsWith_app. cbn [String.eqb andb negb].
  rewrite string_length_app.
  replace (String.length ("frame_" ++ ds) + String.length ".jpg" - String.length ".jpg")
    with (String.length ("frame_" ++ ds)) by lia.
  rewrite takeChars_app.
  change (Js.removeFirst "frame_" ("frame_" ++ ds)) with ds.
  now apply parseInt_digits.
Qed.

(** ** [String(n)] and [parseInt] *)

Lemma string_of_uint_digits (u : Decimal.uint) :
  allChars Js.isDigit (NilEmpty.string_of_uint u) = true.
Proof. induction u; simpl; auto. Qed.

Lemma string_of_uint_length (u : Decimal.uint) :
  String.length (NilEmpty.string_of_uint u) = Decimal.nb_digits u.
Proof. induction u; simpl; congruence. Qed.

Lemma decimalValue_uint_acc (u : Decimal.uint) (acc : positive) :
  decimalValue (NilEmpty.string_of_uint u) (Zpos acc) = Zpos (Pos.of_uint_acc u acc).
Proof.
  revert acc. induction u; intro acc; simpl NilEmpty.string_of_uint;
    cbn [decimalValue Pos.of_uint_acc]; [reflexivity|..];
    rewrite <- IHu; f_equal; simpl Z.of_nat; lia.
Qed.

Lemma decimalValue_uint (u : Decimal.uint) :
  decimalValue (NilEmpty.string_of_uint u) 0 = Z.of_N (Pos.of_uint u).
Proof.
  induction u; simpl NilEmpty.string_of_uint; cbn [decimalValue Pos.of_uint];
    [reflexivity|exact IHu|..];
    cbn [Z.of_N]; rewrite <- decimalValue_uint_acc; f_equal.
Qed.

(** [String(n)] for [n >= 0]: a non-empty string of digits that denotes
    [n], without a zero in front unless [n] is zero. *)
Lemma ofZ_uint (n : Z) :
  (0 <= n)%Z ->
  exists u, u <> Decimal.Nil
            /\ Js.ofZ n = NilEmpty.string_of_uint u
            /\ Z.of_N (Pos.of_uint u) = n
            /\ Decimal.unorm u = u.
Proof.
  intro Hn. destruct n as [|p|p]; [| |lia].
  - exists (Decimal.D0 Decimal.Nil). repeat split. discriminate.
  - exists (Pos.to_uint p).
    pose proof (DecimalPos.Unsigned.to_uint_nonnil p) as Hnn.
    split; [exact Hnn|]. split; [|split].
    + unfold Js.ofZ. cbn [Z.to_int NilZero.string_of_int].
      unfold NilZero.string_of_uint. destruct (Pos.to_uint p); congruence.
    + now rewrite DecimalPos.Unsigned.of_to.
    + rewrite <- (DecimalPos.Unsigned.to_of (Pos.to_uint p)).
      now rewrite DecimalPos.Unsigned.of_to.
Qed.

Lemma repeatChar_zero_digits k : allChars Js.isDigit (Js.repeatChar "0"%char k) = true.
Proof. induction k as [|k IH]; simpl; auto. Qed.

Lemma decimalValue_zeros k s : decimalValue (Js.repeatChar "0"%char k ++ s) 0 = decimalValue s 0.
Proof. induction k as [|k IH]; simpl; auto. Qed.

Lemma padded_digits (width : nat) (n : Z) :
  (0 <= n)%Z ->
  allChars Js.isDigit (Js.padStart0 width (Js.ofZ n)) = true
  /\ Js.padStart0 width (Js.ofZ n) <> ""
  /\ decimalValue (Js.padStart0 width (Js.ofZ n)) 0 = n.
Proof.
  intro Hn. destruct (ofZ_uint n Hn) as [u [Hnn [Hs [Hv _]]]].
  unfold Js.padStart0. rewrite Hs. split; [|split].
  - now rewrite allChars_app, repeatChar_zero_digits, string_of_uint_digits.
  - intro H. apply (f_equal String.length) in H.
    rewrite string_length_app, string_of_uint_length in H. simpl in H.
    destruct u; simpl in H; try lia. congruence.
  - now rewrite decimalValue_zeros, decimalValue_uint.
Qed.

Lemma getFrameNumber_frameFileName (dir : string) (n : Z) :
  (0 <= n)%Z -> getFrameNumber (Path.join dir (frameFileName n)) = Some n.
Proof.
  intro Hn. destruct (padded_digits 6 n Hn) as [Hd [Hne Hv]].
  unfold frameFileName. rewrite getFrameNumber_of_digits by assumption.
  now rewrite Hv.
Qed.

(** X19.  Frame numbers survive the round trip through the file names: the
    number read from the path of the file that ffmpeg writes for frame [n]
    under the pattern [frame_%06d.jpg], in any directory, is [n]. *)
Theorem frame_number_round_trip (dir : string) (n : Z) :
  (0 <= n)%Z -> getFrameNumber (Path.join dir (frameFileName n)) = Some n.
Proof. apply getFrameNumber_frameFileName. Qed.

(** ** Sorting *)

Section SortFacts.
Variables (A : Type) (lt : A -> A -> bool) (le : A -> A -> Prop) (good : A -> Prop).
Hypothesis lt_le : forall x y, good x -> good y -> lt x y = true -> le x y.
Hypothesis nlt_le : forall x y, good x -> good y -> lt x y = false -> le y x.
Hypothesis le_trans : forall x y z, good x -> good y -> good z ->
                                    le x y -> le y z -> le x z.

Lemma insertBy_good x l : good x -> Forall good l -> Forall good (insertBy lt x l).
Proof.
  intros Hx Hl. eapply Permutation_Forall; [symmetry; apply insertBy_perm|].
  now constructor.
Qed.

Lemma insertBy_sorted x l :
  good x -> Forall good l -> StronglySorted le l -> StronglySorted le (insertBy lt x l).
Proof.
  intros Hx Hl Hs. induction Hs as [|y r Hr IH Hy]; simpl.
  - constructor; constructor.
  - inversion Hl as [|? ? Hgy Hgr]; subst.
    destruct (lt x y) eqn:E.
    + constructor; [now constructor|]. constructor; [now apply lt_le|].
      rewrite Forall_forall in *. intros z Hz.
      apply (le_trans x y z); auto.
    + constructor; [now apply IH|].
      eapply Permutation_Forall; [symmetry; apply insertBy_perm|].
      constructor; [now apply nlt_le|exact Hy].
Qed.

Lemma sortBy_sorted l : Forall good l -> StronglySorted le (sortBy lt l).
Proof.
  unfold sortBy.
  enough (H : forall acc, Forall good acc -> StronglySorted le acc -> Forall good l ->
                          StronglySorted le (fold_left (fun acc x => insertBy lt x acc) l acc))
    by (apply H; constructor).
  induction l as [|x l IH]; intros acc Hacc Hs Hl; simpl; [exact Hs|].
  inversion Hl as [|? ? Hx Hl']; subst.
  apply IH; [now apply insertBy_good|now apply insertBy_sorted|exact Hl'].
Qed.
End SortFacts.

(** ** The order of strings by code units *)

Lemma ascii_compare_refl (c : ascii) : Ascii.compare c c = Eq.
Proof. unfold Ascii.compare. apply N.compare_refl. Qed.

Lemma string_compare_refl (s : string) : String.compare s s = Eq.
Proof. induction s as [|c s IH]; simpl; [reflexivity|]. now rewrite ascii_compare_refl. Qed.

Lemma string_compare_lt_trans (a b c : string) :
  String.compare a b = Lt -> String.compare b c = Lt -> String.compare a c = Lt.
Proof.
  revert b c. induction a as [|x a IH]; intros [|y b] [|z c]; simpl; try congruence.
  unfold Ascii.compare.
  destruct (N.compare_spec (N_of_ascii x) (N_of_ascii y)) as [Exy|Exy|Exy];
    destruct (N.compare_spec (N_of_ascii y) (N_of_ascii z)) as [Eyz|Eyz|Eyz];
    destruct (N.compare_spec (N_of_ascii x) (N_of_ascii z)) as [Exz|Exz|Exz];
    try congruence; try lia; try apply IH.
Qed.

Lemma string_ltb_le (a b : string) : String.ltb a b = true -> String.leb a b = true.
Proof. unfold String.ltb, String.leb. now destruct (String.compare a b). Qed.

Lemma string_nltb_le (a b : string) : String.ltb a b = false -> String.leb b a = true.
Proof.
  unfold String.ltb, String.leb. rewrite (String.compare_antisym a b).
  destruct (String.compare b a); simpl; congruence.
Qed.

Lemma string_leb_trans (a b c : string) :
  String.leb a b = true -> String.leb b c = true -> String.leb a c = true.
Proof.
  unfold String.leb. intros Hab Hbc.
  destruct (String.compare a b) eqn:Eab; [| |discriminate].
  - apply String.compare_eq_iff in Eab. now subst.
  - destruct (String.compare b c) eqn:Ebc; [| |discriminate].
    + apply String.compare_eq_iff in Ebc. subst. now rewrite Eab.
    + now rewrite (string_compare_lt_trans a b c Eab Ebc).
Qed.

Lemma sortBy_strings_sorted (l : list string) :
  StronglySorted (fun a b => String.leb a b = true) (sortBy String.ltb l).
Proof.
  apply sortBy_sorted with (good := fun _ => True).
  - intros x y _ _. apply string_ltb_le.
  - intros x y _ _. apply string_nltb_le.
  - intros x y z _ _ _. apply string_leb_trans.
  - apply Forall_forall. auto.
Qed.

(** X20.  [extractFrames] returns the files of the frames directory whose
    names start with [frame_] and end with [.jpg], each once for each time it
    is listed and no other file, joined to the directory, in the order of
    their names by code units. *)
Theorem extractFrames_lists_frame_files (readdir : string -> list string)
        (videoPath outputDir : string) :
  let framesDir := Path.join outputDir "frames" in
  exists names,
    FrameExtractor.extractFrames readdir videoPath outputDir
    = map (fun f => Path.join framesDir f) names
    /\ Permutation names (filter FrameExtractor.isFrameFile (readdir framesDir))
    /\ (forall f, In f names <-> In f (readdir framesDir)
                                 /\ Js.startsWith "frame_" f = true
                                 /\ Path.endsWith f ".jpg" = true)
    /\ StronglySorted (fun a b => String.leb a b = true) names.
Proof.
  intro framesDir.
  exists (sortBy String.ltb (filter FrameExtractor.isFrameFile (readdir framesDir))).
  split; [reflexivity|]. split; [apply sortBy_perm|]. split.
  - intro f. split.
    + intro H. apply (Permutation_in _ (sortBy_perm _ _ _)) in H.
      apply filter_In in H. destruct H as [H1 H2].
      apply andb_true_iff in H2. tauto.
    + intros [H1 [H2 H3]].
      apply (Permutation_in _ (Permutation_sym (sortBy_perm _ _ _))).
      apply filter_In. split; [exact H1|]. unfold FrameExtractor.isFrameFile.
      now rewrite H2, H3.
  - apply sortBy_strings_sorted.
Qed.

(** ** Frame names in the order of their numbers *)

Lemma of_uint_acc_lower (u : Decimal.uint) (acc : positive) :
  (Zpos acc * 10 ^ Z.of_nat (Decimal.nb_digits u) <= Zpos (Pos.of_uint_acc u acc))%Z.
Proof.
  revert acc. induction u; intro acc; cbn [Decimal.nb_digits Pos.of_uint_acc];
    [simpl; lia|..];
    rewrite Nat2Z.inj_succ, Z.pow_succ_r by lia;
    (eapply Z.le_trans; [|apply IHu]);
    pose proof (Z.pow_nonneg 10 (Z.of_nat (Decimal.nb_digits u)) ltac:(lia)); nia.
Qed.

Lemma unorm_fixed_first_digit (d : Decimal.uint) :
  Decimal.unorm (Decimal.D0 d) = Decimal.D0 d -> d = Decimal.Nil.
Proof.
  intro H. rewrite DecimalFacts.unorm_D0 in H.
  destruct d as [|d'|d'|d'|d'|d'|d'|d'|d'|d'|d']; [reflexivity|..]; exfalso;
    match type of H with
    | Decimal.unorm ?x = _ =>
        pose proof (DecimalFacts.nb_digits_unorm x ltac:(discriminate)) as Hle;
        rewrite H in Hle; simpl in Hle; lia
    end.
Qed.

Lemma ofZ_length (n : Z) (width : nat) :
  1 <= width -> (0 <= n < 10 ^ Z.of_nat width)%Z -> String.length (Js.ofZ n) <= width.
Proof.
  intros Hw [Hn Hlt]. destruct (ofZ_uint n Hn) as [u [Hnn [Hs [Hv Hu]]]].
  rewrite Hs, string_of_uint_length.
  assert (Hpow : forall a b, a <= b -> (10 ^ Z.of_nat a <= 10 ^ Z.of_nat b)%Z)
    by (intros a b Hab; apply Z.pow_le_mono_r; lia).
  assert (Hacc : forall d k, Z.of_N (Pos.of_uint u) = Zpos (Pos.of_uint_acc d k) ->
                             Decimal.nb_digits d < width).
  { intros d k Hk. apply Nat.nle_gt. intro Hge.
    pose proof (of_uint_acc_lower d k) as Hlow. specialize (Hpow _ _ Hge).
    assert (1 <= Zpos k)%Z by lia.
    assert (0 < 10 ^ Z.of_nat (Decimal.nb_digits d))%Z by (apply Z.pow_pos_nonneg; lia).
    nia. }
  destruct u as [|d|d|d|d|d|d|d|d|d|d]; [congruence|..];
    try (cbn [Decimal.nb_digits]; apply Hacc with (k := 1%positive); reflexivity);
    try (cbn [Decimal.nb_digits]; cbn [Pos.of_uint] in Hacc;
         match goal with
         | H : forall d0 k, Z.of_N (N.pos (Pos.of_uint_acc ?d ?k0)) = _ -> _ |- _ =>
             apply (H d k0); reflexivity
         end).
  rewrite (unorm_fixed_first_digit d Hu). simpl. lia.
Qed.

Lemma repeatChar_length c k : String.length (Js.repeatChar c k) = k.
Proof. induction k as [|k IH]; simpl; congruence. Qed.

Lemma padStart0_length (width : nat) (s : string) :
  String.length s <= width -> String.length (Js.padStart0 width s) = width.
Proof.
  intro H. unfold Js.padStart0. rewrite string_length_app, repeatChar_length. lia.
Qed.

Lemma decimalValue_acc (s : string) (acc : Z) :
  decimalValue s acc
  = (acc * 10 ^ Z.of_nat (String.length s) + decimalValue s 0)%Z.
Proof.
  revert acc. induction s as [|c s IH]; intro acc; cbn [decimalValue String.length].
  - simpl. lia.
  - rewrite (IH (10 * acc + _)%Z), (IH (10 * 0 + _)%Z).
    rewrite Nat2Z.inj_succ, Z.pow_succ_r by lia. ring.
Qed.

Lemma digit_value_range (c : ascii) :
  Js.isDigit c = true -> (0 <= Z.of_nat (nat_of_ascii c - 48) <= 9)%Z.
Proof.
  unfold Js.isDigit. intro H. apply andb_true_iff in H. destruct H as [H1 H2].
  apply Nat.leb_le in H1, H2. lia.
Qed.

Lemma decimalValue_bound (s : string) :
  allChars Js.isDigit s = true ->
  (0 <= decimalValue s 0 < 10 ^ Z.of_nat (String.length s))%Z.
Proof.
  induction s as [|c s IH]; intro H; cbn [decimalValue String.length].
  - simpl. lia.
  - simpl in H. apply andb_true_iff in H. destruct H as [Hc Hs].
    specialize (IH Hs). pose proof (digit_value_range c Hc) as Hd.
    rewrite decimalValue_acc, Nat2Z.inj_succ, Z.pow_succ_r by lia. nia.
Qed.

Lemma ascii_compare_digits (c1 c2 : ascii) :
  Js.isDigit c1 = true -> Js.isDigit c2 = true ->
  Ascii.compare c1 c2
  = Z.compare (Z.of_nat (nat_of_ascii c1 - 48)) (Z.of_nat (nat_of_ascii c2 - 48)).
Proof.
  unfold Js.isDigit, Ascii.compare, nat_of_ascii. intros H1 H2.
  apply andb_true_iff in H1, H2. destruct H1 as [H1 _], H2 as [H2 _].
  apply Nat.leb_le in H1, H2.
  destruct (N.compare_spec (N_of_ascii c1) (N_of_ascii c2)) as [E|E|E];
    symmetry; [apply Z.compare_eq_iff|apply Z.compare_lt_iff|apply Z.compare_gt_iff]; lia.
Qed.

(** On strings of digits of the same length, the order by code units is the
    order of the numbers. *)
Lemma compare_digit_strings (a b : string) :
  allChars Js.isDigit a = true -> allChars Js.isDigit b = true ->
  String.length a = String.length b ->
  String.compare a b = Z.compare (decimalValue a 0) (decimalValue b 0).
Proof.
  revert b. induction a as [|x a IH]; intros [|y b] Ha Hb Hlen; try discriminate.
  - reflexivity.
  - simpl in Ha, Hb. apply andb_true_iff in Ha, Hb.
    destruct Ha as [Hx Ha], Hb as [Hy Hb]. injection Hlen as Hlen.
    cbn [String.compare decimalValue].
    rewrite (decimalValue_acc a), (decimalValue_acc b), <- Hlen.
    rewrite (ascii_compare_digits x y Hx Hy).
    pose proof (digit_value_range x Hx) as Dx. pose proof (digit_value_range y Hy) as Dy.
    pose proof (decimalValue_bound a Ha) as Ba. pose proof (decimalValue_bound b Hb) as Bb.
    rewrite <- Hlen in Bb.
    set (dx := Z.of_nat (nat_of_ascii x - 48)) in *.
    set (dy := Z.of_nat (nat_of_ascii y - 48)) in *.
    set (P := (10 ^ Z.of_nat (String.length a))%Z) in *.
    replace (10 * 0 + dx)%Z with dx by lia. replace (10 * 0 + dy)%Z with dy by lia.
    destruct (Z.compare_spec dx dy) as [E|E|E].
    + rewrite E, Z.add_compare_mono_l. now apply IH.
    + symmetry. apply Z.compare_lt_iff. nia.
    + symmetry. apply Z.compare_gt_iff. nia.
Qed.

Lemma compare_app_prefix (x s t : string) :
  String.compare (x ++ s) (x ++ t) = String.compare s t.
Proof.
  induction x as [|c x IH]; simpl; [reflexivity|]. now rewrite ascii_compare_refl.
Qed.

Lemma compare_app_suffix (a b e : string) :
  String.length a = String.length b ->
  String.compare a b <> Eq -> String.compare (a ++ e) (b ++ e) = String.compare a b.
Proof.
  revert b. induction a as [|x a IH]; intros [|y b] Hlen Hne; try discriminate.
  - simpl in Hne. congruence.
  - injection Hlen as Hlen. simpl in *.
    destruct (Ascii.compare x y); [now apply IH|reflexivity|reflexivity].
Qed.

Lemma compare_frame_names (n m : Z) :
  (0 <= n < 1000000)%Z -> (0 <= m < 1000000)%Z ->
  String.compare (frameFileName n) (frameFileName m) = Z.compare n m.
Proof.
  intros Hn Hm. unfold frameFileName. rewrite compare_app_prefix.
  destruct (padded_digits 6 n (proj1 Hn)) as [Dn [_ Vn]].
  destruct (padded_digits 6 m (proj1 Hm)) as [Dm [_ Vm]].
  assert (Ln : String.length (Js.padStart0 6 (Js.ofZ n)) = 6)
    by (apply padStart0_length, ofZ_length; [lia|simpl; lia]).
  assert (Lm : String.length (Js.padStart0 6 (Js.ofZ m)) = 6)
    by (apply padStart0_length, ofZ_length; [lia|simpl; lia]).
  pose proof (compare_digit_strings _ _ Dn Dm (eq_trans Ln (eq_sym Lm))) as Hc.
  rewrite Vn, Vm in Hc.
  destruct (Z.eq_dec n m) as [->|Hne].
  - rewrite string_compare_refl. symmetry. apply Z.compare_refl.
  - rewrite compare_app_suffix; [exact Hc|congruence|].
    rewrite Hc. intro E. apply Z.compare_eq_iff in E. contradiction.
Qed.

Lemma isFrameFile_frameFileName (n : Z) :
  FrameExtractor.isFrameFile (frameFileName n) = true.
Proof.
  unfold FrameExtractor.isFrameFile, frameFileName.
  change ("frame_" ++ Js.padStart0 6 (Js.ofZ n) ++ ".jpg")%string
    with (("frame_" ++ Js.padStart0 6 (Js.ofZ n)) ++ ".jpg")%string at 2.
  rewrite endsWith_app. reflexivity.
Qed.

Lemma sorted_names_sorted_numbers (sorted : list Z) :
  (forall n, In n sorted -> (0 <= n < 1000000)%Z) ->
  StronglySorted (fun a b => String.leb a b = true) (map frameFileName sorted) ->
  StronglySorted Z.le sorted.
Proof.
  induction sorted as [|n sorted IH]; intros Hr Hs; [constructor|].
  simpl in Hs. inversion Hs as [|? ? Hs' Hall]; subst.
  constructor.
  - apply IH; [|exact Hs']. intros k Hk. apply Hr. now right.
  - apply Forall_forall. intros m Hm.
    rewrite Forall_forall in Hall.
    specialize (Hall (frameFileName m) (in_map _ _ _ Hm)).
    unfold String.leb in Hall.
    rewrite compare_frame_names in Hall by (apply Hr; simpl; auto).
    destruct (Z.compare_spec n m); [lia|lia|discriminate].
Qed.

(** X21.  Up to 999 999 frames, [extractFrames] returns the frames in the
    order of their numbers: when the frame files of the directory are those
    that ffmpeg names for the numbers [ns], in whatever order the directory
    lists them, the result lists the paths of these frames by increasing
    number, and the number read back from each path is the number of its
    frame. *)
Theorem extracted_frames_in_number_order (readdir : string -> list string)
        (videoPath outputDir : string) (ns : list Z) :
  (forall n, In n ns -> (0 <= n < 1000000)%Z) ->
  Permutation (filter FrameExtractor.isFrameFile (readdir (Path.join outputDir "frames")))
              (map frameFileName ns) ->
  exists sorted,
    Permutation sorted ns
    /\ StronglySorted Z.le sorted
    /\ FrameExtractor.extractFrames readdir videoPath outputDir
       = map (fun n => Path.join (Path.join outputDir "frames") (frameFileName n)) sorted
    /\ map getFrameNumber (FrameExtractor.extractFrames readdir videoPath outputDir)
       = map Some sorted.
Proof.
  intros Hr Hperm. unfold FrameExtractor.extractFrames.
  set (framesDir := Path.join outputDir "frames") in *.
  set (names := sortBy String.ltb (filter FrameExtractor.isFrameFile (readdir framesDir))).
  assert (Hnames : Permutation names (map frameFileName ns)).
  { unfold names. rewrite sortBy_perm. exact Hperm. }
  destruct (Permutation_map_inv _ _ Hnames) as [sorted [Heq Hps]].
  assert (Hrs : forall n, In n sorted -> (0 <= n < 1000000)%Z).
  { intros n Hn. apply Hr. eapply Permutation_in; [symmetry; exact Hps|exact Hn]. }
  exists sorted. split; [now symmetry|]. split; [|split].
  - apply sorted_names_sorted_numbers; [exact Hrs|].
    rewrite <- Heq. apply sortBy_strings_sorted.
  - rewrite Heq, map_map. reflexivity.
  - rewrite Heq, !map_map. apply map_ext_in. intros n Hn.
    apply getFrameNumber_frameFileName. apply Hrs. exact Hn.
Qed.

(** ** index.ts: how the result is put together *)

Lemma bind_Ok_inv (A B : Type) (r : result A) (k : A -> result B) b :
  bind r k = Ok b -> exists a, r = Ok a /\ k a = Ok b.
Proof. destruct r as [a|e]; simpl; [eauto|discriminate]. Qed.

Lemma bind_Err_inv (A B : Type) (r : result A) (k : A -> result B) e :
  bind r k = Err e -> r = Err e \/ exists a, r = Ok a /\ k a = Err e.
Proof. destruct r as [a|e']; simpl; [eauto|intro H; left; congruence]. Qed.

Lemma mapM_Err_inv (A B : Type) (f : A -> result B) xs e :
  mapM f xs = Err e -> exists x, In x xs /\ f x = Err e.
Proof.
  induction xs as [|x xs IH]; simpl; [discriminate|].
  intro H. apply bind_Err_inv in H. destruct H as [H|[y [Hy H]]].
  - exists x. auto.
  - apply bind_Err_inv in H. destruct H as [H|[ys [_ H]]]; [|discriminate].
    destruct (IH H) as [x' [H1 H2]]. exists x'. auto.
Qed.

Section StructureFacts.
Context {num : Type} {N : JsNumber num} {L : ClusterLib num}.

Lemma clusterAndGroup_inv options vp od f fs ts (r : VideoAnalyzerResult num) :
  clusterAndGroup options vp od f fs ts = Ok r ->
  exists cs,
    sortClusters fs (groupByLabel (computeLabels options fs ts)) = Ok cs
    /\ makeGroups (Path.join (outputDir r) "representative_frames") fs ts 0 cs
       = Ok (groups r)
    /\ representativeFramePaths r = map representativeFrame (groups r).
Proof.
  unfold clusterAndGroup. intro H.
  apply bind_Ok_inv in H. destruct H as [cs [Hcs H]].
  apply bind_Ok_inv in H. destruct H as [gs [Hgs H]].
  injection H as <-. exists cs. cbn [outputDir groups representativeFramePaths]. auto.
Qed.

(** Every result comes from the sorted clusters of the labels of the
    run. *)
Lemma analyzeVideo_structure (w : World num) options (r : VideoAnalyzerResult num) :
  analyzeVideo w options = Ok r ->
  exists cs,
    sortClusters (sampledFrames w options) (groupByLabel (runLabels w options)) = Ok cs
    /\ makeGroups (Path.join (outputDir r) "representative_frames")
                  (sampledFrames w options) (frameTexts w options) 0 cs
       = Ok (groups r)
    /\ representativeFramePaths r = map representativeFrame (groups r).
Proof.
  intro Hr.
  destruct (analyzeVideo_cases w options)
    as [[Hc [Hf [r' [Hr' [Ht [Hg Hp]]]]]]|[vp [od [f Hcg]]]].
  - assert (r' = r) by congruence. subst r'.
    assert (Hl : runLabels w options = []).
    { unfold runLabels, frameTexts. rewrite Hc, Hf. reflexivity. }
    exists []. rewrite Hl, Hf, Hg, Hp. repeat split.
  - rewrite Hcg in Hr. apply clusterAndGroup_inv in Hr. exact Hr.
Qed.

Lemma makeGroups_nth dir fs ts gi cs gs i g :
  makeGroups dir fs ts gi cs = Ok gs ->
  nth_error gs i = Some g ->
  exists c, nth_error cs i = Some c /\ makeGroup dir fs ts (gi + i) c = Ok g.
Proof.
  revert gi gs i. induction cs as [|c cs IH]; intros gi gs i H Hi; simpl in H.
  - injection H as <-. destruct i; discriminate.
  - apply bind_Ok_inv in H. destruct H as [g0 [Hg0 H]].
    apply bind_Ok_inv in H. destruct H as [gs' [Hgs' H]]. injection H as <-.
    destruct i as [|i]; simpl in Hi.
    + injection Hi as <-. exists c. rewrite Nat.add_0_r. auto.
    + destruct (IH _ _ _ Hgs' Hi) as [c' [H1 H2]]. exists c'.
      replace (gi + S i) with (S gi + i) by lia. auto.
Qed.

Lemma makeGroups_length dir fs ts gi cs gs :
  makeGroups dir fs ts gi cs = Ok gs -> List.length gs = List.length cs.
Proof.
  intro H. apply makeGroups_spec in H. symmetry. eapply Forall2_length. exact H.
Qed.

Lemma selectGroupRepresentative_member paths groupTexts p :
  selectGroupRepresentative (num := num) paths groupTexts = Ok p -> In p paths.
Proof.
  destruct groupTexts as [ts|]; simpl.
  - apply selectRepresentative_member.
  - destruct paths as [|p0 [|p1 ps]]; try discriminate.
    intro H. injection H as <-. now left.
Qed.

Lemma selectGroupRepresentative_empty_error paths groupTexts :
  paths <> [] ->
  selectGroupRepresentative (num := num) paths groupTexts <> Err EmptyGroupError.
Proof.
  intro Hne. destruct groupTexts as [ts|]; simpl.
  - intro H. apply selectRepresentative_empty_error in H. contradiction.
  - destruct paths as [|p0 [|p1 ps]]; [contradiction|discriminate|discriminate].
Qed.

(** What the body of the group loop builds. *)
Lemma makeGroup_inv dir fs ts gi c g :
  makeGroup (num := num) dir fs ts gi c = Ok g ->
  let paths := map (fun i => nth i fs "") (indices c) in
  exists rep,
    selectGroupRepresentative (num := num) paths (textsAt ts (indices c)) = Ok rep
    /\ (forall i, In i (indices c) -> i < List.length fs)
    /\ groupIndex g = gi + 1
    /\ groupName g = ("Group " ++ Js.ofNat (gi + 1))%string
    /\ representativeFrame g
       = Path.join dir ("group_" ++ Js.padStart0 2 (Js.ofNat (gi + 1))
                        ++ Path.extname rep)
    /\ frameCount g = List.length (indices c)
    /\ frames g = sortBy (fun a b => optZlt (frameNumber a) (frameNumber b))
                         (map frameTimestampOf paths)
    /\ rangeStart (timeRange g)
       = match hd_error (frames g) with Some t => timestamp t | None => "00:00" end
    /\ rangeEnd (timeRange g)
       = match hd_error (rev (frames g)) with Some t => timestamp t | None => "00:00" end.
Proof.
  intros H paths. unfold makeGroup in H. cbv zeta in H.
  apply bind_Ok_inv in H. destruct H as [ps [Hps H]].
  apply bind_Ok_inv in H. destruct H as [rep [Hrep H]].
  apply mapM_frameAt in Hps. destruct Hps as [-> Hb]. fold paths in Hrep, H.
  injection H as <-. exists rep. cbn. repeat split; auto.
Qed.

Lemma sorted_clusters_nonempty fs labels cs c :
  sortClusters fs (groupByLabel labels) = Ok cs -> In c cs -> indices c <> [].
Proof.
  intros Hcs Hc.
  destruct (sortClusters_spec fs _ cs Hcs) as [Hperm _].
  destruct (groupByLabel_spec labels) as [_ [_ [Hcls Hkeys]]].
  assert (Hin : In (clusterLabel c, indices c) (groupByLabel labels)).
  { eapply Permutation_in; [exact Hperm|].
    apply (in_map (fun c => (clusterLabel c, indices c))). exact Hc. }
  assert (Hlab : In (clusterLabel c) labels).
  { apply Hkeys. change (clusterLabel c) with (fst (clusterLabel c, indices c)).
    now apply in_map. }
  rewrite (Hcls _ _ Hin). destruct (In_nth_error _ _ Hlab) as [k Hk].
  intro Hnil.
  assert (Hkin : In k (labelClass labels (clusterLabel c)))
    by (now apply in_labelClass).
  rewrite Hnil in Hkin. contradiction.
Qed.
End StructureFacts.

Lemma sortBy_nil_iff (A : Type) (lt : A -> A -> bool) (l : list A) :
  sortBy lt l = [] <-> l = [].
Proof.
  split; intro H.
  - pose proof (Permutation_length (sortBy_perm A lt l)) as Hl.
    rewrite H in Hl. destruct l; [reflexivity|discriminate].
  - subst. reflexivity.
Qed.

(** X22.  The groups of a result are numbered 1, 2, ... in the order of the
    list and named [Group 1], [Group 2], ...; [representativeFramePaths]
    lists their representative frames in the same order; and the
    representative frame of a group is the file
    [representative_frames/group_NN] of the output directory, with the
    extension of one of the frames that the group lists. *)
Theorem groups_numbered {num : Type} {N : JsNumber num} {L : ClusterLib num}
        (w : World num) (options : VideoAnalyzerOptions num)
        (r : VideoAnalyzerResult num) :
  analyzeVideo w options = Ok r ->
  representativeFramePaths r = map representativeFrame (groups r)
  /\ forall i g, nth_error (groups r) i = Some g ->
       groupIndex g = i + 1
       /\ groupName g = ("Group " ++ Js.ofNat (i + 1))%string
       /\ exists f,
            In f (sampledFrames w options)
            /\ In (frameTimestampOf f) (frames g)
            /\ representativeFrame g
               = Path.join (Path.join (outputDir r) "representative_frames")
                           ("group_" ++ Js.padStart0 2 (Js.ofNat (i + 1))
                            ++ Path.extname f).
Proof.
  intro Hr. destruct (analyzeVideo_structure w options r Hr) as [cs [Hcs [Hgs Hp]]].
  split; [exact Hp|]. intros i g Hi.
  destruct (makeGroups_nth _ _ _ _ _ _ _ _ Hgs Hi) as [c [Hc Hg]].
  apply makeGroup_inv in Hg. cbv zeta in Hg.
  destruct Hg as [rep [Hrep [Hb [H1 [H2 [H3 [_ [H5 _]]]]]]]].
  simpl Nat.add in *. split; [exact H1|]. split; [exact H2|].
  apply selectGroupRepresentative_member in Hrep.
  exists rep. split; [|split; [|exact H3]].
  - apply in_map_iff in Hrep. destruct Hrep as [k [<- Hk]].
    apply nth_In. now apply Hb.
  - rewrite H5. eapply Permutation_in; [symmetry; apply sortBy_perm|].
    now apply in_map.
Qed.

Lemma length_le_sum (gs : list GroupInfo) :
  (forall g, In g gs -> 1 <= frameCount g) ->
  List.length gs <= list_sum (map frameCount gs).
Proof.
  induction gs as [|g gs IH]; intro H; simpl; [lia|].
  specialize (H g (or_introl eq_refl)) as Hg.
  assert (List.length gs <= list_sum (map frameCount gs))
    by (apply IH; intros g' Hg'; apply H; now right).
  lia.
Qed.

(** X23.  No group of a result is empty.  Every group counts the frames it
    lists, at least one; its time range runs from the timestamp of the first
    frame of its list to that of the last, so that the fallback ["00:00"] of
    the source is never taken; and there are at most as many groups as
    frames. *)
Theorem groups_not_empty {num : Type} {N : JsNumber num} {L : ClusterLib num}
        (w : World num) (options : VideoAnalyzerOptions num)
        (r : VideoAnalyzerResult num) :
  analyzeVideo w options = Ok r ->
  List.length (groups r) <= totalFrames r
  /\ forall g, In g (groups r) ->
       1 <= frameCount g
       /\ frameCount g = List.length (frames g)
       /\ exists first last,
            hd_error (frames g) = Some first
            /\ hd_error (rev (frames g)) = Some last
            /\ rangeStart (timeRange g) = timestamp first
            /\ rangeEnd (timeRange g) = timestamp last.
Proof.
  intro Hr. destruct (analyzeVideo_structure w options r Hr) as [cs [Hcs [Hgs _]]].
  assert (Hall : forall g, In g (groups r) ->
            1 <= frameCount g
            /\ frameCount g = List.length (frames g)
            /\ exists first last,
                 hd_error (frames g) = Some first
                 /\ hd_error (rev (frames g)) = Some last
                 /\ rangeStart (timeRange g) = timestamp first
                 /\ rangeEnd (timeRange g) = timestamp last).
  { intros g Hg. destruct (In_nth_error _ _ Hg) as [i Hi].
    destruct (makeGroups_nth _ _ _ _ _ _ _ _ Hgs Hi) as [c [Hc Hmk]].
    pose proof (sorted_clusters_nonempty _ _ _ c Hcs (nth_error_In _ _ Hc)) as Hne.
    apply makeGroup_inv in Hmk. cbv zeta in Hmk.
    destruct Hmk as [rep [_ [_ [_ [_ [_ [H4 [H5 [H6 H7]]]]]]]]].
    assert (Hlen : List.length (frames g) = List.length (indices c)).
    { rewrite H5, (Permutation_length (sortBy_perm _ _ _)), !length_map. reflexivity. }
    assert (Hpos : 1 <= List.length (indices c))
      by (destruct (indices c); [congruence|simpl; lia]).
    split; [lia|]. split; [lia|].
    destruct (frames g) as [|first rest] eqn:Ef; [simpl in Hlen; lia|].
    destruct (rev (first :: rest)) as [|last rest'] eqn:Er.
    { apply (f_equal (@List.length _)) in Er. rewrite length_rev in Er. discriminate. }
    exists first, last. simpl in H6, H7. auto. }
  split; [|exact Hall].
  destruct (analyzeVideo_groups w options r Hr) as [Hll [Ht Hg]].
  destruct (groups_parts _ _ _ Hg Hll) as [parts [_ [_ [Hsum _]]]].
  rewrite Ht, <- Hsum. apply length_le_sum. intros g Hg'. now apply Hall.
Qed.

(** ** index.ts: the order of the frames and of the groups *)


Lemma optZlt_sorted (l : list FrameTimestamp) :
  Forall (fun a => frameNumber a <> None) l ->
  StronglySorted frameNumberLe
                 (sortBy (fun a b => optZlt (frameNumber a) (frameNumber b)) l).
Proof.
  apply sortBy_sorted; unfold frameNumberLe.
  - intros x y Hx Hy. destruct (frameNumber x), (frameNumber y); simpl; try congruence.
    intro H. apply Z.ltb_lt in H. lia.
  - intros x y Hx Hy. destruct (frameNumber x), (frameNumber y); simpl; try congruence.
    intro H. apply Z.ltb_ge in H. lia.
  - intros x y z _ _ _.
    destruct (frameNumber x), (frameNumber y), (frameNumber z); try tauto. lia.
Qed.

(** X24.  When every sampled frame has a frame number (its name holds
    digits after [frame_]), the frames of every group are listed by
    increasing frame number: the time range of a group starts at its earliest
    frame and ends at its latest. *)
Theorem group_frames_sorted {num : Type} {N : JsNumber num} {L : ClusterLib num}
        (w : World num) (options : VideoAnalyzerOptions num)
        (r : VideoAnalyzerResult num) :
  (forall f, In f (sampledFrames w options) -> getFrameNumber f <> None) ->
  analyzeVideo w options = Ok r ->
  forall g, In g (groups r) -> StronglySorted frameNumberLe (frames g).
Proof.
  intros Hnum Hr g Hg.
  destruct (analyzeVideo_structure w options r Hr) as [cs [Hcs [Hgs _]]].
  destruct (In_nth_error _ _ Hg) as [i Hi].
  destruct (makeGroups_nth _ _ _ _ _ _ _ _ Hgs Hi) as [c [Hc Hmk]].
  apply makeGroup_inv in Hmk. cbv zeta in Hmk.
  destruct Hmk as [rep [_ [Hb [_ [_ [_ [_ [H5 _]]]]]]]].
  rewrite H5. apply optZlt_sorted. apply Forall_forall.
  intros ft Hft. apply in_map_iff in Hft. destruct Hft as [f [<- Hf]].
  apply in_map_iff in Hf. destruct Hf as [k [<- Hk]].
  cbn [frameTimestampOf frameNumber]. apply Hnum. apply nth_In. now apply Hb.
Qed.









(** ** index.ts: a run in which no frame has text *)

Lemma groupFrom_repeat (l : label) (k i : nat) (xs : list nat) :
  groupFrom i (repeat l k) [(l, xs)] = [(l, xs ++ seq i k)].
Proof.
  revert i xs. induction k as [|k IH]; intros i xs; simpl.
  - now rewrite app_nil_r.
  - rewrite pushIndex_appendIndex. cbn [appendIndex].
    rewrite (proj2 (labelEqb_eq l l) eq_refl), IH, <- app_assoc. reflexivity.
Qed.

Lemma groupByLabel_repeat (l : label) (n : nat) :
  1 <= n -> groupByLabel (repeat l n) = [(l, seq 0 n)].
Proof.
  intro Hn. destruct n as [|n]; [lia|]. unfold groupByLabel. simpl.
  rewrite pushIndex_appendIndex. cbn [appendIndex]. now rewrite groupFrom_repeat.
Qed.

Lemma map_nth_seq (fs : list string) :
  map (fun i => nth i fs "") (seq 0 (List.length fs)) = fs.
Proof.
  enough (H : forall pre, map (fun i => nth i (pre ++ fs) "")
                              (seq (List.length pre) (List.length fs)) = fs)
    by (apply (H [])).
  induction fs as [|f fs IH]; intro pre; simpl; [reflexivity|].
  rewrite app_nth2, Nat.sub_diag by lia. simpl. f_equal.
  specialize (IH (pre ++ [f])). rewrite length_app, <- app_assoc in IH. simpl in IH.
  replace (List.length pre + 1) with (S (List.length pre)) in IH by lia.
  exact IH.
Qed.

Lemma textsAt_seq (ts : list string) :
  textsAt ts (seq 0 (List.length ts)) = Some ts.
Proof.
  enough (H : forall pre, textsAt (pre ++ ts) (seq (List.length pre) (List.length ts)) = Some ts)
    by (apply (H [])).
  induction ts as [|t ts IH]; intro pre; simpl; [reflexivity|].
  rewrite nth_error_app2, Nat.sub_diag by lia. simpl.
  specialize (IH (pre ++ [t])). rewrite length_app, <- app_assoc in IH. simpl in IH.
  replace (List.length pre + 1) with (S (List.length pre)) in IH by lia.
  now rewrite IH.
Qed.

(** X26.  When no sampled frame has text (an OCR stage without a worker
    leaves it so), the frames are not told apart: the result has exactly one
    group, [Group 1], which counts every frame, and its representative is the
    first frame, stored as [group_01] with the extension of that frame. *)
Theorem no_text_single_group {num : Type} {N : JsNumber num} {L : ClusterLib num}
        (w : World num) (options : VideoAnalyzerOptions num) (f0 : string) :
  cacheAligned w options ->
  hd_error (sampledFrames w options) = Some f0 ->
  (forall t, In t (frameTexts w options) -> hasText t = false) ->
  exists r g,
    analyzeVideo w options = Ok r
    /\ groups r = [g]
    /\ groupIndex g = 1
    /\ frameCount g = totalFrames r
    /\ representativeFrame g
       = Path.join (Path.join (outputDir r) "representative_frames")
                   ("group_01" ++ Path.extname f0).
Proof.
  intros Ha Hf0 Hblank.
  destruct (analyzeVideo_total w options Ha) as [r Hr]. exists r.
  pose proof (frameTexts_length w options Ha) as Hlen.
  destruct (analyzeVideo_structure w options r Hr) as [cs [Hcs [Hgs _]]].
  destruct (analyzeVideo_groups w options r Hr) as [_ [Ht _]].
  set (fs := sampledFrames w options) in *. set (ts := frameTexts w options) in *.
  assert (Hn : 1 <= List.length fs) by (destruct fs; [discriminate|simpl; lia]).
  assert (Hlab : runLabels w options = repeat (Some 0%Z) (List.length fs)).
  { unfold runLabels, computeLabels. fold fs ts.
    rewrite matrix_length_hasText.
    replace (filter hasText ts) with (@nil string); [reflexivity|].
    symmetry. apply filter_none. exact Hblank. }
  rewrite Hlab, groupByLabel_repeat in Hcs by exact Hn.
  unfold sortClusters in Hcs. cbn [mapM fst snd] in Hcs.
  apply bind_Ok_inv in Hcs. destruct Hcs as [cs0 [Hcs0 Hcs]]. injection Hcs as <-.
  apply bind_Ok_inv in Hcs0. destruct Hcs0 as [c [Hc Hcs0]].
  apply bind_Ok_inv in Hc. destruct Hc as [avg [_ Hc]]. injection Hc as <-.
  injection Hcs0 as <-. cbn [sortBy fold_left insertBy makeGroups] in Hgs.
  apply bind_Ok_inv in Hgs. destruct Hgs as [g [Hg Hgs]]. injection Hgs as Hgs.
  exists g. split; [exact Hr|]. split; [now symmetry|].
  apply makeGroup_inv in Hg. cbv zeta in Hg. cbn [indices] in Hg.
  destruct Hg as [rep [Hrep [_ [H1 [_ [H3 [H4 _]]]]]]].
  split; [exact H1|]. split; [now rewrite H4, length_seq, Ht|].
  rewrite H3. f_equal.
  rewrite map_nth_seq in Hrep. rewrite <- Hlen, textsAt_seq in Hrep.
  cbn [selectGroupRepresentative] in Hrep.
  destruct fs as [|f fs']; [discriminate|]. injection Hf0 as ->.
  rewrite (select_no_text f0 fs' ts Hblank) in Hrep. injection Hrep as <-.
  reflexivity.
Qed.

(** ** index.ts: the exceptions of a run *)

Section ErrorFacts.
Context {num : Type} {N : JsNumber num} {L : ClusterLib num}.

Lemma frameAt_error fs i e : frameAt fs i = Err e -> e = TypeError.
Proof. unfold frameAt. destruct (nth_error fs i); [discriminate|congruence]. Qed.

Lemma sortClusters_error fs m e : sortClusters fs m = Err e -> e = TypeError.
Proof.
  unfold sortClusters. intro H.
  apply bind_Err_inv in H. destruct H as [H|[cs [_ H]]]; [|discriminate].
  apply mapM_Err_inv in H. destruct H as [entry [_ H]].
  apply bind_Err_inv in H. destruct H as [H|[avg [_ H]]]; [|discriminate].
  unfold averageFrame in H.
  apply bind_Err_inv in H. destruct H as [H|[nums [_ H]]]; [|discriminate].
  apply mapM_Err_inv in H. destruct H as [i [_ H]].
  apply bind_Err_inv in H. destruct H as [H|[f [_ H]]]; [|discriminate].
  eapply frameAt_error. exact H.
Qed.

Lemma makeGroup_error dir fs ts gi c e :
  indices c <> [] -> makeGroup (num := num) dir fs ts gi c = Err e -> e = TypeError.
Proof.
  intros Hne H. unfold makeGroup in H. cbv zeta in H.
  apply bind_Err_inv in H. destruct H as [H|[paths [Hp H]]].
  - apply mapM_Err_inv in H. destruct H as [i [_ H]]. eapply frameAt_error. exact H.
  - apply bind_Err_inv in H. destruct H as [H|[rep [_ H]]]; [|discriminate].
    destruct e; [|reflexivity]. exfalso.
    apply (selectGroupRepresentative_empty_error (num := num) paths
                                                 (textsAt ts (indices c))); [|exact H].
    apply mapM_frameAt in Hp. destruct Hp as [-> _].
    destruct (indices c); [contradiction|discriminate].
Qed.

Lemma makeGroups_error dir fs ts gi cs e :
  (forall c, In c cs -> indices c <> []) ->
  makeGroups (num := num) dir fs ts gi cs = Err e -> e = TypeError.
Proof.
  revert gi. induction cs as [|c cs IH]; intros gi Hne H; simpl in H; [discriminate|].
  apply bind_Err_inv in H. destruct H as [H|[g [_ H]]].
  - eapply makeGroup_error; [|exact H]. apply Hne. now left.
  - apply bind_Err_inv in H. destruct H as [H|[gs [_ H]]]; [|discriminate].
    eapply IH; [|exact H]. intros c' Hc'. apply Hne. now right.
Qed.

Lemma clusterAndGroup_error options vp od f fs ts e :
  clusterAndGroup (num := num) options vp od f fs ts = Err e -> e = TypeError.
Proof.
  unfold clusterAndGroup. intro H.
  apply bind_Err_inv in H. destruct H as [H|[cs [Hcs H]]].
  - eapply sortClusters_error. exact H.
  - apply bind_Err_inv in H. destruct H as [H|[gs [_ H]]]; [|discriminate].
    eapply makeGroups_error; [|exact H].
    intros c Hc. eapply sorted_clusters_nonempty; eassumption.
Qed.
End ErrorFacts.

(** X27.  The exceptions of the code of [analyzeVideo] itself, the calls
    of ffmpeg, of tesseract, of the cache files and of the clustering
    packages taken to return (the packages being called with an integer
    cluster count): the error of [selectRepresentative] for an empty group
    is never raised, since no group is empty; and a [TypeError] is raised
    only on a cache record whose texts are not aligned with its frames. *)
Theorem only_type_errors {num : Type} {N : JsNumber num} {L : ClusterLib num}
        (w : World num) (options : VideoAnalyzerOptions num) :
  analyzeVideo w options <> Err EmptyGroupError
  /\ (forall e, analyzeVideo w options = Err e ->
       exists cached,
         loadCache w (videoHashOf w options) = Some cached
         /\ List.length (cachedTexts cached) <> List.length (cachedFrames cached)).
Proof.
  split.
  - intro H.
    destruct (analyzeVideo_cases w options)
      as [[_ [_ [r [Hr _]]]]|[vp [od [f Hcg]]]]; [congruence|].
    rewrite Hcg in H. apply clusterAndGroup_error in H. discriminate H.
  - intros e H.
    destruct (loadCache w (videoHashOf w options)) as [cached|] eqn:Ec.
    + exists cached. split; [reflexivity|]. intro Hlen.
      destruct (analyzeVideo_total w options) as [r Hr]; [|congruence].
      unfold cacheAligned. now rewrite Ec.
    + exfalso. destruct (analyzeVideo_total w options) as [r Hr]; [|congruence].
      unfold cacheAligned. now rewrite Ec.
Qed.

(** ** routes/videoAnalyzer.ts: a group is found by its index *)

Lemma parseInt_ofZ (n : Z) : (0 <= n)%Z -> parseInt (Js.ofZ n) = Some n.
Proof.
  intro Hn. destruct (padded_digits 0 n Hn) as [Hd [Hne Hv]].
  unfold Js.padStart0 in *. simpl in *.
  rewrite parseInt_digits by assumption. now rewrite Hv.
Qed.

Lemma find_numbered (gs : list GroupInfo) (start k : nat) :
  (forall i g, nth_error gs i = Some g -> groupIndex g = start + i + 1) ->
  find (fun s => (Z.of_nat (VideoRoute.summaryGroupIndex s) =? Z.of_nat k)%Z)
       (map VideoRoute.summarize gs)
  = if k <=? start then None
    else option_map VideoRoute.summarize (nth_error gs (k - start - 1)).
Proof.
  revert start. induction gs as [|g gs IH]; intros start Hnum; simpl.
  - destruct (k <=? start); [reflexivity|]. now destruct (k - start - 1).
  - pose proof (Hnum 0 g eq_refl) as Hg.
    assert (Hrest : forall i g', nth_error gs i = Some g' -> groupIndex g' = S start + i + 1).
    { intros i g' Hi. rewrite (Hnum (S i) g' Hi). lia. }
    rewrite (IH (S start) Hrest), Hg.
    destruct (Z.of_nat (start + 0 + 1) =? Z.of_nat k)%Z eqn:E.
    + apply Z.eqb_eq in E. assert (k = start + 1) by lia. subst k.
      destruct (start + 1 <=? start) eqn:E1; [apply Nat.leb_le in E1; lia|].
      replace (start + 1 - start - 1) with 0 by lia. reflexivity.
    + apply Z.eqb_neq in E.
      destruct (k <=? start) eqn:E1.
      * apply Nat.leb_le in E1.
        destruct (k <=? S start) eqn:E2; [reflexivity|apply Nat.leb_gt in E2; lia].
      * apply Nat.leb_gt in E1.
        destruct (k <=? S start) eqn:E2; [apply Nat.leb_le in E2; lia|].
        replace (k - start - 1) with (S (k - S start - 1)) by lia. reflexivity.
Qed.

(** X28.  On the groups that the upload route stores for a result, the
    frame route finds a group by the decimal spelling of its index: the
    spelling of [k] finds the [k]-th group of the result, and nothing when
    [k] is zero or exceeds the number of groups. *)
Theorem stored_group_found_by_index {num : Type} {N : JsNumber num} {L : ClusterLib num}
        (w : World num) (options : VideoAnalyzerOptions num)
        (r : VideoAnalyzerResult num) (k : nat) :
  analyzeVideo w options = Ok r ->
  VideoRoute.findGroup (map VideoRoute.summarize (groups r)) (Js.ofZ (Z.of_nat k))
  = match k with
    | O => None
    | S i => option_map VideoRoute.summarize (nth_error (groups r) i)
    end.
Proof.
  intro Hr. unfold VideoRoute.findGroup. rewrite parseInt_ofZ by lia.
  destruct (analyzeVideo_structure w options r Hr) as [cs [_ [Hgs _]]].
  rewrite (find_numbered (groups r) 0 k).
  - destruct k as [|i]; [reflexivity|]. simpl. now rewrite Nat.sub_0_r.
  - intros i g Hi. destruct (makeGroups_nth _ _ _ _ _ _ _ _ Hgs Hi) as [c [_ Hg]].
    apply makeGroup_inv in Hg. cbv zeta in Hg. destruct Hg as [_ [_ [_ [H _]]]].
    exact H.
Qed.

(** ** index.ts: mapping the cluster labels back to the frames *)

Lemma remapFrom_firstn orig cl labels :
  remapFrom orig cl labels = remapFrom (firstn (List.length cl) orig) cl labels.
Proof.
  revert orig labels. induction cl as [|c cl IH]; intros orig labels.
  - destruct orig; reflexivity.
  - destruct orig as [|o orig]; [reflexivity|]. simpl. apply IH.
Qed.

(** X29.  The loop [labels[originalIndices[i]] = clusterLabels[i]] on an
    array filled with -1: the array keeps one label per frame; the frame of
    row [j] carries the label of row [j]; and every other frame, a frame
    without text or the frame of a row for which the clustering returned no
    label, carries -1. *)
Theorem labels_mapped_back (nFrames : nat) (orig : list nat) (cl : list label) :
  NoDup orig ->
  (forall o, In o orig -> o < nFrames) ->
  let labels := remapLabels nFrames orig cl in
  List.length labels = nFrames
  /\ (forall j o c, nth_error orig j = Some o -> nth_error cl j = Some c ->
                    nth_error labels o = Some c)
  /\ (forall k, k < nFrames ->
                (forall j, nth_error orig j = Some k -> List.length cl <= j) ->
                nth_error labels k = Some NOISE).
Proof.
  intros Hnd Hb labels. unfold labels, remapLabels.
  assert (Hb' : forall o, In o orig -> o < List.length (repeat NOISE nFrames))
    by (intros o Ho; rewrite repeat_length; now apply Hb).
  split; [|split].
  - rewrite remapFrom_length by exact Hb'. apply repeat_length.
  - intros j o c Ho Hc. eapply remapFrom_row; eassumption.
  - intros k Hk Hnone. rewrite remapFrom_firstn, remapFrom_other.
    + now apply nth_error_repeat.
    + intro Hin. destruct (In_nth_error _ _ Hin) as [j Hj].
      assert (Hjl : j < List.length (firstn (List.length cl) orig))
        by (apply nth_error_Some; congruence).
      rewrite length_firstn in Hjl.
      rewrite nth_error_firstn in Hj.
      destruct (j <? List.length cl) eqn:E; [|discriminate].
      specialize (Hnone j Hj). lia.
    + intros o Ho. apply Hb'.
      rewrite <- (firstn_skipn (List.length cl) orig). apply in_or_app. now left.
Qed.

(** ** Instances of the further properties on concrete inputs *)

Lemma tokens_wellformed_witness :
  isWord "invoice"
  \/ exists a b, "invoice" = (a ++ " " ++ b)%string /\ isWord a /\ isWord b.
Proof.
  apply (tokens_wellformed "Invoice total: 42"). vm_compute. left. reflexivity.
Defined.

Lemma tokenless_text_zero_row_witness :
  nth_error (matrix (buildTfidfMatrix (num := R) ["the"; "alpha"])) 0
  = Some (repeat 0%R (List.length (vocabulary (buildTfidfMatrix (num := R) ["the"; "alpha"])))).
Proof.
  apply (tokenless_text_zero_row ["the"; "alpha"] 0 0 "the"); vm_compute; reflexivity.
Defined.

Lemma cosine_symmetric_witness :
  cosineSimilarity [1; 0]%R [0; 1]%R = cosineSimilarity [0; 1]%R [1; 0]%R
  /\ cosineDistance [1; 0]%R [0; 1]%R = cosineDistance [0; 1]%R [1; 0]%R.
Proof. apply cosine_symmetric. reflexivity. Defined.

Lemma dbscan_labels_from_clusters_witness :
  nth_error (clusterDBSCAN (L := oneClusterFound) [[1; 0]; [1; 0]]%R (1 / 2)%R 2) 1
  = Some (Some (Z.of_nat 0)).
Proof.
  apply (proj1 (proj2 (dbscan_labels_from_clusters (L := oneClusterFound)
                         [[1; 0]; [1; 0]]%R (1 / 2)%R 2 1
                         ltac:(simpl; lia) ltac:(simpl; lia)))).
  exists [0; 1]. split; [reflexivity|]. split; [simpl; auto|].
  intros c' cl' Hc' H. destruct c' as [|[|c']]; [lia|discriminate|discriminate].
Defined.

Lemma single_cluster_runs_witness :
  exists r, analyzeVideo (twoFrameWorld "" "hello world") defaultOptions = Ok r
            /\ List.length (groups r) <= 2.
Proof.
  assert (H : exists r, analyzeVideo (twoFrameWorld "" "hello world") defaultOptions = Ok r)
    by (eexists; vm_compute; reflexivity).
  destruct H as [r Hr]. exists r. split; [exact Hr|].
  refine (proj1 (single_cluster_runs (twoFrameWorld "" "hello world") defaultOptions r
                                     I eq_refl _ Hr)).
  vm_compute. lia.
Defined.

Lemma identical_texts_first_frame_witness :
  selectRepresentative (num := R) ("a.jpg" :: ["b.jpg"; "c.jpg"])
                       (repeat "invoice total 42" (S (List.length ["b.jpg"; "c.jpg"])))
  = Ok "a.jpg".
Proof. apply (identical_texts_first_frame real_order). reflexivity. Defined.

Lemma pool_bounded_concurrency_witness :
  let p := Ocr.run (fun _ _ => None) "eng" 1 (Ocr.start ["a.jpg"; "b.jpg"; "c.jpg"] 2) in
  inFlightCount p <= 2
  /\ Ocr.completed p + inFlightCount p + List.length (Ocr.queue p) = 3.
Proof.
  apply (pool_bounded_concurrency (fun _ _ => None) ["a.jpg"; "b.jpg"; "c.jpg"] "eng" 2).
  eapply Ocr.steps_next; [exists 0; reflexivity|apply Ocr.steps_refl].
Defined.

Lemma pool_settles_when_complete_witness :
  let p := Ocr.run (fun _ _ => None) "eng" 3 (Ocr.start ["a.jpg"; "b.jpg"; "c.jpg"] 2) in
  Ocr.settled p = true <-> Ocr.completed p = 3.
Proof.
  refine (proj1 (pool_settles_when_complete (fun _ _ => None)
                   ["a.jpg"; "b.jpg"; "c.jpg"] "eng" 2 _ _ _)); [lia|].
  eapply Ocr.steps_next; [exists 0; reflexivity|].
  eapply Ocr.steps_next; [exists 0; reflexivity|].
  eapply Ocr.steps_next; [exists 1; reflexivity|apply Ocr.steps_refl].
Defined.

Lemma texts_of_uncached_run_witness :
  frameTexts (twoFrameWorld "" "hello world") defaultOptions = [""; "hello world"].
Proof.
  destruct (texts_of_uncached_run (twoFrameWorld "" "hello world") defaultOptions eq_refl)
    as [_ [H _]].
  rewrite H by (simpl; lia). reflexivity.
Defined.

Lemma frame_number_round_trip_witness :
  getFrameNumber (Path.join "/workspace/video-cache/abc/frames" (frameFileName 16))
  = Some 16%Z.
Proof. apply frame_number_round_trip. lia. Defined.

Lemma extracted_frames_in_number_order_witness :
  exists sorted,
    Permutation sorted [2; 1]%Z
    /\ StronglySorted Z.le sorted
    /\ FrameExtractor.extractFrames sampleListing "/videos/talk.mp4" "/cache"
       = map (fun n => Path.join (Path.join "/cache" "frames") (frameFileName n)) sorted
    /\ map getFrameNumber
           (FrameExtractor.extractFrames sampleListing "/videos/talk.mp4" "/cache")
       = map Some sorted.
Proof.
  apply (extracted_frames_in_number_order sampleListing "/videos/talk.mp4" "/cache"
                                          [2; 1]%Z).
  - intros n [<-|[<-|[]]]; lia.
  - exact (Permutation_refl _).
Defined.

Lemma groups_numbered_witness :
  exists r, analyzeVideo (twoFrameWorld "" "hello world") defaultOptions = Ok r
            /\ representativeFramePaths r = map representativeFrame (groups r).
Proof.
  assert (H : exists r, analyzeVideo (twoFrameWorld "" "hello world") defaultOptions = Ok r)
    by (eexists; vm_compute; reflexivity).
  destruct H as [r Hr]. exists r. split; [exact Hr|].
  exact (proj1 (groups_numbered (twoFrameWorld "" "hello world") defaultOptions r Hr)).
Defined.

Lemma groups_not_empty_witness :
  exists r, analyzeVideo (twoFrameWorld "" "hello world") defaultOptions = Ok r
            /\ List.length (groups r) <= totalFrames r.
Proof.
  assert (H : exists r, analyzeVideo (twoFrameWorld "" "hello world") defaultOptions = Ok r)
    by (eexists; vm_compute; reflexivity).
  destruct H as [r Hr]. exists r. split; [exact Hr|].
  exact (proj1 (groups_not_empty (twoFrameWorld "" "hello world") defaultOptions r Hr)).
Defined.

Lemma twoFrames_numbered (text1 text2 : string) (f : string) :
  In f (sampledFrames (twoFrameWorld text1 text2) defaultOptions) ->
  getFrameNumber f <> None.
Proof.
  intro Hf. change (In f twoFrames) in Hf.
  destruct Hf as [<-|[<-|[]]]; vm_compute; discriminate.
Qed.

Lemma group_frames_sorted_witness :
  exists r, analyzeVideo (twoFrameWorld "" "hello world") defaultOptions = Ok r
            /\ forall g, In g (groups r) -> StronglySorted frameNumberLe (frames g).
Proof.
  assert (H : exists r, analyzeVideo (twoFrameWorld "" "hello world") defaultOptions = Ok r)
    by (eexists; vm_compute; reflexivity).
  destruct H as [r Hr]. exists r. split; [exact Hr|].
  exact (group_frames_sorted (twoFrameWorld "" "hello world") defaultOptions r
                             (twoFrames_numbered "" "hello world") Hr).
Defined.


Lemma no_text_single_group_witness :
  exists r g,
    analyzeVideo (twoFrameWorld "" "") defaultOptions = Ok r
    /\ groups r = [g]
    /\ groupIndex g = 1
    /\ frameCount g = totalFrames r
    /\ representativeFrame g
       = Path.join (Path.join (outputDir r) "representative_frames")
                   ("group_01"
                    ++ Path.extname "/workspace/video-cache/abc/frames/frame_000001.jpg").
Proof.
  apply (no_text_single_group (twoFrameWorld "" "") defaultOptions).
  - exact I.
  - reflexivity.
  - intros t Ht. vm_compute in Ht. destruct Ht as [<-|[<-|[]]]; reflexivity.
Defined.

Lemma only_type_errors_witness :
  exists cached,
    loadCache staleCacheWorld (videoHashOf staleCacheWorld defaultOptions) = Some cached
    /\ List.length (cachedTexts cached) <> List.length (cachedFrames cached).
Proof.
  refine (proj2 (only_type_errors staleCacheWorld defaultOptions) TypeError _).
  vm_compute. reflexivity.
Defined.

Lemma stored_group_found_by_index_witness :
  exists r, analyzeVideo (twoFrameWorld "" "hello world") defaultOptions = Ok r
            /\ VideoRoute.findGroup (map VideoRoute.summarize (groups r))
                                    (Js.ofZ (Z.of_nat 2))
               = option_map VideoRoute.summarize (nth_error (groups r) 1).
Proof.
  assert (H : exists r, analyzeVideo (twoFrameWorld "" "hello world") defaultOptions = Ok r)
    by (eexists; vm_compute; reflexivity).
  destruct H as [r Hr]. exists r. split; [exact Hr|].
  exact (stored_group_found_by_index (twoFrameWorld "" "hello world") defaultOptions r 2 Hr).
Defined.

Lemma labels_mapped_back_witness :
  let labels := remapLabels 3 [0; 2] [Some 1%Z; Some 0%Z] in
  List.length labels = 3
  /\ (forall j o c, nth_error [0; 2] j = Some o ->
                    nth_error [Some 1%Z; Some 0%Z] j = Some c ->
                    nth_error labels o = Some c)
  /\ (forall k, k < 3 ->
                (forall j, nth_error [0; 2] j = Some k ->
                           List.length [Some 1%Z; Some 0%Z] <= j) ->
                nth_error labels k = Some NOISE).
Proof.
  apply (labels_mapped_back 3 [0; 2] [Some 1%Z; Some 0%Z]).
  - constructor; [intros [H|[]]; discriminate|]. constructor; [intros []|constructor].
  - intros o [<-|[<-|[]]]; lia.
Defined.
